(** * webgl-demo.js: the rotating textured cube

    A shallow embedding of [src/webgl-demo.js]: the pointer-driven rotation
    state (module-level variables of line 4), the render callback, the shader
    and texture set-up routines, and the WebGL host they talk to.

    Numbers.  The script computes with JavaScript numbers, which are IEEE-754
    doubles.  The rotation state is embedded twice.  Module [Double] has it
    over binary64 values ([float]), every operation rounded as the script
    rounds it; what is said about the numbers the script arrives at (the
    decay after release, the angle accumulated by a drag) is said about this
    embedding, with the distance to the exact value bounded through the
    Standard Library's specification of binary64.  The top-level embedding
    has the same functions over exact rationals ([Q]); it serves statements
    that do not depend on rounding: which fields a handler writes, which
    branch is taken, and the value of a formula.

    The host.  The [gl] object, [alert], [Image] and the scheduler belong to
    the browser.  They are modelled by a state ([GL]) that keeps the live
    shader, program and texture objects and a chronological log of the calls
    the script makes, together with a record of oracles ([Host]) for what the
    script cannot decide itself: whether a source compiles, whether a program
    links, which names a linked program exposes, and whether the binding
    raises a TypeError when it is handed [null] where an object is expected.
    A decoded image carries what the host will do when it is uploaded: take
    it, refuse it with a GL error, or throw a SecurityError. *)

From stdpp Require Import gmap strings.
From Stdlib Require Import QArith Qabs Qround Qpower Lqa.
From Stdlib Require Import Floats Zpower.

Local Open Scope Q_scope.

#[local] Set Warnings "-inexact-float".

(** ** Module-level state (line 4) *)

Record Globals : Type := mkGlobals {
  dragging : bool;
  lastMouseX : Q;
  lastMouseY : Q;
  rotationX : Q;
  rotationY : Q;
  velocityX : Q;
  velocityY : Q
}.

(** [let gl, dragging = false, lastMouseX = 0, ...] *)
Definition initialGlobals : Globals :=
  {| dragging := false; lastMouseX := 0; lastMouseY := 0;
     rotationX := 0; rotationY := 0; velocityX := 0; velocityY := 0 |}.

(** [const friction = 0.95;] (line 5) *)
Definition friction : Q := 0.95.

(** The fields of a mouse event the handlers read. *)
Record MouseEvent : Type := mkMouse { clientX : Q; clientY : Q }.

(** ** Mouse handlers (lines 75-83), as updates of the module-level state *)

(** [(e) => { dragging = true; lastMouseX = e.clientX; lastMouseY = e.clientY; }] *)
Definition onMouseDown (e : MouseEvent) (g : Globals) : Globals :=
  {| dragging := true;
     lastMouseX := clientX e; lastMouseY := clientY e;
     rotationX := rotationX g; rotationY := rotationY g;
     velocityX := velocityX g; velocityY := velocityY g |}.

(** [() => { dragging = false; }] *)
Definition onMouseUp (g : Globals) : Globals :=
  {| dragging := false;
     lastMouseX := lastMouseX g; lastMouseY := lastMouseY g;
     rotationX := rotationX g; rotationY := rotationY g;
     velocityX := velocityX g; velocityY := velocityY g |}.

(** The mousemove handler (lines 77-83):
    [if (!dragging) return;
     const dx = e.clientX - lastMouseX, dy = e.clientY - lastMouseY;
     velocityY = dx * 0.01; velocityX = dy * 0.01;
     rotationY += velocityY; rotationX += velocityX;
     lastMouseX = e.clientX; lastMouseY = e.clientY;] *)
Definition onMouseMove (e : MouseEvent) (g : Globals) : Globals :=
  if negb (dragging g) then g
  else
    let dx := clientX e - lastMouseX g in
    let dy := clientY e - lastMouseY g in
    let velocityY' := dx * 0.01 in
    let velocityX' := dy * 0.01 in
    {| dragging := dragging g;
       lastMouseX := clientX e; lastMouseY := clientY e;
       rotationX := rotationX g + velocityX';
       rotationY := rotationY g + velocityY';
       velocityX := velocityX'; velocityY := velocityY' |}.

(** The state part of [render] (lines 97-102):
    [if (!dragging) { rotationX += velocityX; rotationY += velocityY;
                      velocityX *= friction; velocityY *= friction; }] *)
Definition renderGlobals (g : Globals) : Globals :=
  if negb (dragging g) then
    {| dragging := dragging g;
       lastMouseX := lastMouseX g; lastMouseY := lastMouseY g;
       rotationX := rotationX g + velocityX g;
       rotationY := rotationY g + velocityY g;
       velocityX := velocityX g * friction;
       velocityY := velocityY g * friction |}
  else g.

(** ** The rotation state in double precision

    The same four functions over binary64 values, as the script computes
    them: every [+], [-] and [*] below is the IEEE-754 operation, rounded to
    nearest with ties to even, and [0.95] and [0.01] are the doubles nearest to
    these decimals. *)

Module Double.

Record Globals : Type := mkGlobals {
  dragging : bool;
  lastMouseX : float;
  lastMouseY : float;
  rotationX : float;
  rotationY : float;
  velocityX : float;
  velocityY : float
}.

(** [let gl, dragging = false, lastMouseX = 0, ...] *)
Definition initialGlobals : Globals :=
  {| dragging := false; lastMouseX := 0; lastMouseY := 0;
     rotationX := 0; rotationY := 0; velocityX := 0; velocityY := 0 |}%float.

(** [const friction = 0.95;] (line 5) *)
Definition friction : float := 0.95.

Record MouseEvent : Type := mkMouse { clientX : float; clientY : float }.

(** [(e) => { dragging = true; lastMouseX = e.clientX; lastMouseY = e.clientY; }] *)
Definition onMouseDown (e : MouseEvent) (g : Globals) : Globals :=
  {| dragging := true;
     lastMouseX := clientX e; lastMouseY := clientY e;
     rotationX := rotationX g; rotationY := rotationY g;
     velocityX := velocityX g; velocityY := velocityY g |}.

(** [() => { dragging = false; }] *)
Definition onMouseUp (g : Globals) : Globals :=
  {| dragging := false;
     lastMouseX := lastMouseX g; lastMouseY := lastMouseY g;
     rotationX := rotationX g; rotationY := rotationY g;
     velocityX := velocityX g; velocityY := velocityY g |}.

(** The mousemove handler (lines 77-83):
    [if (!dragging) return;
     const dx = e.clientX - lastMouseX, dy = e.clientY - lastMouseY;
     velocityY = dx * 0.01; velocityX = dy * 0.01;
     rotationY += velocityY; rotationX += velocityX;
     lastMouseX = e.clientX; lastMouseY = e.clientY;] *)
Definition onMouseMove (e : MouseEvent) (g : Globals) : Globals :=
  if negb (dragging g) then g
  else
    let dx := (clientX e - lastMouseX g)%float in
    let dy := (clientY e - lastMouseY g)%float in
    let velocityY' := (dx * 0.01)%float in
    let velocityX' := (dy * 0.01)%float in
    {| dragging := dragging g;
       lastMouseX := clientX e; lastMouseY := clientY e;
       rotationX := (rotationX g + velocityX')%float;
       rotationY := (rotationY g + velocityY')%float;
       velocityX := velocityX'; velocityY := velocityY' |}.

(** The state part of [render] (lines 97-102):
    [if (!dragging) { rotationX += velocityX; rotationY += velocityY;
                      velocityX *= friction; velocityY *= friction; }] *)
Definition renderGlobals (g : Globals) : Globals :=
  if negb (dragging g) then
    {| dragging := dragging g;
       lastMouseX := lastMouseX g; lastMouseY := lastMouseY g;
       rotationX := (rotationX g + velocityX g)%float;
       rotationY := (rotationY g + velocityY g)%float;
       velocityX := (velocityX g * friction)%float;
       velocityY := (velocityY g * friction)%float |}
  else g.

(** [n] frame ticks in a row. *)
Definition ticks (n : nat) (g : Globals) : Globals :=
  Nat.iter n renderGlobals g.

(** Pointer moves in a row. *)
Definition moves (es : list MouseEvent) (g : Globals) : Globals :=
  foldl (fun g e => onMouseMove e g) g es.

(** The events that reach the rotation state, each with the callback that
    lines 75-83 and 105 register for it. *)
Inductive Event : Type :=
| MouseDown (e : MouseEvent)
| MouseUp
| MouseMove (e : MouseEvent)
| Frame (now : float).

Definition dispatch (g : Globals) (ev : Event) : Globals :=
  match ev with
  | MouseDown e => onMouseDown e g
  | MouseUp => onMouseUp g
  | MouseMove e => onMouseMove e g
  | Frame _ => renderGlobals g
  end.

Definition dispatchAll (g : Globals) (evs : list Event) : Globals :=
  foldl dispatch g evs.

(** The pointer positions reported along a run of events. *)
Fixpoint movesOf (evs : list Event) : list MouseEvent :=
  match evs with
  | [] => []
  | MouseMove e :: r => e :: movesOf r
  | _ :: r => movesOf r
  end.

(** Events that can arrive while the button stays down. *)
Definition whileHeld (ev : Event) : bool :=
  match ev with
  | MouseMove _ | Frame _ => true
  | _ => false
  end.

End Double.

(** *** The number a double stands for *)

Definition sgn (s : bool) : Q := if s then -1 else 1.

(** The rational a finite double is, through the Standard Library's
    specification of binary64 ([spec_float]); infinities and NaN are told
    apart by [finite]. *)
Definition SF2Q (x : spec_float) : Q :=
  match x with
  | S754_finite s m e => sgn s * inject_Z (Zpos m) * 2 ^ e
  | _ => 0
  end.

Definition SFfinite (x : spec_float) : bool :=
  match x with
  | S754_zero _ | S754_finite _ _ _ => true
  | _ => false
  end.

Definition valueOf (x : float) : Q := SF2Q (Prim2SF x).

(** Neither an infinity nor NaN. *)
Definition finite (x : float) : bool := SFfinite (Prim2SF x).

(** Half a unit in the last place of a double in [1, 2), and half the
    spacing of the subnormal doubles. *)
Definition eps64 : Q := 2 ^ (-53).
Definition eta64 : Q := 2 ^ (-1075).

(** A double far from overflow. *)
Definition moderate (x : float) : Prop :=
  finite x = true /\ Qabs (valueOf x) <= 2 ^ 500.

(** One axis of the decay: the velocity and the angle after [n] idle ticks. *)
Fixpoint velocityAfter (v0 : float) (n : nat) : float :=
  match n with
  | O => v0
  | S k => (velocityAfter v0 k * Double.friction)%float
  end.

Fixpoint angleAfter (r0 v0 : float) (n : nat) : float :=
  match n with
  | O => r0
  | S k => (angleAfter r0 v0 k + velocityAfter v0 k)%float
  end.

(** How far the computed velocity may be from velocity_0 * 0.95^N, and the
    computed angle, per tick, from the partial geometric sum:
    2^-47 |v0| + 2^-1070, and 2^-52 |r0| + 2^-45 |v0| + 2^-1068. *)
Definition velocityTolerance (v0 : Q) : Q := 64 * eps64 * Qabs v0 + 32 * eta64.

Definition angleTolerance (r0 v0 : Q) : Q :=
  2 * eps64 * Qabs r0 + 256 * eps64 * Qabs v0 + 128 * eta64.

(** One axis of a drag: the angle and the recorded coordinate, move by move. *)
Definition dragStep (st : float * float) (x : float) : float * float :=
  (fst st + (x - snd st) * 0.01, x)%float.

Definition dragAxis (y l : float) (xs : list float) : float * float :=
  foldl dragStep (y, l) xs.

(** The exact deltas along a sequence of coordinates, each from the one
    before it, the first from [x]. *)
Fixpoint steps (x : Q) (xs : list Q) : list Q :=
  match xs with
  | [] => []
  | x' :: r => (x' - x) :: steps x' r
  end.

Definition Qsum (l : list Q) : Q := foldr Qplus 0 l.

(** How far the computed angle may be, per move, from the exact sum, for a
    total pointer travel [s]: 2^-52 |y0| + 2^-49 * 0.01 * s + 2^-1072. *)
Definition dragTolerance (y0 s : Q) : Q :=
  2 * eps64 * Qabs y0 + 16 * eps64 * (0.01 * s) + 8 * eta64.

(** *** Rounding, as [SpecFloat] computes it *)

(** A shifted mantissa with its round and sticky bits stands for a number
    between two integers. *)
Definition brackets (r : shr_record) (x : Q) : Prop :=
  let m := inject_Z (shr_m r) in
  match shr_r r, shr_s r with
  | false, false => x == m
  | false, true => m < x /\ x < m + (1 # 2)
  | true, false => x == m + (1 # 2)
  | true, true => m + (1 # 2) < x /\ x < m + 1
  end.

(** [r] is a double within the rounding error of [z >= 0] with sign [s]. *)
Definition rounds (s : bool) (z : Q) (r : spec_float) : Prop :=
  SFfinite r = true /\
  Qabs (SF2Q r - sgn s * z) <= eps64 * z + eta64.

(** ** The WebGL host *)

Inductive ShaderType : Type := VERTEX_SHADER | FRAGMENT_SHADER.
Inductive Wrap : Type := REPEAT | CLAMP_TO_EDGE.
Inductive Filter : Type := NEAREST_MIPMAP_LINEAR | LINEAR.
Inductive GLError : Type := INVALID_VALUE | INVALID_OPERATION.

(** [gl.texParameteri(gl.TEXTURE_2D, pname, value)] for the three parameter
    names the script sets. *)
Inductive TexParam : Type :=
| TEXTURE_WRAP_S (v : Wrap)
| TEXTURE_WRAP_T (v : Wrap)
| TEXTURE_MIN_FILTER (v : Filter).

(** What the host makes of [gl.texImage2D(..., image)]: it takes the pixels;
    or it records a GL error and leaves the texture as it is (an image larger
    than MAX_TEXTURE_SIZE); or the binding throws a SecurityError (an image
    that is not origin-clean, such as one fetched from another origin or from
    a file: URL). *)
Inductive Upload : Type :=
| Taken
| Refused (e : GLError)
| Tainted.

(** A decoded [Image]: what [image.width], [image.height] and the upload read,
    and how the host treats the upload. Both dimensions are [unsigned long]
    in the DOM. *)
Record Image : Type := mkImage {
  width : Z; height : Z; rgba : list Z; upload : Upload
}.

(** The level-0 pixel store of a texture object. *)
Record TexImage : Type := mkTexImage {
  texWidth : Z; texHeight : Z; texData : list Z
}.

(** A texture object. A fresh one has no pixel store, wraps with REPEAT on
    both axes and minifies with NEAREST_MIPMAP_LINEAR (the GL defaults). *)
Record Texture : Type := mkTexture {
  texImage : option TexImage;
  mipmapped : bool;
  wrapS : Wrap;
  wrapT : Wrap;
  minFilter : Filter
}.

Record ShaderObj : Type := mkShader {
  shaderType : ShaderType; shaderSrc : string; compiled : bool
}.

Record ProgramObj : Type := mkProgram {
  attached : list nat; linked : bool
}.

(** The calls with an effect that the script makes on its host, in the order
    it makes them.  A [null] handle is [None].  [DeleteProgram] stands for
    [gl.deleteProgram], which the script never calls; it is listed so that
    this can be said of a log. *)
Inductive Call : Type :=
| Alert (msg : string)
| CreateShader (ty : ShaderType) (id : nat)
| ShaderSource (id : nat) (src : string)
| CompileShader (id : nat)
| DeleteShader (id : nat)
| CreateProgram (id : nat)
| AttachShader (p : nat) (s : option nat)
| LinkProgram (p : nat)
| DeleteProgram (p : nat)
| CreateTexture (id : nat)
| BindTexture (t : option nat)
| TexImage2DPixels (w h : Z) (data : list Z)
| TexImage2DImage (img : Image)
| GenerateMipmap
| TexParameteri (p : TexParam)
| PixelStorei
| ImageSetSrc (url : string)
| InitBuffers
| AddEventListener (name : string)
| RequestAnimationFrame
| Clear
| DrawScene (program : option nat) (texture : nat) (rx ry : Q).

Record GL : Type := mkGL {
  shaders : gmap nat ShaderObj;
  programs : gmap nat ProgramObj;
  textures : gmap nat Texture;
  boundTexture : option nat;
  nextId : nat;
  errors : list GLError;
  log : list Call
}.

Definition emptyGL : GL :=
  {| shaders := ∅; programs := ∅; textures := ∅; boundTexture := None;
     nextId := 0%nat; errors := []; log := [] |}.

(** What the script cannot decide itself. *)
Record Host : Type := mkHost {
  (** does [canvas.getContext("webgl")] return a context *)
  hasWebGL : bool;
  (** COMPILE_STATUS and info log of a source of a given stage *)
  compileStatus : ShaderType -> string -> bool;
  compileLog : ShaderType -> string -> string;
  (** LINK_STATUS of a program, from the shader objects attached to it *)
  linkStatus : list ShaderObj -> bool;
  linkLog : string;
  (** locations in a linked program: -1, resp. null, for a name it lacks *)
  attribLocation : string -> Z;
  uniformLocation : string -> option nat;
  (** whether the binding raises a TypeError for [null] in place of an
      object (otherwise it records INVALID_VALUE and goes on) *)
  nullThrows : bool
}.

(** *** Field updates *)

Definition emit (c : Call) (g : GL) : GL :=
  {| shaders := shaders g; programs := programs g; textures := textures g;
     boundTexture := boundTexture g; nextId := nextId g; errors := errors g;
     log := log g ++ [c] |}.

Definition glRaise (e : GLError) (g : GL) : GL :=
  {| shaders := shaders g; programs := programs g; textures := textures g;
     boundTexture := boundTexture g; nextId := nextId g;
     errors := errors g ++ [e]; log := log g |}.

Definition setShaders (m : gmap nat ShaderObj) (g : GL) : GL :=
  {| shaders := m; programs := programs g; textures := textures g;
     boundTexture := boundTexture g; nextId := nextId g; errors := errors g;
     log := log g |}.

Definition setPrograms (m : gmap nat ProgramObj) (g : GL) : GL :=
  {| shaders := shaders g; programs := m; textures := textures g;
     boundTexture := boundTexture g; nextId := nextId g; errors := errors g;
     log := log g |}.

Definition setTextures (m : gmap nat Texture) (g : GL) : GL :=
  {| shaders := shaders g; programs := programs g; textures := m;
     boundTexture := boundTexture g; nextId := nextId g; errors := errors g;
     log := log g |}.

Definition setBound (t : option nat) (g : GL) : GL :=
  {| shaders := shaders g; programs := programs g; textures := textures g;
     boundTexture := t; nextId := nextId g; errors := errors g;
     log := log g |}.

Definition bumpId (g : GL) : GL :=
  {| shaders := shaders g; programs := programs g; textures := textures g;
     boundTexture := boundTexture g; nextId := S (nextId g);
     errors := errors g; log := log g |}.

(** *** Host calls as computations over [GL] that return or throw *)

Inductive Res (A : Type) : Type :=
| Ok (a : A)
| Throw (e : string).
Arguments Ok {A} a.
Arguments Throw {A} e.

Definition M (A : Type) : Type := GL -> Res A * GL.

Definition bindM {A B : Type} (m : M A) (f : A -> M B) : M B := fun g =>
  match m g with
  | (Ok a, g') => f a g'
  | (Throw e, g') => (Throw e, g')
  end.

#[global] Instance M_ret : MRet M := fun A a g => (Ok a, g).
#[global] Instance M_bind : MBind M := fun A B f m => bindM m f.

Notation "'let*' x ':=' m 'in' k" := (bindM m (fun x => k))
  (at level 10, x name, k at level 200, only parsing).

Definition throw {A : Type} (e : string) : M A := fun g => (Throw e, g).
Definition act (f : GL -> GL) : M unit := fun g => (Ok tt, f g).
Definition call (c : Call) : M unit := act (emit c).
Definition gets {A : Type} (f : GL -> A) : M A := fun g => (Ok (f g), g).

Definition alert (msg : string) : M unit := call (Alert msg).

(** A [null] argument where the binding expects an object. *)
Definition nullArgument {A : Type} (h : Host) (dflt : A) : M A :=
  if nullThrows h then throw "TypeError"
  else act (glRaise INVALID_VALUE) ≫= fun _ => mret dflt.

Definition freshId : M nat := fun g => (Ok (nextId g), bumpId g).

(** *** Shader objects *)

Definition createShader (ty : ShaderType) : M nat :=
  let* id := freshId in
  act (fun g => setShaders (<[id := mkShader ty "" false]> (shaders g)) g);;
  call (CreateShader ty id);;
  mret id.

Definition shaderSource (id : nat) (src : string) : M unit :=
  call (ShaderSource id src);;
  act (fun g =>
    setShaders (alter (fun s => mkShader (shaderType s) src (compiled s)) id
                      (shaders g)) g).

Definition compileShader (h : Host) (id : nat) : M unit :=
  call (CompileShader id);;
  act (fun g =>
    setShaders
      (alter (fun s => mkShader (shaderType s) (shaderSrc s)
                         (compileStatus h (shaderType s) (shaderSrc s)))
             id (shaders g)) g).

(** [gl.getShaderParameter(shader, gl.COMPILE_STATUS)] *)
Definition getShaderParameter (id : nat) : M bool :=
  gets (fun g => match shaders g !! id with
                 | Some s => compiled s
                 | None => false
                 end).

Definition getShaderInfoLog (h : Host) (id : nat) : M string :=
  gets (fun g => match shaders g !! id with
                 | Some s => compileLog h (shaderType s) (shaderSrc s)
                 | None => ""
                 end).

Definition deleteShader (id : nat) : M unit :=
  call (DeleteShader id);;
  act (fun g => setShaders (delete id (shaders g)) g).

(** *** Program objects *)

Definition createProgram : M nat :=
  let* id := freshId in
  act (fun g => setPrograms (<[id := mkProgram [] false]> (programs g)) g);;
  call (CreateProgram id);;
  mret id.

Definition attachShader (h : Host) (p : nat) (s : option nat) : M unit :=
  call (AttachShader p s);;
  match s with
  | None => nullArgument h tt
  | Some id =>
      act (fun g =>
        setPrograms
          (alter (fun o => mkProgram (attached o ++ [id]) (linked o)) p
                 (programs g)) g)
  end.

Definition linkProgram (h : Host) (p : nat) : M unit :=
  call (LinkProgram p);;
  act (fun g =>
    setPrograms
      (alter (fun o => mkProgram (attached o)
                         (linkStatus h (omap (fun id => shaders g !! id)
                                             (attached o))))
             p (programs g)) g).

(** [gl.getProgramParameter(shaderProgram, gl.LINK_STATUS)] *)
Definition getProgramParameter (p : nat) : M bool :=
  gets (fun g => match programs g !! p with
                 | Some o => linked o
                 | None => false
                 end).

Definition getProgramInfoLog (h : Host) (p : nat) : M string :=
  mret (linkLog h).

Definition isLinked (p : nat) (g : GL) : bool :=
  match programs g !! p with
  | Some o => linked o
  | None => false
  end.

Definition getAttribLocation (h : Host) (p : option nat) (name : string)
  : M Z :=
  match p with
  | None => nullArgument h (-1)%Z
  | Some id =>
      let* ok := gets (isLinked id) in
      if ok then mret (attribLocation h name)
      else (act (glRaise INVALID_OPERATION);; mret (-1)%Z)
  end.

Definition getUniformLocation (h : Host) (p : option nat) (name : string)
  : M (option nat) :=
  match p with
  | None => nullArgument h None
  | Some id =>
      let* ok := gets (isLinked id) in
      if ok then mret (uniformLocation h name)
      else (act (glRaise INVALID_OPERATION);; mret None)
  end.

(** *** Texture objects *)

Definition defaultTexture : Texture :=
  {| texImage := None; mipmapped := false;
     wrapS := REPEAT; wrapT := REPEAT; minFilter := NEAREST_MIPMAP_LINEAR |}.

Definition createTexture : M nat :=
  let* id := freshId in
  act (fun g => setTextures (<[id := defaultTexture]> (textures g)) g);;
  call (CreateTexture id);;
  mret id.

(** [gl.bindTexture(gl.TEXTURE_2D, texture)]: binding an object that is not a
    live texture is an INVALID_OPERATION and leaves the binding as it was. *)
Definition bindTexture (t : option nat) : M unit :=
  call (BindTexture t);;
  match t with
  | None => act (setBound None)
  | Some id =>
      let* live := gets (fun g => bool_decide (is_Some (textures g !! id))) in
      if live then act (setBound (Some id))
      else act (glRaise INVALID_OPERATION)
  end.

(** An update of the texture bound to TEXTURE_2D. *)
Definition onBound (f : Texture -> Texture) : M unit :=
  let* b := gets boundTexture in
  match b with
  | Some id => act (fun g => setTextures (alter f id (textures g)) g)
  | None => act (glRaise INVALID_OPERATION)
  end.

Definition withImage (i : TexImage) (t : Texture) : Texture :=
  {| texImage := Some i; mipmapped := mipmapped t;
     wrapS := wrapS t; wrapT := wrapT t; minFilter := minFilter t |}.

Definition withMipmaps (t : Texture) : Texture :=
  {| texImage := texImage t; mipmapped := true;
     wrapS := wrapS t; wrapT := wrapT t; minFilter := minFilter t |}.

Definition withParam (p : TexParam) (t : Texture) : Texture :=
  match p with
  | TEXTURE_WRAP_S v =>
      {| texImage := texImage t; mipmapped := mipmapped t;
         wrapS := v; wrapT := wrapT t; minFilter := minFilter t |}
  | TEXTURE_WRAP_T v =>
      {| texImage := texImage t; mipmapped := mipmapped t;
         wrapS := wrapS t; wrapT := v; minFilter := minFilter t |}
  | TEXTURE_MIN_FILTER v =>
      {| texImage := texImage t; mipmapped := mipmapped t;
         wrapS := wrapS t; wrapT := wrapT t; minFilter := v |}
  end.

(** [gl.texImage2D(TEXTURE_2D, level, internalFormat, width, height, border,
    srcFormat, srcType, pixel)] *)
Definition texImage2DPixels (w h : Z) (data : list Z) : M unit :=
  call (TexImage2DPixels w h data);;
  onBound (withImage (mkTexImage w h data)).

(** [gl.texImage2D(TEXTURE_2D, level, internalFormat, srcFormat, srcType,
    image)] *)
Definition texImage2DImage (img : Image) : M unit :=
  call (TexImage2DImage img);;
  match upload img with
  | Taken => onBound (withImage (mkTexImage (width img) (height img) (rgba img)))
  | Refused e => act (glRaise e)
  | Tainted => throw "SecurityError"
  end.

Definition generateMipmap : M unit :=
  call GenerateMipmap;;
  onBound withMipmaps.

Definition texParameteri (p : TexParam) : M unit :=
  call (TexParameteri p);;
  onBound (withParam p).

(** ** The script's own functions *)

(** [loadShader(gl, type, source)] (lines 125-135) *)
Definition loadShader (h : Host) (type : ShaderType) (source : string)
  : M (option nat) :=
  let* shader := createShader type in
  shaderSource shader source;;
  compileShader h shader;;
  let* status := getShaderParameter shader in
  if negb status then
    let* info := getShaderInfoLog h shader in
    alert ("An error occurred compiling the shaders: " +:+ info);;
    deleteShader shader;;
    mret None
  else mret (Some shader).

(** [initShaderProgram(gl, vsSource, fsSource)] (lines 110-122) *)
Definition initShaderProgram (h : Host) (vsSource fsSource : string)
  : M (option nat) :=
  let* vertexShader := loadShader h VERTEX_SHADER vsSource in
  let* fragmentShader := loadShader h FRAGMENT_SHADER fsSource in
  let* shaderProgram := createProgram in
  attachShader h shaderProgram vertexShader;;
  attachShader h shaderProgram fragmentShader;;
  linkProgram h shaderProgram;;
  let* status := getProgramParameter shaderProgram in
  if negb status then
    let* info := getProgramInfoLog h shaderProgram in
    alert ("Unable to initialize the shader program: " +:+ info);;
    mret None
  else mret (Some shaderProgram).

(** JavaScript's ToInt32, applied to the operands of [&]. *)
Definition toInt32 (z : Z) : Z := ((z + 2 ^ 31) mod 2 ^ 32 - 2 ^ 31)%Z.

(** [function isPowerOf2(value) { return (value & (value - 1)) === 0; }] *)
Definition isPowerOf2 (value : Z) : bool :=
  (Z.land (toInt32 value) (toInt32 (value - 1)) =? 0)%Z.

(** The placeholder of line 142: [new Uint8Array([0, 0, 255, 255])]. *)
Definition pixel : list Z := [0; 0; 255; 255]%Z.

(** [loadTexture(gl, url)] (lines 138-158), up to its [return]. The callback
    it installs is [imageOnload]; the host runs it if and when the image has
    been decoded. *)
Definition loadTexture (url : string) : M nat :=
  let* texture := createTexture in
  bindTexture (Some texture);;
  texImage2DPixels 1 1 pixel;;
  call (ImageSetSrc url);;
  mret texture.

(** [image.onload] (lines 146-155), for the texture [loadTexture] created.
    An exception of [texImage2D] ends the callback there. *)
Definition imageOnload (texture : nat) (image : Image) : M unit :=
  bindTexture (Some texture);;
  texImage2DImage image;;
  if isPowerOf2 (width image) && isPowerOf2 (height image)
  then generateMipmap
  else
    texParameteri (TEXTURE_WRAP_S CLAMP_TO_EDGE);;
    texParameteri (TEXTURE_WRAP_T CLAMP_TO_EDGE);;
    texParameteri (TEXTURE_MIN_FILTER LINEAR).

Definition vsSource : string := "
    attribute vec4 aVertexPosition;
    attribute vec3 aVertexNormal;
    attribute vec2 aTextureCoord;

    uniform mat4 uNormalMatrix;
    uniform mat4 uModelViewMatrix;
    uniform mat4 uProjectionMatrix;

    varying highp vec2 vTextureCoord;
    varying highp vec3 vLighting;

    void main(void) {
      gl_Position = uProjectionMatrix * uModelViewMatrix * aVertexPosition;
      vTextureCoord = aTextureCoord;

      highp vec3 ambientLight = vec3(0.3, 0.3, 0.3);
      highp vec3 directionalLightColor = vec3(1, 1, 1);
      highp vec3 directionalVector = normalize(vec3(0.85, 0.8, 0.75));

      highp vec4 transformedNormal = uNormalMatrix * vec4(aVertexNormal, 1.0);
      highp float directional = max(dot(transformedNormal.xyz, directionalVector), 0.0);
      vLighting = ambientLight + (directionalLightColor * directional);
    }
  ".

Definition fsSource : string := "
    varying highp vec2 vTextureCoord;
    varying highp vec3 vLighting;

    uniform sampler2D uSampler;

    void main(void) {
      highp vec4 texelColor = texture2D(uSampler, vTextureCoord);
      gl_FragColor = vec4(texelColor.rgb * vLighting, texelColor.a);
    }
  ".

Record AttribLocations : Type := mkAttribs {
  vertexPosition : Z; vertexNormal : Z; textureCoord : Z
}.

Record UniformLocations : Type := mkUniforms {
  projectionMatrix : option nat;
  modelViewMatrix : option nat;
  normalMatrix : option nat;
  uSampler : option nat
}.

Record ProgramInfo : Type := mkProgramInfo {
  program : option nat;
  attribLocations : AttribLocations;
  uniformLocations : UniformLocations
}.

(** [const programInfo = { ... }] (lines 55-68) *)
Definition resolveProgramInfo (h : Host) (shaderProgram : option nat)
  : M ProgramInfo :=
  let* vp := getAttribLocation h shaderProgram "aVertexPosition" in
  let* vn := getAttribLocation h shaderProgram "aVertexNormal" in
  let* tc := getAttribLocation h shaderProgram "aTextureCoord" in
  let* pm := getUniformLocation h shaderProgram "uProjectionMatrix" in
  let* mv := getUniformLocation h shaderProgram "uModelViewMatrix" in
  let* nm := getUniformLocation h shaderProgram "uNormalMatrix" in
  let* us := getUniformLocation h shaderProgram "uSampler" in
  mret {| program := shaderProgram;
          attribLocations := mkAttribs vp vn tc;
          uniformLocations := mkUniforms pm mv nm us |}.

(** What the callbacks registered by [main] close over. *)
Record App : Type := mkApp { programInfo : ProgramInfo; texture : nat }.

(** [main()] (lines 9-107) up to its return; [None] is the early [return]
    of line 12. [initBuffers] lives in another module and is kept as a call. *)
Definition main (h : Host) : M (option App) :=
  if negb (hasWebGL h) then
    alert "Unable to initialize WebGL.";; mret None
  else
    let* shaderProgram := initShaderProgram h vsSource fsSource in
    let* info := resolveProgramInfo h shaderProgram in
    call InitBuffers;;
    let* texture := loadTexture "images/cubetexture.png" in
    call PixelStorei;;
    call (AddEventListener "mousedown");;
    call (AddEventListener "mouseup");;
    call (AddEventListener "mousemove");;
    call (AddEventListener "contextmenu");;
    call RequestAnimationFrame;;
    mret (Some (mkApp info texture)).

(** ** The running page *)

(** The module-level variables, [then] of line 91, what the callbacks close
    over, and the host. *)
Record World : Type := mkWorld {
  globals : Globals;
  then_ : Q;
  app : App;
  gl : GL
}.

(** Modelled from the spec: [drawScene] of draw-scene.js is not under src/.
    Section 4.5 has it bind the pipeline, the buffers and the texture and issue
    one indexed draw. It is kept as one logged call that carries the program,
    the texture and the two angles [render] passes. *)
Definition drawScene (info : ProgramInfo) (texture : nat) (rx ry : Q) : GL -> GL :=
  emit (DrawScene (program info) texture rx ry).

(** [render(now)] (lines 92-105) *)
Definition render (now : Q) (w : World) : World :=
  let now := now * 0.001 in
  let deltaTime := now - then_ w in
  let g1 := emit Clear (gl w) in
  let gs := renderGlobals (globals w) in
  let g2 := drawScene (programInfo (app w)) (texture (app w))
                      (rotationX gs) (rotationY gs) g1 in
  let g3 := emit RequestAnimationFrame g2 in
  {| globals := gs; then_ := now; app := app w; gl := g3 |}.

Definition onGlobals (f : Globals -> Globals) (w : World) : World :=
  {| globals := f (globals w); then_ := then_ w; app := app w; gl := gl w |}.

(** What the host delivers to the callbacks [main] registered. *)
Inductive Event : Type :=
| MouseDown (e : MouseEvent)
| MouseUp
| MouseMove (e : MouseEvent)
| ContextMenu
| Frame (now : Q)
| ImageLoaded (image : Image).

Definition dispatch (w : World) (ev : Event) : World :=
  match ev with
  | MouseDown e => onGlobals (onMouseDown e) w
  | MouseUp => onGlobals onMouseUp w
  | MouseMove e => onGlobals (onMouseMove e) w
  | ContextMenu => w
  | Frame now => render now w
  | ImageLoaded image =>
      (* an exception that escapes the callback is reported by the host and
         the page goes on *)
      {| globals := globals w; then_ := then_ w; app := app w;
         gl := snd (imageOnload (texture (app w)) image (gl w)) |}
  end.

Definition dispatchAll (w : World) (evs : list Event) : World :=
  foldl dispatch w evs.

(** The page from a fresh host: the module body runs [main()]; callbacks run
    only if [main] got as far as registering them. *)
Definition run (h : Host) (evs : list Event) : Res (option App) * GL :=
  match main h emptyGL with
  | (Ok (Some a), g) =>
      (Ok (Some a), gl (dispatchAll (mkWorld initialGlobals 0 a g) evs))
  | r => r
  end.

(** [n] frame ticks in a row, at any timestamps. *)
Definition frames (nows : list Q) (w : World) : World :=
  dispatchAll w (map Frame nows).

(** Pointer moves in a row. *)
Definition moves (es : list MouseEvent) (g : Globals) : Globals :=
  foldl (fun g e => onMouseMove e g) g es.

(** [v] is a power of two. *)
Definition powerOfTwo (v : Z) : Prop := exists k : Z, (0 <= k)%Z /\ v = (2 ^ k)%Z.

(** A page in state [g] whose set-up resolved nothing, on an empty host:
    a concrete world for the examples. *)
Definition worldOf (g : Globals) : World :=
  {| globals := g; then_ := 0;
     app := mkApp (mkProgramInfo None (mkAttribs (-1) (-1) (-1))
                                 (mkUniforms None None None None)) 0;
     gl := emptyGL |}.

(** ** What the set-up comes to

    Closed descriptions of the result, the objects and the calls of
    [loadShader], [initShaderProgram], the location look-ups and [main];
    they are proved equal to the functions above and make the traces
    readable. *)

Definition compileMessage (h : Host) (ty : ShaderType) (src : string) : string :=
  "An error occurred compiling the shaders: " +:+ compileLog h ty src.

Definition linkMessage (h : Host) : string :=
  "Unable to initialize the shader program: " +:+ linkLog h.

Definition loadShaderCalls (h : Host) (ty : ShaderType) (src : string) (id : nat)
  : list Call :=
  [CreateShader ty id; ShaderSource id src; CompileShader id]
  ++ (if compileStatus h ty src then []
      else [Alert (compileMessage h ty src); DeleteShader id]).

Definition loadShaderResult (h : Host) (ty : ShaderType) (src : string) (id : nat)
  : option nat :=
  if compileStatus h ty src then Some id else None.

Definition loadShaderObjects (h : Host) (ty : ShaderType) (src : string) (id : nat)
  (m : gmap nat ShaderObj) : gmap nat ShaderObj :=
  if compileStatus h ty src then <[id := mkShader ty src true]> m
  else delete id m.

Definition attachedOf (s : option nat) : list nat :=
  match s with Some id => [id] | None => [] end.

Definition nullErrors (s : option nat) : list GLError :=
  match s with Some _ => [] | None => [INVALID_VALUE] end.

(** Does [attachShader] throw on this argument. *)
Definition rejects (h : Host) (s : option nat) : bool :=
  match s with Some _ => false | None => nullThrows h end.

Definition initShaderProgramOutcome (h : Host) (vs fs : string) (g : GL)
  : Res (option nat) * GL :=
  let n := nextId g in
  let p := S (S n) in
  let sv := loadShaderResult h VERTEX_SHADER vs n in
  let sf := loadShaderResult h FRAGMENT_SHADER fs (S n) in
  let sh := loadShaderObjects h FRAGMENT_SHADER fs (S n)
              (loadShaderObjects h VERTEX_SHADER vs n (shaders g)) in
  let pre := log g ++ loadShaderCalls h VERTEX_SHADER vs n
                   ++ loadShaderCalls h FRAGMENT_SHADER fs (S n)
                   ++ [CreateProgram p; AttachShader p sv] in
  let state pr er lg :=
    {| shaders := sh; programs := <[p := pr]> (programs g);
       textures := textures g; boundTexture := boundTexture g;
       nextId := S p; errors := errors g ++ er; log := lg |} in
  if rejects h sv then
    (Throw "TypeError", state (mkProgram [] false) [] pre)
  else if rejects h sf then
    (Throw "TypeError",
     state (mkProgram (attachedOf sv) false) (nullErrors sv)
           (pre ++ [AttachShader p sf]))
  else
    let att := attachedOf sv ++ attachedOf sf in
    let ok := linkStatus h (omap (fun id => sh !! id) att) in
    (Ok (if ok then Some p else None),
     state (mkProgram att ok) (nullErrors sv ++ nullErrors sf)
           (pre ++ [AttachShader p sf; LinkProgram p]
                ++ (if ok then [] else [Alert (linkMessage h)]))).

(** The two shader objects of a set-up in which both stages compiled. *)
Definition compiledStages : list ShaderObj :=
  [mkShader VERTEX_SHADER vsSource true; mkShader FRAGMENT_SHADER fsSource true].

Definition compiledCalls : list Call :=
  [CreateShader VERTEX_SHADER 0; ShaderSource 0 vsSource; CompileShader 0;
   CreateShader FRAGMENT_SHADER 1; ShaderSource 1 fsSource; CompileShader 1;
   CreateProgram 2; AttachShader 2 (Some 0%nat); AttachShader 2 (Some 1%nat);
   LinkProgram 2].

(** The locations a look-up that fails hands back. *)
Definition noLocations (p : option nat) : ProgramInfo :=
  {| program := p;
     attribLocations := mkAttribs (-1) (-1) (-1);
     uniformLocations := mkUniforms None None None None |}.

(** The locations the host reports for the seven names. *)
Definition hostLocations (h : Host) (p : option nat) : ProgramInfo :=
  {| program := p;
     attribLocations :=
       mkAttribs (attribLocation h "aVertexPosition")
                 (attribLocation h "aVertexNormal")
                 (attribLocation h "aTextureCoord");
     uniformLocations :=
       mkUniforms (uniformLocation h "uProjectionMatrix")
                  (uniformLocation h "uModelViewMatrix")
                  (uniformLocation h "uNormalMatrix")
                  (uniformLocation h "uSampler") |}.

Definition resolveOutcome (h : Host) (sp : option nat) (g : GL)
  : Res ProgramInfo * GL :=
  match sp with
  | None =>
      if nullThrows h then (Throw "TypeError", g)
      else (Ok (noLocations None), Nat.iter 7 (glRaise INVALID_VALUE) g)
  | Some p =>
      if isLinked p g then (Ok (hostLocations h (Some p)), g)
      else (Ok (noLocations (Some p)), Nat.iter 7 (glRaise INVALID_OPERATION) g)
  end.

(** The texture as [loadTexture] leaves it. *)
Definition placeholder : Texture :=
  withImage (mkTexImage 1 1 pixel) defaultTexture.

(** Lines 70-106 of [main], from the state the look-ups left. *)
Definition pageSetup (g : GL) : GL :=
  let t := nextId g in
  {| shaders := shaders g; programs := programs g;
     textures := <[t := placeholder]> (textures g);
     boundTexture := Some t; nextId := S t; errors := errors g;
     log := log g ++ [InitBuffers; CreateTexture t; BindTexture (Some t);
                      TexImage2DPixels 1 1 pixel;
                      ImageSetSrc "images/cubetexture.png"; PixelStorei;
                      AddEventListener "mousedown"; AddEventListener "mouseup";
                      AddEventListener "mousemove";
                      AddEventListener "contextmenu"; RequestAnimationFrame] |}.

Definition mainOutcome (h : Host) : Res (option App) * GL :=
  match initShaderProgramOutcome h vsSource fsSource emptyGL with
  | (Ok sp, g1) =>
      match resolveOutcome h sp g1 with
      | (Ok info, g2) => (Ok (Some (mkApp info (nextId g2))), pageSetup g2)
      | (Throw e, g2) => (Throw e, g2)
      end
  | (Throw e, g1) => (Throw e, g1)
  end.

(** The calls of lines 149-154. *)
Definition policyCalls (img : Image) : list Call :=
  if isPowerOf2 (width img) && isPowerOf2 (height img)
  then [GenerateMipmap]
  else [TexParameteri (TEXTURE_WRAP_S CLAMP_TO_EDGE);
        TexParameteri (TEXTURE_WRAP_T CLAMP_TO_EDGE);
        TexParameteri (TEXTURE_MIN_FILTER LINEAR)].

(** The calls of [image.onload]: none after an upload that throws. *)
Definition onloadCalls (t : nat) (img : Image) : list Call :=
  [BindTexture (Some t); TexImage2DImage img]
  ++ match upload img with
     | Tainted => []
     | _ => policyCalls img
     end.

(** The texture after the upload of line 148. *)
Definition uploaded (img : Image) (tex : Texture) : Texture :=
  match upload img with
  | Taken => withImage (mkTexImage (width img) (height img) (rgba img)) tex
  | _ => tex
  end.

(** The texture after lines 149-154. *)
Definition policy (img : Image) (tex : Texture) : Texture :=
  if isPowerOf2 (width img) && isPowerOf2 (height img) then withMipmaps tex
  else withParam (TEXTURE_MIN_FILTER LINEAR)
         (withParam (TEXTURE_WRAP_T CLAMP_TO_EDGE)
            (withParam (TEXTURE_WRAP_S CLAMP_TO_EDGE) tex)).

Definition uploadErrors (img : Image) : list GLError :=
  match upload img with Refused e => [e] | _ => [] end.

(** [image.onload] for a live texture [t]. *)
Definition imageOnloadOutcome (t : nat) (img : Image) (g : GL) : Res unit * GL :=
  (match upload img with Tainted => Throw "SecurityError" | _ => Ok tt end,
   {| shaders := shaders g; programs := programs g;
      textures :=
        match upload img with
        | Tainted => textures g
        | _ => alter (fun tex => policy img (uploaded img tex)) t (textures g)
        end;
      boundTexture := Some t; nextId := nextId g;
      errors := errors g ++ uploadErrors img;
      log := log g ++ onloadCalls t img |}).

(** The calls one event makes. *)
Definition eventCalls (w : World) (ev : Event) : list Call :=
  match ev with
  | Frame now =>
      [Clear;
       DrawScene (program (programInfo (app w))) (texture (app w))
                 (rotationX (renderGlobals (globals w)))
                 (rotationY (renderGlobals (globals w)));
       RequestAnimationFrame]
  | ImageLoaded img => onloadCalls (texture (app w)) img
  | _ => []
  end.

(** Calls that only the callbacks make. *)
Definition isEventCall (c : Call) : bool :=
  match c with
  | Clear | DrawScene _ _ _ _ | RequestAnimationFrame | BindTexture _
  | TexImage2DImage _ | GenerateMipmap | TexParameteri _ => true
  | _ => false
  end.

(** Calls that only lines 70-106 of [main] make. *)
Definition isSetupCall (c : Call) : bool :=
  match c with
  | InitBuffers | CreateTexture _ | BindTexture _ | TexImage2DPixels _ _ _
  | ImageSetSrc _ | PixelStorei | AddEventListener _
  | RequestAnimationFrame => true
  | _ => false
  end.

Definition isAlert (c : Call) : bool :=
  match c with Alert _ => true | _ => false end.

Definition isDraw (c : Call) : bool :=
  match c with DrawScene _ _ _ _ => true | _ => false end.

Definition isLink (c : Call) : bool :=
  match c with LinkProgram _ => true | _ => false end.

Definition isDeleteProgram (c : Call) : bool :=
  match c with DeleteProgram _ => true | _ => false end.

(** ** Concrete states and hosts for the examples *)

(** Released with pitch velocity 0.1 and yaw velocity 0. *)
Definition flick : Globals :=
  {| dragging := false; lastMouseX := 150; lastMouseY := 120;
     rotationX := 0.2; rotationY := 0.5; velocityX := 0.1; velocityY := 0 |}.


(** The pointer went down at (100, 100). *)
Definition grabbed : Globals := onMouseDown (mkMouse 100 100) initialGlobals.

(** The same states in double precision; one released at rest with a pitch
    velocity of nine subnormal steps (4.4e-323), which the multiplication by
    0.95 rounds back to itself; and one grabbed at (100, 100) with the yaw at
    0.7000000000000001. *)
Definition double_flick : Double.Globals :=
  {| Double.dragging := false;
     Double.lastMouseX := 150; Double.lastMouseY := 120;
     Double.rotationX := 0.2; Double.rotationY := 0.5;
     Double.velocityX := 0.1; Double.velocityY := 0 |}%float.

Definition double_stalled : Double.Globals :=
  {| Double.dragging := false;
     Double.lastMouseX := 0; Double.lastMouseY := 0;
     Double.rotationX := 0; Double.rotationY := 0;
     Double.velocityX := 0x9p-1074; Double.velocityY := 0 |}%float.

Definition double_grabbed : Double.Globals :=
  Double.onMouseDown (Double.mkMouse 100 100) Double.initialGlobals.

Definition double_turned : Double.Globals :=
  {| Double.dragging := true;
     Double.lastMouseX := 100; Double.lastMouseY := 100;
     Double.rotationX := 0; Double.rotationY := 0.7000000000000001;
     Double.velocityX := 0; Double.velocityY := 0 |}%float.

(** What arrives between a press and a release: two moves, a frame after
    each. *)
Definition double_drag : list Double.Event :=
  [Double.MouseMove (Double.mkMouse 110 100); Double.Frame 16;
   Double.MouseMove (Double.mkMouse 130 90); Double.Frame 33]%float.

(** The stage sources [main] passes to [initShaderProgram]. *)
Definition sourceOf (ty : ShaderType) : string :=
  match ty with
  | VERTEX_SHADER => vsSource
  | FRAGMENT_SHADER => fsSource
  end.

(** The texture object has a level-0 pixel store. *)
Definition textureReady (t : nat) (g : GL) : Prop :=
  exists tex i, textures g !! t = Some tex /\ texImage tex = Some i.

(** A host on which everything succeeds: both stages compile, a program with
    one stage of each kind links, and the seven names resolve. *)
Definition workingHost : Host :=
  {| hasWebGL := true;
     compileStatus := fun _ _ => true;
     compileLog := fun _ _ => "";
     linkStatus := fun l => bool_decide (length l = 2%nat);
     linkLog := "no fragment shader";
     attribLocation := fun name =>
       if String.eqb name "aVertexPosition" then 0%Z
       else if String.eqb name "aVertexNormal" then 1%Z
       else if String.eqb name "aTextureCoord" then 2%Z
       else (-1)%Z;
     uniformLocation := fun name =>
       if String.eqb name "uProjectionMatrix" then Some 0%nat
       else if String.eqb name "uModelViewMatrix" then Some 1%nat
       else if String.eqb name "uNormalMatrix" then Some 2%nat
       else if String.eqb name "uSampler" then Some 3%nat
       else None;
     nullThrows := true |}.

(** A host whose fragment stage does not compile (say, no [highp] support in
    fragment shaders); [strict] says how its binding treats [null]. *)
Definition noFragmentHost (strict : bool) : Host :=
  {| hasWebGL := true;
     compileStatus := fun ty _ =>
       match ty with VERTEX_SHADER => true | FRAGMENT_SHADER => false end;
     compileLog := fun _ _ => "ERROR: 0:2: 'highp' : precision is not supported";
     linkStatus := linkStatus workingHost;
     linkLog := linkLog workingHost;
     attribLocation := attribLocation workingHost;
     uniformLocation := uniformLocation workingHost;
     nullThrows := strict |}.

(** A host on which both stages compile and the link fails. *)
Definition noLinkHost (strict : bool) : Host :=
  {| hasWebGL := true;
     compileStatus := fun _ _ => true;
     compileLog := fun _ _ => "";
     linkStatus := fun _ => false;
     linkLog := "varyings do not match";
     attribLocation := attribLocation workingHost;
     uniformLocation := uniformLocation workingHost;
     nullThrows := strict |}.

(** A host whose linked program exposes neither [aVertexNormal] nor
    [uSampler]. *)
Definition missingNamesHost : Host :=
  {| hasWebGL := true;
     compileStatus := fun _ _ => true;
     compileLog := fun _ _ => "";
     linkStatus := fun _ => true;
     linkLog := "";
     attribLocation := fun name =>
       if String.eqb name "aVertexPosition" then 0%Z
       else if String.eqb name "aTextureCoord" then 1%Z
       else (-1)%Z;
     uniformLocation := fun name =>
       if String.eqb name "uProjectionMatrix" then Some 0%nat
       else if String.eqb name "uModelViewMatrix" then Some 1%nat
       else if String.eqb name "uNormalMatrix" then Some 2%nat
       else None;
     nullThrows := true |}.

(** ** Notions for the further properties *)

(** Events that neither press nor release the button. *)
Definition heldEvent (ev : Event) : bool :=
  match ev with MouseDown _ | MouseUp => false | _ => true end.

(** Events that do not touch the pointer at all. *)
Definition quietEvent (ev : Event) : bool :=
  match ev with Frame _ | ContextMenu | ImageLoaded _ => true | _ => false end.

(** The pointer position last reported by a move, [p] if there is none. *)
Definition pointerAfter (p : MouseEvent) (evs : list Event) : MouseEvent :=
  foldl (fun p ev => match ev with MouseMove e => e | _ => p end) p evs.

Definition recorded (g : Globals) : MouseEvent :=
  mkMouse (lastMouseX g) (lastMouseY g).

(** How many calls of a kind a log holds. *)
Fixpoint countCalls (p : Call -> bool) (l : list Call) : nat :=
  match l with
  | [] => 0
  | c :: l' => (if p c then 1 else 0) + countCalls p l'
  end.

Definition isFrameRequest (c : Call) : bool :=
  match c with RequestAnimationFrame => true | _ => false end.

Definition isFrame (ev : Event) : bool :=
  match ev with Frame _ => true | _ => false end.

Fixpoint countFrames (evs : list Event) : nat :=
  match evs with
  | [] => 0
  | ev :: evs' => (if isFrame ev then 1 else 0) + countFrames evs'
  end.

(** Calls that only [initShaderProgram] and [loadShader] make. *)
Definition isShaderCall (c : Call) : bool :=
  match c with
  | Alert _ | CreateShader _ _ | ShaderSource _ _ | CompileShader _
  | DeleteShader _ | CreateProgram _ | AttachShader _ _ | LinkProgram _ => true
  | _ => false
  end.

(** A host without WebGL. *)
Definition noContextHost : Host :=
  {| hasWebGL := false;
     compileStatus := compileStatus workingHost;
     compileLog := compileLog workingHost;
     linkStatus := linkStatus workingHost;
     linkLog := linkLog workingHost;
     attribLocation := attribLocation workingHost;
     uniformLocation := uniformLocation workingHost;
     nullThrows := true |}.

(** A short session: a drag with two frames in it, then the image arrives. *)
Definition session : list Event :=
  [Frame 16; MouseDown (mkMouse 100 100); MouseMove (mkMouse 150 120);
   Frame 33; MouseUp; ImageLoaded (mkImage 256 256 [] Taken); Frame 50].

(** * Tactics *)


(** The operations of [SpecFloat] are Corelib's; the arithmetic tactics know
    the Standard Library's names for them. *)
Ltac stdlib_Z :=
  change IntDef.Z.sub with Z.sub in *;
  change IntDef.Z.max with Z.max in *;
  change IntDef.Z.min with Z.min in *;
  change IntDef.Z.leb with Z.leb in *;
  change IntDef.Z.opp with Z.opp in *.

(** Unfold the plumbing of [M]. *)
Ltac run_m :=
  unfold mbind, M_bind, mret, M_ret, bindM, call, act, gets, alert;
  cbn beta iota.

(** Project out of nested field updates. *)
Ltac gl_simpl :=
  cbn [shaders programs textures boundTexture nextId errors log
       emit glRaise setShaders setPrograms setTextures setBound bumpId fst snd].

(** Membership in an explicit list of calls. *)
Ltac mem :=
  cbn [In Datatypes.app]; repeat first [left; reflexivity | right].

(** A property of every member of an explicit list of calls. *)
Ltac each_member :=
  let c := fresh "c" in
  let H := fresh "H" in
  intros c H; cbn [In Datatypes.app] in H;
  repeat (destruct H as [<-|H]; [try (split; reflexivity); try reflexivity|]);
  try contradiction.

(** * Properties *)

(** Two host states with the same fields are the same. *)
Lemma GL_ext (a b : GL) :
  shaders a = shaders b -> programs a = programs b ->
  textures a = textures b -> boundTexture a = boundTexture b ->
  nextId a = nextId b -> errors a = errors b -> log a = log b ->
  a = b.
Proof. destruct a, b. cbn. intros. subst. reflexivity. Qed.

(** Compare a result and a state field by field. *)
Ltac gl_eq :=
  first
    [ reflexivity
    | f_equal; try reflexivity;
      try (apply GL_ext; gl_simpl; rewrite <- ?app_assoc, ?app_nil_r;
           try reflexivity) ].


(** ** Rotation state: frame ticks *)

Lemma globals_render (now : Q) (w : World) :
  globals (render now w) = renderGlobals (globals w).
Proof. reflexivity. Qed.

Lemma globals_frames (nows : list Q) (w : World) :
  globals (frames nows w) = Nat.iter (length nows) renderGlobals (globals w).
Proof.
  unfold frames, dispatchAll. revert w.
  induction nows as [|now nows IH]; intros w; [reflexivity|].
  cbn [map foldl length]. rewrite IH. cbn [dispatch].
  rewrite globals_render. symmetry. apply Nat.iter_succ_r.
Qed.




Lemma friction_pow_succ (n : nat) :
  friction ^ Z.of_nat (S n) == friction ^ Z.of_nat n * friction.
Proof.
  rewrite Nat2Z.inj_succ, <- Z.add_1_r.
  rewrite Qpower_plus by (unfold friction; lra).
  reflexivity.
Qed.

Lemma friction_pow_pos (n : nat) : 0 < friction ^ Z.of_nat n.
Proof.
  apply Qpower_0_lt. unfold friction. lra.
Qed.



(** Bernoulli's bound for the friction coefficient: 0.95^n <= 19 / (19 + n). *)
Lemma friction_pow_bound (n : nat) :
  friction ^ Z.of_nat n * (19 + inject_Z (Z.of_nat n)) <= 19.
Proof.
  induction n as [|n IH].
  - change (friction ^ Z.of_nat 0) with 1. change (inject_Z (Z.of_nat 0)) with 0. lra.
  - rewrite friction_pow_succ.
    rewrite Nat2Z.inj_succ, <- Z.add_1_r, inject_Z_plus.
    pose proof (friction_pow_pos n) as Hp.
    assert (Hx : 0 <= inject_Z (Z.of_nat n)).
    { change 0 with (inject_Z 0). rewrite <- Zle_Qle. lia. }
    set (p := friction ^ Z.of_nat n) in *.
    set (x := inject_Z (Z.of_nat n)) in *.
    assert (Hpx : 0 <= p * x) by (apply Qmult_le_0_compat; lra).
    unfold friction. change (inject_Z 1) with 1.
    lra.
Qed.

Lemma friction_pow_small (d : Q) :
  0 < d -> exists N : nat, forall n : nat, (N <= n)%nat -> friction ^ Z.of_nat n < d.
Proof.
  intros Hd. exists (Z.to_nat (Qceiling (19 / d))). intros n Hn.
  pose proof (friction_pow_bound n) as Hb.
  pose proof (friction_pow_pos n) as Hp.
  assert (Hx : 19 / d <= inject_Z (Z.of_nat n)).
  { eapply Qle_trans; [apply Qle_ceiling|]. rewrite <- Zle_Qle. lia. }
  assert (Hx0 : 0 <= inject_Z (Z.of_nat n)).
  { change 0 with (inject_Z 0). rewrite <- Zle_Qle. lia. }
  assert (Hdx : 19 <= d * inject_Z (Z.of_nat n)).
  { assert (E : d * (19 / d) == 19) by (field; lra).
    rewrite <- E. apply Qmult_le_l; assumption. }
  set (p := friction ^ Z.of_nat n) in *.
  set (x := inject_Z (Z.of_nat n)) in *.
  destruct (Qlt_le_dec p d) as [|Hge]; [assumption|exfalso].
  assert (H1 : d * (19 + x) <= p * (19 + x)).
  { apply Qmult_le_compat_r; lra. }
  lra.
Qed.

(** The partial sums of the decay tend to [a + v / (1 - friction)]. *)
Lemma geometric_limit (a v eps : Q) :
  0 < eps ->
  exists N : nat, forall n : nat, (N <= n)%nat ->
    Qabs (a + v * (1 - friction ^ Z.of_nat n) / (1 - friction)
          - (a + v / (1 - friction))) < eps.
Proof.
  intros Heps.
  set (m := Qabs v).
  assert (Hm : 0 <= m) by apply Qabs_nonneg.
  assert (Hv1 : v <= m) by apply Qle_Qabs.
  assert (Hv2 : - m <= v).
  { unfold m. rewrite <- (Qabs_opp v).
    pose proof (Qle_Qabs (- v)). lra. }
  destruct (friction_pow_small (eps / (20 * m + 1))) as [N HN].
  { apply Qlt_shift_div_l; lra. }
  exists N. intros n Hn. specialize (HN n Hn).
  pose proof (friction_pow_pos n) as Hp.
  set (p := friction ^ Z.of_nat n) in *.
  assert (E : a + v * (1 - p) / (1 - friction) - (a + v / (1 - friction))
              == - (20 * (v * p))).
  { unfold friction. field. }
  rewrite E.
  assert (H1 : v * p <= m * p) by (apply Qmult_le_compat_r; lra).
  assert (H2 : (- m) * p <= v * p) by (apply Qmult_le_compat_r; lra).
  assert (H3 : (20 * m + 1) * p < (20 * m + 1) * (eps / (20 * m + 1))).
  { apply Qmult_lt_l; lra. }
  assert (E3 : (20 * m + 1) * (eps / (20 * m + 1)) == eps) by (field; lra).
  rewrite E3 in H3.
  assert (Hmp : 0 <= m * p) by (apply Qmult_le_0_compat; lra).
  apply Qabs_Qlt_condition. split; lra.
Qed.

(** C8. A frame tick while dragging applies no decay step: the angles, the
    angular velocities, the recorded pointer position and the flag are left
    as they were (the whole of the module-level state is), and so is what the
    callbacks close over; only [then] is set to the tick's timestamp in
    seconds. *)
Theorem dragging_tick_no_decay (now : Q) (w : World) :
  dragging (globals w) = true ->
  globals (render now w) = globals w /\
  rotationX (globals (render now w)) = rotationX (globals w) /\
  rotationY (globals (render now w)) = rotationY (globals w) /\
  velocityX (globals (render now w)) = velocityX (globals w) /\
  velocityY (globals (render now w)) = velocityY (globals w) /\
  lastMouseX (globals (render now w)) = lastMouseX (globals w) /\
  lastMouseY (globals (render now w)) = lastMouseY (globals w) /\
  app (render now w) = app w /\
  then_ (render now w) = now * 0.001.
Proof.
  intros Hd.
  assert (E : globals (render now w) = globals w).
  { rewrite globals_render. unfold renderGlobals. now rewrite Hd. }
  rewrite E. repeat split; reflexivity.
Qed.

(** ** Rotation state: pointer moves *)







(** ** Double precision: what one rounding costs

    [SFmul], [SFadd] and [SFsub] of the Standard Library compute the IEEE-754
    results by shifting and rounding mantissas. Read as rationals, a result
    that does not overflow differs from the exact one by at most
    2^-53 times its magnitude plus 2^-1075 (half a unit in the last place,
    or half the spacing of the subnormal numbers). *)

Lemma pow2_pos (e : Z) : 0 < 2 ^ e.
Proof. apply Qpower_0_lt. reflexivity. Qed.

Lemma pow2_add (a b : Z) : 2 ^ (a + b) == 2 ^ a * 2 ^ b.
Proof. apply Qpower_plus. discriminate. Qed.

Lemma pow2_le (a b : Z) : (a <= b)%Z -> 2 ^ a <= 2 ^ b.
Proof. intros H. apply Qpower_le_compat_l; [exact H | discriminate]. Qed.

Lemma pow2_le_inv (a b : Z) : 2 ^ a <= 2 ^ b -> (a <= b)%Z.
Proof. intros H. apply (Qpower_le_compat_l_inv 2); [exact H | reflexivity]. Qed.

Lemma pow2_lt_inv (a b : Z) : 2 ^ a < 2 ^ b -> (a < b)%Z.
Proof. intros H. apply (Qpower_lt_compat_l_inv 2); [exact H | reflexivity]. Qed.

Lemma pow2_Z (n : Z) : (0 <= n)%Z -> inject_Z (2 ^ n) == 2 ^ n.
Proof. intros H. now rewrite Zpower_Qpower. Qed.

Lemma pow2_succ (a : Z) : 2 ^ (a + 1) == 2 * 2 ^ a.
Proof. rewrite pow2_add. change (2 ^ 1) with 2. ring. Qed.

Lemma digits2_pos_spec (m : positive) :
  (2 ^ (Zpos (digits2_pos m) - 1) <= Zpos m < 2 ^ Zpos (digits2_pos m))%Z.
Proof.
  induction m as [m IH|m IH|]; cbn [digits2_pos].
  - rewrite Pos2Z.inj_succ, (Pos2Z.inj_xI m).
    replace (Z.succ (Z.pos (digits2_pos m)) - 1)%Z
      with (Z.succ (Z.pos (digits2_pos m) - 1)) by lia.
    rewrite !Z.pow_succ_r by lia.
    set (a := (2 ^ (Z.pos (digits2_pos m) - 1))%Z) in *.
    set (b := (2 ^ (Z.pos (digits2_pos m)))%Z) in *. lia.
  - rewrite Pos2Z.inj_succ, (Pos2Z.inj_xO m).
    replace (Z.succ (Z.pos (digits2_pos m)) - 1)%Z
      with (Z.succ (Z.pos (digits2_pos m) - 1)) by lia.
    rewrite !Z.pow_succ_r by lia.
    set (a := (2 ^ (Z.pos (digits2_pos m) - 1))%Z) in *.
    set (b := (2 ^ (Z.pos (digits2_pos m)))%Z) in *. lia.
  - cbn. lia.
Qed.

Lemma digits2_pos_unique (m : positive) (k : Z) :
  (2 ^ (k - 1) <= Zpos m < 2 ^ k)%Z -> Zpos (digits2_pos m) = k.
Proof.
  intros [Hlo Hhi]. destruct (digits2_pos_spec m) as [Dlo Dhi].
  assert (0 < k)%Z.
  { destruct (Z_lt_le_dec 0 k) as [|Hk]; [assumption|exfalso].
    destruct (Z.eq_dec k 0) as [->|]; [cbn in Hhi; lia|].
    rewrite Z.pow_neg_r in Hhi by lia. lia. }
  assert (Z.pos (digits2_pos m) - 1 < k)%Z.
  { apply (Z.pow_lt_mono_r_iff 2); lia. }
  assert (k - 1 < Z.pos (digits2_pos m))%Z.
  { apply (Z.pow_lt_mono_r_iff 2); lia. }
  lia.
Qed.

Lemma brackets_compat (r : shr_record) (x y : Q) :
  x == y -> brackets r x -> brackets r y.
Proof.
  intros E. unfold brackets. destruct (shr_r r), (shr_s r); cbv zeta; rewrite E; auto.
Qed.

Lemma shr_1_brackets (r : shr_record) (x : Q) :
  (0 <= shr_m r)%Z -> brackets r x ->
  (0 <= shr_m (shr_1 r))%Z /\ brackets (shr_1 r) (x * (1 # 2)).
Proof.
  destruct r as [m rb sb]. cbn [shr_m]. intros Hm.
  destruct m as [|p|p]; [| |lia].
  - unfold brackets; destruct rb, sb; cbn; change (inject_Z 0) with 0;
      intros H; split; try lia; lra.
  - destruct p as [p|p|]; unfold brackets; cbn [shr_1 shr_m shr_r shr_s orb].
    + rewrite (Pos2Z.inj_xI p), inject_Z_plus, inject_Z_mult.
      change (inject_Z 2) with 2. change (inject_Z 1) with 1.
      destruct rb, sb; cbn; intros H; split; try lia; lra.
    + rewrite (Pos2Z.inj_xO p), inject_Z_mult.
      change (inject_Z 2) with 2.
      destruct rb, sb; cbn; intros H; split; try lia; lra.
    + change (inject_Z 1) with 1. change (inject_Z 0) with 0.
      destruct rb, sb; cbn; intros H; split; try lia; lra.
Qed.

Lemma iter_pos_brackets (p : positive) (r : shr_record) (x : Q) :
  (0 <= shr_m r)%Z -> brackets r x ->
  (0 <= shr_m (iter_pos shr_1 p r))%Z /\
  brackets (iter_pos shr_1 p r) (x / 2 ^ Zpos p).
Proof.
  revert r x. induction p as [p IH|p IH|]; intros r x Hm Hb; cbn [iter_pos].
  - destruct (shr_1_brackets r x Hm Hb) as [Hm1 Hb1].
    destruct (IH _ _ Hm1 Hb1) as [Hm2 Hb2].
    destruct (IH _ _ Hm2 Hb2) as [Hm3 Hb3].
    split; [exact Hm3|]. eapply brackets_compat; [|exact Hb3].
    rewrite (Pos2Z.inj_xI p).
    replace (2 * Z.pos p + 1)%Z with (Z.pos p + Z.pos p + 1)%Z by lia.
    rewrite !pow2_add. change (2 ^ 1) with 2.
    pose proof (pow2_pos (Z.pos p)). field. lra.
  - destruct (IH _ _ Hm Hb) as [Hm2 Hb2].
    destruct (IH _ _ Hm2 Hb2) as [Hm3 Hb3].
    split; [exact Hm3|]. eapply brackets_compat; [|exact Hb3].
    rewrite (Pos2Z.inj_xO p).
    replace (2 * Z.pos p)%Z with (Z.pos p + Z.pos p)%Z by lia.
    rewrite !pow2_add.
    pose proof (pow2_pos (Z.pos p)). field. lra.
  - destruct (shr_1_brackets r x Hm Hb) as [Hm1 Hb1].
    split; [exact Hm1|]. eapply brackets_compat; [|exact Hb1].
    change (2 ^ 1) with 2. field.
Qed.

Lemma brackets_floor (r : shr_record) (x : Q) :
  brackets r x -> inject_Z (shr_m r) <= x /\ x < inject_Z (shr_m r) + 1.
Proof. unfold brackets. destruct (shr_r r), (shr_s r); cbv zeta; intros H; lra. Qed.

Lemma round_nearest_even_close (r : shr_record) (x : Q) :
  brackets r x ->
  let m' := round_nearest_even (shr_m r) (loc_of_shr_record r) in
  (m' = shr_m r \/ m' = (shr_m r + 1)%Z) /\
  Qabs (inject_Z m' - x) <= 1 # 2.
Proof.
  destruct r as [m rb sb]. unfold brackets. cbn [shr_m shr_r shr_s loc_of_shr_record].
  destruct rb, sb; cbn [round_nearest_even]; intros H;
    try destruct (Z.even m); (split; [auto|]);
    rewrite ?inject_Z_plus; change (inject_Z 1) with 1;
    apply Qabs_Qle_condition; lra.
Qed.

Lemma shr_fexp_exact (m e : Z) :
  (fexp prec emax (Zdigits2 m + e) - e <= 0)%Z ->
  shr_fexp prec emax m e loc_Exact
  = ({| shr_m := m; shr_r := false; shr_s := false |}, e).
Proof.
  intros H. unfold shr_fexp, shr. cbn [shr_record_of_loc].
  destruct (fexp prec emax (Zdigits2 m + e) - e)%Z; [reflexivity|lia|reflexivity].
Qed.

Lemma shr_fexp_shift (m e : Z) (p : positive) :
  (fexp prec emax (Zdigits2 m + e) - e)%Z = Zpos p ->
  shr_fexp prec emax m e loc_Exact
  = (iter_pos shr_1 p {| shr_m := m; shr_r := false; shr_s := false |},
     (e + Zpos p)%Z).
Proof.
  intros H. unfold shr_fexp, shr. cbn [shr_record_of_loc]. now rewrite H.
Qed.

Lemma inject_pos_bounds (m : positive) :
  2 ^ (Zpos (digits2_pos m) - 1) <= inject_Z (Zpos m) /\
  inject_Z (Zpos m) < 2 ^ Zpos (digits2_pos m).
Proof.
  destruct (digits2_pos_spec m) as [Hlo Hhi].
  rewrite <- !pow2_Z by lia. rewrite <- Zle_Qle, <- Zlt_Qlt. auto.
Qed.

Lemma Zlt_pow2_Q (a : Z) (k : Z) :
  (0 <= k)%Z -> inject_Z a < 2 ^ k -> (a < 2 ^ k)%Z.
Proof. intros Hk H. rewrite <- pow2_Z in H by exact Hk. now rewrite <- Zlt_Qlt in H. Qed.

Lemma Zle_pow2_Q (a : Z) (k : Z) :
  (0 <= k)%Z -> 2 ^ k < inject_Z a + 1 -> (2 ^ k <= a)%Z.
Proof.
  intros Hk H. rewrite <- pow2_Z in H by exact Hk.
  change 1 with (inject_Z 1) in H. rewrite <- inject_Z_plus, <- Zlt_Qlt in H. lia.
Qed.

Lemma binary_round_aux_spec (s : bool) (m : positive) (e : Z) :
  let z := inject_Z (Zpos m) * 2 ^ e in
  (e <= fexp prec emax (Zpos (digits2_pos m) + e))%Z ->
  z <= 2 ^ 1022 ->
  match binary_round_aux prec emax s (Zpos m) e loc_Exact with
  | S754_zero s' => s' = s /\ z <= eta64
  | S754_finite s' m' e' =>
      s' = s /\ Qabs (inject_Z (Zpos m') * 2 ^ e' - z) <= eps64 * z + eta64
  | _ => False
  end.
Proof.
  intros z Hal Hz.
  pose proof (inject_pos_bounds m) as [Dlo Dhi].
  pose proof (pow2_pos e) as He.
  set (d := Zpos (digits2_pos m)) in *.
  assert (Hd : (1 <= d)%Z) by (unfold d; lia).
  assert (Ed : Zpos (digits2_pos m) = d) by reflexivity. clearbody d.
  assert (Hde : (d + e <= 1023)%Z).
  { assert (H : 2 ^ (d - 1 + e) <= 2 ^ 1022).
    { eapply Qle_trans; [|exact Hz]. rewrite pow2_add. unfold z.
      apply Qmult_le_compat_r; lra. }
    apply pow2_le_inv in H. lia. }
  unfold fexp, SpecFloat.emin, prec, emax in Hal. stdlib_Z.
  pose proof (pow2_pos (d - 1)) as Hd1.
  assert (Hz0 : 0 <= z) by (unfold z; apply Qmult_le_0_compat; lra).
  pose proof (pow2_pos (-53)) as Hu. pose proof (pow2_pos (-1075)) as Hn.
  assert (Huz : 0 <= 2 ^ (-53) * z) by (apply Qmult_le_0_compat; lra).
  unfold binary_round_aux.
  destruct (Z.eq_dec (Z.max (d + e - 53) (3 - 1024 - 53)) e) as [E0|Ene].
  - (* already on the grid: nothing is dropped *)
    rewrite shr_fexp_exact
      by (cbn [Zdigits2]; rewrite Ed; unfold fexp, SpecFloat.emin, prec, emax;
          stdlib_Z; lia).
    cbn [shr_m loc_of_shr_record round_nearest_even].
    rewrite shr_fexp_exact
      by (cbn [Zdigits2]; rewrite Ed; unfold fexp, SpecFloat.emin, prec, emax;
          stdlib_Z; lia).
    cbn [shr_m].
    assert (X : (e <=? emax - prec)%Z = true)
      by (apply Z.leb_le; unfold emax, prec; lia).
    stdlib_Z. rewrite X.
    split; [reflexivity|].
    assert (E : inject_Z (Zpos m) * 2 ^ e - z == 0) by (unfold z; ring).
    rewrite E. change (Qabs 0) with 0. unfold eps64, eta64. lra.
  - (* [p] low bits are dropped *)
    set (e1 := Z.max (d + e - 53) (3 - 1024 - 53)) in *.
    assert (Hp : (0 < e1 - e)%Z) by lia.
    destruct (e1 - e)%Z as [|p|p] eqn:Ep; try lia. clear Hp.
    rewrite (shr_fexp_shift (Zpos m) e p)
      by (cbn [Zdigits2]; rewrite Ed; unfold fexp, SpecFloat.emin, prec, emax;
          stdlib_Z; exact Ep).
    replace (e + Zpos p)%Z with e1 by lia.
    set (r0 := {| shr_m := Zpos m; shr_r := false; shr_s := false |}).
    destruct (iter_pos_brackets p r0 (inject_Z (Zpos m))) as [Hm1 Hb1];
      [cbn; lia | unfold brackets; cbn; reflexivity |].
    set (r1 := iter_pos shr_1 p r0) in *.
    set (x := inject_Z (Zpos m) / 2 ^ Zpos p) in *.
    destruct (brackets_floor r1 x Hb1) as [Flo Fhi].
    destruct (round_nearest_even_close r1 x Hb1) as [Hm2 Hc].
    set (m1 := shr_m r1) in *.
    set (m2 := round_nearest_even m1 (loc_of_shr_record r1)) in *.
    clearbody m2 m1. clear Hb1 r1 r0.
    pose proof (pow2_pos (Zpos p)) as HP.
    pose proof (pow2_pos e1) as HE1.
    assert (EE : 2 ^ e1 == 2 ^ e * 2 ^ Zpos p).
    { rewrite <- pow2_add. apply Qpower_comp; [reflexivity|lia]. }
    assert (Hzx : z == x * 2 ^ e1).
    { unfold z, x. rewrite EE. field. lra. }
    assert (Hx1 : 2 ^ (d - 1 - Zpos p) <= x).
    { unfold x. apply Qle_shift_div_l; [exact HP|].
      rewrite <- pow2_add. replace (d - 1 - Zpos p + Zpos p)%Z with (d - 1)%Z by lia.
      exact Dlo. }
    assert (Hx2 : x < 2 ^ (d - Zpos p)).
    { unfold x. apply Qlt_shift_div_r; [exact HP|].
      rewrite <- pow2_add. replace (d - Zpos p + Zpos p)%Z with d by lia.
      exact Dhi. }
    (* the error in units of the last place kept *)
    assert (Herr : forall m' : Z, m' = m2 ->
              Qabs (inject_Z m' * 2 ^ e1 - z) <= 2 ^ e1 * (1 # 2)).
    { intros m' ->. rewrite Hzx.
      assert (E : inject_Z m2 * 2 ^ e1 - x * 2 ^ e1 == 2 ^ e1 * (inject_Z m2 - x)) by ring.
      rewrite E, Qabs_Qmult, (Qabs_pos (2 ^ e1)) by lra.
      apply Qmult_le_l; [exact HE1 | exact Hc]. }
    assert (Hm2pos : (0 <= m2)%Z) by lia.
    destruct (Z_le_gt_dec (3 - 1024 - 53) (d + e - 53)) as [Hnorm|Hsub].
    + (* normal range: 53 bits are kept *)
      assert (He1 : e1 = (d + e - 53)%Z) by lia.
      assert (Hpd : Zpos p = (d - 53)%Z) by lia.
      replace (d - 1 - Zpos p)%Z with 52%Z in Hx1 by lia.
      replace (d - Zpos p)%Z with 53%Z in Hx2 by lia.
      assert (Hm1lo : (2 ^ 52 <= m1)%Z) by (apply Zle_pow2_Q; [lia | lra]).
      assert (Hm1hi : (m1 < 2 ^ 53)%Z) by (apply Zlt_pow2_Q; [lia | lra]).
      assert (Hbound : 2 ^ e1 * (1 # 2) <= eps64 * z + eta64).
      { assert (Hzlo : 2 ^ e1 * 2 ^ 52 <= z).
        { rewrite Hzx. rewrite (Qmult_comm x). apply Qmult_le_l; [exact HE1 | exact Hx1]. }
        assert (Ec : 2 ^ (-53) * 2 ^ 52 == 1 # 2) by (vm_compute; reflexivity).
        assert (H1 : 2 ^ (-53) * (2 ^ e1 * 2 ^ 52) <= 2 ^ (-53) * z)
          by (apply Qmult_le_l; [exact Hu | exact Hzlo]).
        assert (E2 : 2 ^ (-53) * (2 ^ e1 * 2 ^ 52) == 2 ^ e1 * (1 # 2))
          by (rewrite <- Ec; ring).
        unfold eps64, eta64. rewrite <- E2. lra. }
      destruct (Z.eq_dec m2 (2 ^ 53)) as [Ecarry|Hnc].
      * (* the mantissa overflows into a 54th bit and is shifted once more *)
        subst m2. specialize (Herr _ eq_refl).
        change (2 ^ 53)%Z with 9007199254740992%Z in *.
        rewrite (shr_fexp_shift 9007199254740992 e1 1)
          by (unfold fexp, SpecFloat.emin, prec, emax; stdlib_Z;
              change (Zdigits2 9007199254740992) with 54%Z; lia).
        cbn [iter_pos shr_1 shr_m].
        assert (X : (e1 + 1 <=? emax - prec)%Z = true)
          by (apply Z.leb_le; unfold emax, prec; lia).
        stdlib_Z. rewrite X. split; [reflexivity|].
        eapply Qle_trans; [|exact Hbound].
        eapply Qle_trans; [|exact Herr].
        apply Qle_lteq. right. apply Qabs_wd.
        rewrite pow2_add. change (2 ^ 1) with 2.
        assert (Ei : inject_Z 9007199254740992 == 2 * inject_Z 4503599627370496)
          by reflexivity.
        rewrite Ei. ring.
      * assert (Hm2r : (2 ^ 52 <= m2 < 2 ^ 53)%Z) by lia.
        destruct m2 as [|q|q]; try lia.
        assert (Hq : Zpos (digits2_pos q) = 53%Z)
          by (apply digits2_pos_unique; exact Hm2r).
        rewrite shr_fexp_exact
          by (cbn [Zdigits2]; rewrite Hq; unfold fexp, SpecFloat.emin, prec, emax;
              stdlib_Z; lia).
        cbn [shr_m].
        assert (X : (e1 <=? emax - prec)%Z = true)
          by (apply Z.leb_le; unfold emax, prec; lia).
        stdlib_Z. rewrite X. split; [reflexivity|].
        eapply Qle_trans; [apply Herr; reflexivity | exact Hbound].
    + (* subnormal range: the grid is 2^-1074 *)
      assert (He1 : e1 = (-1074)%Z) by lia.
      assert (Hx3 : x < 2 ^ 52).
      { eapply Qlt_le_trans; [exact Hx2|]. apply pow2_le. lia. }
      assert (Hm1hi : (m1 < 2 ^ 52)%Z) by (apply Zlt_pow2_Q; [lia | lra]).
      assert (Hhalf : 2 ^ e1 * (1 # 2) == eta64).
      { rewrite He1. vm_compute. reflexivity. }
      destruct m2 as [|q|q]; try lia.
      * rewrite shr_fexp_exact
          by (cbn [Zdigits2]; unfold fexp, SpecFloat.emin, prec, emax;
              stdlib_Z; lia).
        cbn [shr_m]. split; [reflexivity|].
        rewrite <- Hhalf, Hzx, (Qmult_comm x).
        apply Qmult_le_l; [exact HE1|].
        apply Qabs_Qle_condition in Hc. change (inject_Z 0) with 0 in Hc. lra.
      * assert (Hq : (Zpos (digits2_pos q) <= 53)%Z).
        { destruct (digits2_pos_spec q) as [Qlo _].
          assert (H : (2 ^ (Zpos (digits2_pos q) - 1) < 2 ^ 53)%Z) by lia.
          apply Z.pow_lt_mono_r_iff in H; lia. }
        rewrite shr_fexp_exact
          by (cbn [Zdigits2]; unfold fexp, SpecFloat.emin, prec, emax;
              stdlib_Z; lia).
        cbn [shr_m].
        assert (X : (e1 <=? emax - prec)%Z = true)
          by (apply Z.leb_le; unfold emax, prec; lia).
        stdlib_Z. rewrite X. split; [reflexivity|].
        eapply Qle_trans; [apply Herr; reflexivity|].
        rewrite Hhalf. unfold eps64. lra.
Qed.

Lemma SF2Q_finite (s : bool) (m : positive) (e : Z) :
  SF2Q (S754_finite s m e) = sgn s * inject_Z (Zpos m) * 2 ^ e.
Proof. reflexivity. Qed.

Lemma Qabs_sgn (s : bool) (t : Q) : Qabs (sgn s * t) == Qabs t.
Proof.
  destruct s; unfold sgn.
  - assert (E : -1 * t == - t) by ring. rewrite E. apply Qabs_opp.
  - assert (E : 1 * t == t) by ring. now rewrite E.
Qed.

Lemma sgn_xorb (a b : bool) : sgn (xorb a b) == sgn a * sgn b.
Proof. destruct a, b; reflexivity. Qed.

Lemma rounds_aux (s : bool) (m : positive) (e : Z) :
  (e <= fexp prec emax (Zpos (digits2_pos m) + e))%Z ->
  inject_Z (Zpos m) * 2 ^ e <= 2 ^ 1022 ->
  rounds s (inject_Z (Zpos m) * 2 ^ e)
         (binary_round_aux prec emax s (Zpos m) e loc_Exact).
Proof.
  intros Hal Hz. pose proof (binary_round_aux_spec s m e Hal Hz) as H.
  cbv zeta in H. set (z := inject_Z (Zpos m) * 2 ^ e) in *.
  pose proof (pow2_pos (-53)) as Hu. pose proof (pow2_pos (-1075)) as Hn.
  assert (Hz0 : 0 <= z).
  { unfold z. apply Qmult_le_0_compat; [|pose proof (pow2_pos e); lra].
    change 0 with (inject_Z 0). now rewrite <- Zle_Qle. }
  assert (Huz : 0 <= 2 ^ (-53) * z) by (apply Qmult_le_0_compat; lra).
  destruct (binary_round_aux prec emax s (Zpos m) e loc_Exact) as [s'|s'| |s' m' e'];
    try contradiction; destruct H as [-> H]; split; try reflexivity.
  - cbn [SF2Q].
    assert (E : 0 - sgn s * z == - (sgn s * z)) by ring.
    rewrite E, Qabs_opp, Qabs_sgn, (Qabs_pos z Hz0). unfold eps64, eta64 in *. lra.
  - rewrite SF2Q_finite.
    assert (E : sgn s * inject_Z (Zpos m') * 2 ^ e' - sgn s * z
                == sgn s * (inject_Z (Zpos m') * 2 ^ e' - z)) by ring.
    rewrite E, Qabs_sgn. exact H.
Qed.

Lemma shl_align_value (m : positive) (e e' : Z) :
  inject_Z (Zpos (fst (shl_align m e e'))) * 2 ^ snd (shl_align m e e')
  == inject_Z (Zpos m) * 2 ^ e.
Proof.
  unfold shl_align. stdlib_Z.
  destruct (e' - e)%Z as [|k|k] eqn:Ek; cbn [fst snd]; try reflexivity.
  change (PosDef.Pos.iter xO m k) with (shift_pos k m).
  rewrite shift_pos_correct, Z.pow_pos_fold, inject_Z_mult, pow2_Z by lia.
  assert (Ee : 2 ^ e == 2 ^ Zpos k * 2 ^ e').
  { rewrite <- pow2_add. apply Qpower_comp; [reflexivity | lia]. }
  rewrite Ee. ring.
Qed.

Lemma shl_align_le (m : positive) (e e' : Z) :
  (e' <= e)%Z -> snd (shl_align m e e') = e'.
Proof.
  intros H. unfold shl_align. stdlib_Z.
  destruct (e' - e)%Z as [|k|k] eqn:Ek; cbn [snd]; lia.
Qed.

Lemma shl_align_digits (m : positive) (e e' : Z) :
  (Zpos (digits2_pos (fst (shl_align m e e'))) + snd (shl_align m e e')
   = Zpos (digits2_pos m) + e)%Z.
Proof.
  unfold shl_align. stdlib_Z.
  destruct (e' - e)%Z as [|k|k] eqn:Ek; cbn [fst snd]; try reflexivity.
  change (PosDef.Pos.iter xO m k) with (shift_pos k m).
  assert (E : Zpos (digits2_pos (shift_pos k m)) = (Zpos (digits2_pos m) + Zpos k)%Z).
  { apply digits2_pos_unique. rewrite shift_pos_correct, Z.pow_pos_fold.
    destruct (digits2_pos_spec m) as [Hlo Hhi].
    replace (Zpos (digits2_pos m) + Zpos k - 1)%Z
      with (Zpos k + (Zpos (digits2_pos m) - 1))%Z by lia.
    rewrite (Z.add_comm (Zpos (digits2_pos m))), !Z.pow_add_r by lia.
    assert (0 < 2 ^ Zpos k)%Z by (apply Z.pow_pos_nonneg; lia).
    split; [apply Z.mul_le_mono_nonneg_l | apply Z.mul_lt_mono_pos_l]; lia. }
  lia.
Qed.

Lemma rounds_round (s : bool) (m : positive) (e : Z) :
  inject_Z (Zpos m) * 2 ^ e <= 2 ^ 1022 ->
  rounds s (inject_Z (Zpos m) * 2 ^ e) (binary_round prec emax s m e).
Proof.
  intros Hz. unfold binary_round.
  set (e' := fexp prec emax (Zpos (digits2_pos m) + e)).
  pose proof (shl_align_value m e e') as Hv.
  pose proof (shl_align_digits m e e') as Hd.
  assert (Hal : (snd (shl_align m e e')
                 <= fexp prec emax (Zpos (digits2_pos (fst (shl_align m e e')))
                                    + snd (shl_align m e e')))%Z).
  { rewrite Hd. fold e'. unfold shl_align. stdlib_Z.
    destruct (e' - e)%Z as [|k|k] eqn:Ek; cbn [snd]; lia. }
  destruct (shl_align m e e') as [mz ez]. cbn [fst snd] in *.
  assert (R : rounds s (inject_Z (Zpos mz) * 2 ^ ez)
                (binary_round_aux prec emax s (Zpos mz) ez loc_Exact)).
  { apply rounds_aux; [exact Hal | now rewrite Hv]. }
  destruct R as [Rf Re]. split; [exact Rf|]. now rewrite <- Hv.
Qed.

Lemma rounds_normalize (M e : Z) (sz : bool) :
  Qabs (inject_Z M * 2 ^ e) <= 2 ^ 1022 ->
  let r := binary_normalize prec emax M e sz in
  SFfinite r = true /\
  Qabs (SF2Q r - inject_Z M * 2 ^ e)
    <= eps64 * Qabs (inject_Z M * 2 ^ e) + eta64.
Proof.
  intros Hz. cbv zeta. pose proof (pow2_pos e) as He.
  pose proof (pow2_pos (-53)) as Hu. pose proof (pow2_pos (-1075)) as Hn.
  destruct M as [|m|m]; cbn [binary_normalize].
  - split; [reflexivity|]. cbn [SF2Q].
    assert (E : inject_Z 0 * 2 ^ e == 0) by (change (inject_Z 0) with 0; ring).
    rewrite E. change (0 - 0) with 0. change (Qabs 0) with 0.
    unfold eps64, eta64. lra.
  - assert (Hpos : 0 <= inject_Z (Zpos m) * 2 ^ e).
    { apply Qmult_le_0_compat; [|lra].
      change 0 with (inject_Z 0). now rewrite <- Zle_Qle. }
    rewrite (Qabs_pos _ Hpos) in *.
    destruct (rounds_round false m e Hz) as [Rf Re]. split; [exact Rf|].
    unfold sgn in Re. now rewrite Qmult_1_l in Re.
  - assert (En : inject_Z (Zneg m) * 2 ^ e == - (inject_Z (Zpos m) * 2 ^ e)).
    { change (Zneg m) with (- Zpos m)%Z. rewrite inject_Z_opp. ring. }
    assert (Hpos : 0 <= inject_Z (Zpos m) * 2 ^ e).
    { apply Qmult_le_0_compat; [|lra].
      change 0 with (inject_Z 0). now rewrite <- Zle_Qle. }
    rewrite En, Qabs_opp, (Qabs_pos _ Hpos) in *.
    destruct (rounds_round true m e Hz) as [Rf Re]. split; [exact Rf|].
    unfold sgn in Re.
    assert (E : -1 * (inject_Z (Zpos m) * 2 ^ e) == - (inject_Z (Zpos m) * 2 ^ e))
      by ring.
    now rewrite E in Re.
Qed.

Lemma valid_finite (s : bool) (m : positive) (e : Z) :
  valid_binary (S754_finite s m e) = true ->
  fexp prec emax (Zpos (digits2_pos m) + e) = e /\ (e <= 971)%Z.
Proof.
  cbn [SpecFloat.valid_binary]. unfold bounded, canonical_mantissa.
  intros [H1 H2]%andb_true_iff. stdlib_Z.
  change IntDef.Z.eqb with Z.eqb in H1.
  apply Z.eqb_eq in H1. apply Z.leb_le in H2. unfold emax, prec in H2.
  split; [exact H1 | lia].
Qed.

Lemma inject_pos_nonneg (m : positive) (e : Z) : 0 <= inject_Z (Zpos m) * 2 ^ e.
Proof.
  apply Qmult_le_0_compat; [|pose proof (pow2_pos e); lra].
  change 0 with (inject_Z 0). now rewrite <- Zle_Qle.
Qed.

Lemma SFmul_rounds (x y : spec_float) :
  valid_binary x = true -> valid_binary y = true ->
  SFfinite x = true -> SFfinite y = true ->
  Qabs (SF2Q x * SF2Q y) <= 2 ^ 1022 ->
  let r := SFmul prec emax x y in
  SFfinite r = true /\
  Qabs (SF2Q r - SF2Q x * SF2Q y) <= eps64 * Qabs (SF2Q x * SF2Q y) + eta64.
Proof.
  intros Vx Vy Fx Fy Hz. cbv zeta.
  pose proof (pow2_pos (-1075)) as Hn.
  assert (Z0 : forall a b, a == 0 \/ b == 0 ->
            Qabs (0 - a * b) <= eps64 * Qabs (a * b) + eta64).
  { intros a b H. assert (E : a * b == 0) by (destruct H as [-> | ->]; ring).
    rewrite E. change (0 - 0) with 0. change (Qabs 0) with 0.
    unfold eps64, eta64. lra. }
  destruct x as [sx|sx| |sx mx ex], y as [sy|sy| |sy my ey];
    try discriminate; cbn [SFmul].
  - split; [reflexivity|]. apply Z0. now left.
  - split; [reflexivity|]. apply Z0. now left.
  - split; [reflexivity|]. apply Z0. now right.
  - destruct (valid_finite _ _ _ Vx) as [Cx _].
    destruct (valid_finite _ _ _ Vy) as [Cy _].
    rewrite !SF2Q_finite in *.
    assert (Ev : inject_Z (Zpos (mx * my)) * 2 ^ (ex + ey)
                 == (inject_Z (Zpos mx) * 2 ^ ex) * (inject_Z (Zpos my) * 2 ^ ey)).
    { rewrite Pos2Z.inj_mul, inject_Z_mult, pow2_add. ring. }
    assert (Es : sgn sx * inject_Z (Zpos mx) * 2 ^ ex * (sgn sy * inject_Z (Zpos my) * 2 ^ ey)
                 == sgn (xorb sx sy) * (inject_Z (Zpos (mx * my)) * 2 ^ (ex + ey))).
    { rewrite Ev, sgn_xorb. ring. }
    rewrite Es in *. rewrite Qabs_sgn in *.
    rewrite (Qabs_pos _ (inject_pos_nonneg _ _)) in *.
    apply (rounds_aux (xorb sx sy) (mx * my) (ex + ey)); [|exact Hz].
    destruct (digits2_pos_spec mx) as [Xlo Xhi].
    destruct (digits2_pos_spec my) as [Ylo Yhi].
    destruct (digits2_pos_spec (mx * my)) as [Plo Phi].
    set (dx := Zpos (digits2_pos mx)) in *.
    set (dy := Zpos (digits2_pos my)) in *.
    set (dp := Zpos (digits2_pos (mx * my))) in *.
    assert (Hdx : (1 <= dx)%Z) by (unfold dx; lia).
    assert (Hdy : (1 <= dy)%Z) by (unfold dy; lia).
    assert (Hdp1 : (1 <= dp)%Z) by (unfold dp; lia).
    clearbody dx dy dp.
    assert (Hdp : (dx + dy - 2 < dp)%Z).
    { apply (Z.pow_lt_mono_r_iff 2); [lia | lia |].
      replace (dx + dy - 2)%Z with ((dx - 1) + (dy - 1))%Z by lia.
      rewrite Z.pow_add_r by lia. rewrite Pos2Z.inj_mul in Phi.
      eapply Z.le_lt_trans; [|exact Phi].
      apply Z.mul_le_mono_nonneg; try lia; apply Z.pow_nonneg; lia. }
    unfold fexp, SpecFloat.emin, prec, emax in *. stdlib_Z. lia.
Qed.

Lemma aligned_value (s : bool) (m : positive) (e ez : Z) :
  (ez <= e)%Z ->
  inject_Z (cond_Zopp s (Zpos (fst (shl_align m e ez)))) * 2 ^ ez
  == sgn s * inject_Z (Zpos m) * 2 ^ e.
Proof.
  intros H. pose proof (shl_align_value m e ez) as Hv.
  rewrite (shl_align_le m e ez H) in Hv.
  destruct s; unfold cond_Zopp, sgn; stdlib_Z.
  - rewrite inject_Z_opp.
    assert (E : - inject_Z (Zpos (fst (shl_align m e ez))) * 2 ^ ez
                == - (inject_Z (Zpos (fst (shl_align m e ez))) * 2 ^ ez)) by ring.
    rewrite E, Hv. ring.
  - rewrite Hv. ring.
Qed.

Lemma exact_bound (v t : Q) : v == t -> Qabs (v - t) <= eps64 * Qabs t + eta64.
Proof.
  intros ->. assert (E : t - t == 0) by ring. rewrite E. change (Qabs 0) with 0.
  pose proof (pow2_pos (-53)) as Hu. pose proof (pow2_pos (-1075)) as Hn.
  pose proof (Qabs_nonneg t).
  assert (0 <= 2 ^ (-53) * Qabs t) by (apply Qmult_le_0_compat; lra).
  unfold eps64, eta64. lra.
Qed.

Lemma SFadd_rounds (x y : spec_float) :
  SFfinite x = true -> SFfinite y = true ->
  Qabs (SF2Q x + SF2Q y) <= 2 ^ 1022 ->
  let r := SFadd prec emax x y in
  SFfinite r = true /\
  Qabs (SF2Q r - (SF2Q x + SF2Q y)) <= eps64 * Qabs (SF2Q x + SF2Q y) + eta64.
Proof.
  intros Fx Fy Hz. cbv zeta.
  destruct x as [sx|sx| |sx mx ex], y as [sy|sy| |sy my ey];
    try discriminate; cbn [SFadd].
  - split; [destruct sx, sy; reflexivity|].
    apply exact_bound. destruct sx, sy; reflexivity.
  - split; [reflexivity|]. apply exact_bound. cbn [SF2Q]. ring.
  - split; [reflexivity|]. apply exact_bound. cbn [SF2Q]. ring.
  - rewrite !SF2Q_finite in *.
    set (ez := IntDef.Z.min ex ey).
    assert (Hx : (ez <= ex)%Z) by (unfold ez; stdlib_Z; lia).
    assert (Hy : (ez <= ey)%Z) by (unfold ez; stdlib_Z; lia).
    assert (E : inject_Z (cond_Zopp sx (Zpos (fst (shl_align mx ex ez)))
                          + cond_Zopp sy (Zpos (fst (shl_align my ey ez)))) * 2 ^ ez
                == sgn sx * inject_Z (Zpos mx) * 2 ^ ex
                   + sgn sy * inject_Z (Zpos my) * 2 ^ ey).
    { rewrite inject_Z_plus, Qmult_plus_distr_l, !aligned_value by assumption.
      reflexivity. }
    rewrite <- E in *. now apply rounds_normalize.
Qed.

Lemma SFsub_rounds (x y : spec_float) :
  SFfinite x = true -> SFfinite y = true ->
  Qabs (SF2Q x - SF2Q y) <= 2 ^ 1022 ->
  let r := SFsub prec emax x y in
  SFfinite r = true /\
  Qabs (SF2Q r - (SF2Q x - SF2Q y)) <= eps64 * Qabs (SF2Q x - SF2Q y) + eta64.
Proof.
  intros Fx Fy Hz. cbv zeta.
  destruct x as [sx|sx| |sx mx ex], y as [sy|sy| |sy my ey];
    try discriminate; cbn [SFsub].
  - split; [destruct sx, sy; reflexivity|].
    apply exact_bound. destruct sx, sy; reflexivity.
  - split; [reflexivity|]. apply exact_bound. rewrite !SF2Q_finite. cbn [SF2Q].
    destruct sy; unfold sgn; cbn [negb]; ring.
  - split; [reflexivity|]. apply exact_bound. cbn [SF2Q]. ring.
  - rewrite !SF2Q_finite in *.
    set (ez := IntDef.Z.min ex ey).
    assert (Hx : (ez <= ex)%Z) by (unfold ez; stdlib_Z; lia).
    assert (Hy : (ez <= ey)%Z) by (unfold ez; stdlib_Z; lia).
    assert (E : inject_Z (cond_Zopp sx (Zpos (fst (shl_align mx ex ez)))
                          - cond_Zopp sy (Zpos (fst (shl_align my ey ez)))) * 2 ^ ez
                == sgn sx * inject_Z (Zpos mx) * 2 ^ ex
                   - sgn sy * inject_Z (Zpos my) * 2 ^ ey).
    { unfold Z.sub. rewrite inject_Z_plus, inject_Z_opp.
      assert (D : forall a b c : Q, (a + - b) * c == a * c - b * c) by (intros; ring).
      rewrite D, !aligned_value by assumption. reflexivity. }
    stdlib_Z. rewrite <- E in *. now apply rounds_normalize.
Qed.

(** The same for the primitive operations, through their specification. *)

Lemma mul_error (x y : float) :
  finite x = true -> finite y = true ->
  Qabs (valueOf x * valueOf y) <= 2 ^ 1022 ->
  finite (x * y) = true /\
  Qabs (valueOf (x * y) - valueOf x * valueOf y)
    <= eps64 * Qabs (valueOf x * valueOf y) + eta64.
Proof.
  unfold finite, valueOf. rewrite mul_spec. intros Fx Fy Hz.
  apply SFmul_rounds; auto using Prim2SF_valid.
Qed.

Lemma add_error (x y : float) :
  finite x = true -> finite y = true ->
  Qabs (valueOf x + valueOf y) <= 2 ^ 1022 ->
  finite (x + y) = true /\
  Qabs (valueOf (x + y) - (valueOf x + valueOf y))
    <= eps64 * Qabs (valueOf x + valueOf y) + eta64.
Proof.
  unfold finite, valueOf. rewrite add_spec. intros Fx Fy Hz.
  now apply SFadd_rounds.
Qed.

Lemma sub_error (x y : float) :
  finite x = true -> finite y = true ->
  Qabs (valueOf x - valueOf y) <= 2 ^ 1022 ->
  finite (x - y) = true /\
  Qabs (valueOf (x - y) - (valueOf x - valueOf y))
    <= eps64 * Qabs (valueOf x - valueOf y) + eta64.
Proof.
  unfold finite, valueOf. rewrite sub_spec. intros Fx Fy Hz.
  now apply SFsub_rounds.
Qed.

(** ** Double precision: idle ticks *)

Lemma eps64_value : eps64 == 1 # 9007199254740992.
Proof. vm_compute. reflexivity. Qed.

Lemma friction_value : valueOf Double.friction == 8556839292003942 # 9007199254740992.
Proof. vm_compute. reflexivity. Qed.

Lemma eta64_pos : 0 < eta64.
Proof. apply pow2_pos. Qed.

Lemma eta64_small : 1152921504606846976 * eta64 <= 1.
Proof. apply Qle_bool_imp_le. vm_compute. reflexivity. Qed.

Lemma big_values : 1 <= 2 ^ 500 /\ 1000 * 2 ^ 500 <= 2 ^ 1022.
Proof. split; apply Qle_bool_imp_le; vm_compute; reflexivity. Qed.

Lemma Qabs_le_iff (x y : Q) : Qabs x <= y <-> - y <= x /\ x <= y.
Proof. apply Qabs_Qle_condition. Qed.

Lemma Qabs_bounds (x : Q) : - Qabs x <= x /\ x <= Qabs x /\ 0 <= Qabs x.
Proof.
  split; [|split; [apply Qle_Qabs | apply Qabs_nonneg]].
  pose proof (Qle_Qabs (- x)) as H. rewrite Qabs_opp in H. lra.
Qed.

Lemma pow95_succ (n : nat) : 0.95 ^ Z.of_nat (S n) == 0.95 ^ Z.of_nat n * 0.95.
Proof.
  rewrite Nat2Z.inj_succ, <- Z.add_1_r.
  rewrite Qpower_plus by lra. reflexivity.
Qed.

Lemma pow95_range (n : nat) : 0 < 0.95 ^ Z.of_nat n /\ 0.95 ^ Z.of_nat n <= 1.
Proof.
  induction n as [|n [IH1 IH2]].
  - change (0.95 ^ Z.of_nat 0) with 1. lra.
  - rewrite pow95_succ. set (p := 0.95 ^ Z.of_nat n) in *. lra.
Qed.

(** |a * p| <= |a| for a factor between 0 and 1. *)
Lemma Qabs_shrink (a p : Q) : 0 <= p -> p <= 1 -> Qabs (a * p) <= Qabs a.
Proof.
  intros H0 H1. rewrite Qabs_Qmult, (Qabs_pos p H0).
  pose proof (Qabs_nonneg a).
  assert (H2 : 0 <= Qabs a * (1 - p)) by (apply Qmult_le_0_compat; lra).
  lra.
Qed.

Lemma friction_finite : finite Double.friction = true.
Proof. vm_compute. reflexivity. Qed.

Lemma velocity_decay (v0 : float) (n : nat) :
  moderate v0 ->
  finite (velocityAfter v0 n) = true /\
  Qabs (valueOf (velocityAfter v0 n) - valueOf v0 * 0.95 ^ Z.of_nat n)
    <= velocityTolerance (valueOf v0).
Proof.
  intros [Fv Bv].
  pose proof eta64_pos as Hn. pose proof eta64_small as Hs.
  destruct big_values as [HB1 HB2].
  destruct (Qabs_bounds (valueOf v0)) as (A1 & A2 & A3).
  unfold velocityTolerance. rewrite eps64_value.
  set (A0 := Qabs (valueOf v0)) in *.
  set (B := 2 ^ 500) in *. set (W := 2 ^ 1022) in *.
  induction n as [|n [IHf IHe]].
  - split; [exact Fv|]. cbn [velocityAfter].
    change (0.95 ^ Z.of_nat 0) with 1.
    assert (E : valueOf v0 - valueOf v0 * 1 == 0) by ring.
    rewrite E. change (Qabs 0) with 0. lra.
  - cbn [velocityAfter]. rewrite pow95_succ.
    destruct (pow95_range n) as [P0 P1].
    set (p := 0.95 ^ Z.of_nat n) in *.
    set (vk := velocityAfter v0 n) in *.
    pose proof (Qabs_shrink (valueOf v0) p (Qlt_le_weak _ _ P0) P1) as HV.
    fold A0 in HV. apply Qabs_le_iff in HV, IHe.
    set (V := valueOf v0 * p) in *. set (a := valueOf vk) in *.
    assert (Ha : Qabs a <= A0 + (64 * (1 # 9007199254740992) * A0 + 32 * eta64))
      by (apply Qabs_le_iff; lra).
    assert (Hact : Qabs (a * valueOf Double.friction) <= Qabs a).
    { rewrite friction_value. apply Qabs_shrink; lra. }
    destruct (mul_error vk Double.friction IHf friction_finite) as [Ff Fe].
    { fold a W. lra. }
    split; [exact Ff|]. fold a in Fe.
    rewrite eps64_value in Fe.
    assert (Fe' : Qabs (valueOf (vk * Double.friction) - a * valueOf Double.friction)
                  <= (1 # 9007199254740992) * Qabs a + eta64).
    { eapply Qle_trans; [exact Fe|].
      assert (0 <= Qabs a - Qabs (a * valueOf Double.friction)) by lra.
      lra. }
    clear Fe. rewrite friction_value in Fe'. apply Qabs_le_iff in Fe'.
    set (a' := valueOf (vk * Double.friction)) in *.
    assert (E : valueOf v0 * (p * 0.95) == V * 0.95) by (unfold V; ring).
    rewrite E. apply Qabs_le_iff.
    set (Aa := Qabs a) in *. lra.
Qed.

Lemma angle_decay (r0 v0 : float) (n : nat) :
  moderate r0 -> moderate v0 -> (Z.of_nat n <= 2 ^ 52)%Z ->
  finite (angleAfter r0 v0 n) = true /\
  Qabs (valueOf (angleAfter r0 v0 n)
        - (valueOf r0 + valueOf v0 * (1 - 0.95 ^ Z.of_nat n) / (1 - 0.95)))
    <= inject_Z (Z.of_nat n) * angleTolerance (valueOf r0) (valueOf v0).
Proof.
  intros [Fr Br] Hv Hn. pose proof Hv as [Fv Bv].
  pose proof eta64_pos as He. pose proof eta64_small as Hs.
  destruct big_values as [HB1 HB2].
  destruct (Qabs_bounds (valueOf v0)) as (A1 & A2 & A3).
  destruct (Qabs_bounds (valueOf r0)) as (R1 & R2 & R3).
  unfold angleTolerance. rewrite eps64_value.
  set (A0 := Qabs (valueOf v0)) in *. set (Ar := Qabs (valueOf r0)) in *.
  set (B := 2 ^ 500) in *. set (W := 2 ^ 1022) in *.
  set (T := 2 * (1 # 9007199254740992) * Ar + 256 * (1 # 9007199254740992) * A0
            + 128 * eta64).
  assert (ET : T == 2 * (1 # 9007199254740992) * Ar
                    + 256 * (1 # 9007199254740992) * A0 + 128 * eta64)
    by reflexivity.
  clearbody T.
  induction n as [|n IH].
  - split; [exact Fr|]. cbn [angleAfter].
    change (0.95 ^ Z.of_nat 0) with 1. change (inject_Z (Z.of_nat 0)) with 0.
    assert (E : valueOf r0 - (valueOf r0 + valueOf v0 * (1 - 1) / (1 - 0.95)) == 0)
      by (field; lra).
    rewrite E. change (Qabs 0) with 0. lra.
  - destruct IH as [IHf IHe]; [lia|].
    destruct (velocity_decay v0 n Hv) as [Vf Ve].
    unfold velocityTolerance in Ve. rewrite eps64_value in Ve. fold A0 in Ve.
    cbn [angleAfter]. rewrite pow95_succ.
    destruct (pow95_range n) as [P0 P1].
    set (p := 0.95 ^ Z.of_nat n) in *.
    set (rk := angleAfter r0 v0 n) in *. set (vk := velocityAfter v0 n) in *.
    set (K := inject_Z (Z.of_nat n)) in *.
    assert (HK0 : 0 <= K).
    { unfold K. change 0 with (inject_Z 0). rewrite <- Zle_Qle. lia. }
    assert (HK : K <= 4503599627370496).
    { unfold K. change 4503599627370496 with (inject_Z (2 ^ 52)).
      rewrite <- Zle_Qle. lia. }
    assert (HT : 0 <= T) by lra.
    assert (HF0 : 0 <= K * T) by (apply Qmult_le_0_compat; assumption).
    assert (HF : K * T <= 4503599627370496 * T)
      by (apply Qmult_le_compat_r; assumption).
    assert (EK : inject_Z (Z.of_nat (S n)) * T == K * T + T).
    { rewrite Nat2Z.inj_succ, <- Z.add_1_r, inject_Z_plus. fold K.
      change (inject_Z 1) with 1. ring. }
    rewrite EK. set (F := K * T) in *. clearbody F K.
    (* the exact sums *)
    pose proof (Qabs_shrink (valueOf v0) (1 - p * 0.95)) as Hq.
    fold A0 in Hq. apply Qabs_le_iff in Hq; [|lra|lra].
    set (q := valueOf v0 * (1 - p * 0.95)) in *.
    assert (ER : valueOf r0 + q / (1 - 0.95) == valueOf r0 + 20 * q) by (field; lra).
    assert (ES : valueOf r0 + valueOf v0 * (1 - p) / (1 - 0.95) + valueOf v0 * p
                 == valueOf r0 + 20 * q) by (unfold q; field; lra).
    rewrite ER.
    set (Rk := valueOf r0 + valueOf v0 * (1 - p) / (1 - 0.95)) in *.
    set (Vk := valueOf v0 * p) in *.
    set (rho := valueOf rk) in *. set (a := valueOf vk) in *.
    clearbody q Rk Vk.
    apply Qabs_le_iff in IHe, Ve.
    assert (Hsum : Qabs (rho + a)
                   <= Ar + 20 * A0 + F + (64 * (1 # 9007199254740992) * A0 + 32 * eta64)).
    { apply Qabs_le_iff. lra. }
    destruct (add_error rk vk IHf Vf) as [Af Ae].
    { fold rho a W. lra. }
    split; [exact Af|]. fold rho a in Ae. rewrite eps64_value in Ae.
    apply Qabs_le_iff in Ae. apply Qabs_le_iff.
    set (r' := valueOf (rk + vk)) in *. set (S := Qabs (rho + a)) in *.
    clearbody r' S rho a. lra.
Qed.

(** *** Friction on the grid of doubles *)

(** Every finite double is a whole number of steps of 2^-1074. *)
Lemma double_grid (x : float) :
  finite x = true -> exists k : Z, valueOf x == inject_Z k * 2 ^ (-1074).
Proof.
  unfold finite, valueOf. pose proof (Prim2SF_valid x) as Hv.
  destruct (Prim2SF x) as [s|s| |s m e]; try discriminate; intros _.
  - exists 0%Z. cbn [SF2Q]. change (inject_Z 0) with 0. ring.
  - destruct (valid_finite s m e Hv) as [Hf _].
    unfold fexp, SpecFloat.emin, emax, prec in Hf. stdlib_Z.
    assert (He : (0 <= e + 1074)%Z) by lia.
    exists ((if s then -1 else 1) * (Zpos m * 2 ^ (e + 1074)))%Z.
    rewrite SF2Q_finite, !inject_Z_mult, pow2_Z by exact He.
    assert (Ee : 2 ^ e == 2 ^ (e + 1074) * 2 ^ (-1074)).
    { rewrite <- pow2_add. now replace (e + 1074 + -1074)%Z with e by lia. }
    rewrite Ee. destruct s; cbn [sgn].
    + change (inject_Z (-1)) with (-1). ring.
    + change (inject_Z 1) with 1. ring.
Qed.

Lemma half_step : 2 * eta64 == 2 ^ (-1074).
Proof. vm_compute. reflexivity. Qed.

Lemma grid_le (k k' : Z) (u : Q) :
  0 < u -> inject_Z k' * u <= inject_Z k * u + (1 # 2) * u -> (k' <= k)%Z.
Proof.
  intros Hu H.
  assert (H1 : inject_Z k' < inject_Z k + 1).
  { apply Qnot_le_lt. intros Hc.
    assert ((inject_Z k + 1) * u <= inject_Z k' * u)
      by (apply Qmult_le_compat_r; lra).
    assert (E : (inject_Z k + 1) * u == inject_Z k * u + u) by ring.
    lra. }
  change 1 with (inject_Z 1) in H1. rewrite <- inject_Z_plus, <- Zlt_Qlt in H1.
  lia.
Qed.

Lemma Qabs_grid (k : Z) (u : Q) : 0 < u -> Qabs (inject_Z k * u) == inject_Z (Z.abs k) * u.
Proof.
  intros Hu. rewrite Qabs_Qmult, (Qabs_pos u) by lra.
  apply Qmult_comp; [|reflexivity]. unfold Qabs, inject_Z. reflexivity.
Qed.

(** Friction never speeds the cube up, rounding included. *)
Lemma friction_shrinks (v : float) :
  moderate v ->
  moderate (v * Double.friction) /\
  Qabs (valueOf (v * Double.friction)) <= Qabs (valueOf v).
Proof.
  intros [Fv Bv].
  pose proof eta64_pos as Hn. destruct big_values as [HB1 HB2].
  destruct (Qabs_bounds (valueOf v)) as (A1 & A2 & A3).
  assert (Hz : Qabs (valueOf v * valueOf Double.friction) 
               == Qabs (valueOf v) * (8556839292003942 # 9007199254740992)).
  { rewrite friction_value, Qabs_Qmult. reflexivity. }
  destruct (mul_error v Double.friction Fv friction_finite) as [Ff Fe].
  { rewrite Hz. set (A := Qabs (valueOf v)) in *.
    set (B := 2 ^ 500) in *. set (W := 2 ^ 1022) in *. lra. }
  rewrite Hz, eps64_value in Fe.
  assert (Hle : Qabs (valueOf (v * Double.friction)) <= Qabs (valueOf v)).
  { destruct (double_grid v Fv) as [k Hk].
    destruct (double_grid _ Ff) as [k' Hk'].
    pose proof (pow2_pos (-1074)) as Hu. pose proof half_step as Hh.
    set (u := 2 ^ (-1074)) in *.
    assert (Ea : Qabs (valueOf v) == inject_Z (Z.abs k) * u)
      by (rewrite Hk; now apply Qabs_grid).
    assert (Ea' : Qabs (valueOf (v * Double.friction)) == inject_Z (Z.abs k') * u)
      by (rewrite Hk'; now apply Qabs_grid).
    rewrite Ea, Ea'.
    assert (Hkk : (Z.abs k' <= Z.abs k)%Z).
    { apply (grid_le _ _ u Hu). rewrite <- Ea, <- Ea'.
      apply Qabs_le_iff in Fe.
      destruct (Qabs_bounds (valueOf (v * Double.friction))) as (C1 & C2 & C3).
      destruct (Qabs_bounds (valueOf v * valueOf Double.friction)) as (Z1 & Z2 & Z3).
      rewrite Hz in Z1, Z2.
      set (a' := valueOf (v * Double.friction)) in *.
      set (z := valueOf v * valueOf Double.friction) in *.
      set (A := Qabs (valueOf v)) in *.
      assert (Ha' : Qabs a' <= A * (8556839292003942 # 9007199254740992)
                     + ((1 # 9007199254740992) * (A * (8556839292003942 # 9007199254740992)) + eta64)).
      { apply Qabs_le_iff. lra. }
      set (A' := Qabs a') in *. lra. }
    apply Qmult_le_compat_r; [|lra]. rewrite <- Zle_Qle. exact Hkk. }
  split; [split; [exact Ff|]|exact Hle].
  eapply Qle_trans; [exact Hle | exact Bv].
Qed.

(** A velocity that is not zero is never scaled to zero. *)
Lemma friction_keeps_nonzero (v : float) :
  moderate v -> ~ valueOf v == 0 -> ~ valueOf (v * Double.friction) == 0.
Proof.
  intros [Fv Bv] Hnz Hz0.
  pose proof eta64_pos as Hn. destruct big_values as [HB1 HB2].
  assert (Hz : Qabs (valueOf v * valueOf Double.friction) 
               == Qabs (valueOf v) * (8556839292003942 # 9007199254740992)).
  { rewrite friction_value, Qabs_Qmult. reflexivity. }
  destruct (Qabs_bounds (valueOf v)) as (A1 & A2 & A3).
  destruct (mul_error v Double.friction Fv friction_finite) as [Ff Fe].
  { rewrite Hz. set (A := Qabs (valueOf v)) in *.
    set (B := 2 ^ 500) in *. set (W := 2 ^ 1022) in *. lra. }
  rewrite Hz, eps64_value, Hz0 in Fe.
  destruct (double_grid v Fv) as [k Hk].
  pose proof (pow2_pos (-1074)) as Hu. pose proof half_step as Hh.
  set (u := 2 ^ (-1074)) in *.
  assert (Ea : Qabs (valueOf v) == inject_Z (Z.abs k) * u)
    by (rewrite Hk; now apply Qabs_grid).
  assert (Hk1 : (1 <= Z.abs k)%Z).
  { destruct (Z.eq_dec k 0) as [->|]; [|lia].
    exfalso. apply Hnz. rewrite Hk. change (inject_Z 0) with 0. ring. }
  assert (Hku : u <= Qabs (valueOf v)).
  { rewrite Ea. rewrite Zle_Qle in Hk1. change (inject_Z 1) with 1 in Hk1.
    assert (1 * u <= inject_Z (Z.abs k) * u) by (apply Qmult_le_compat_r; lra).
    lra. }
  assert (E0 : 0 - valueOf v * valueOf Double.friction
               == - (valueOf v * valueOf Double.friction)) by ring.
  rewrite E0, Qabs_opp, Hz in Fe.
  set (A := Qabs (valueOf v)) in *. lra.
Qed.

Lemma velocity_never_grows (v0 : float) (n : nat) :
  moderate v0 ->
  moderate (velocityAfter v0 n) /\
  Qabs (valueOf (velocityAfter v0 (S n))) <= Qabs (valueOf (velocityAfter v0 n)) /\
  Qabs (valueOf (velocityAfter v0 n)) <= Qabs (valueOf v0) /\
  (~ valueOf v0 == 0 -> ~ valueOf (velocityAfter v0 n) == 0).
Proof.
  intros M0. induction n as [|n (IM & _ & IB & IN)].
  - cbn [velocityAfter]. destruct (friction_shrinks v0 M0) as [_ H].
    repeat split; [apply M0 | apply M0 | exact H | lra | tauto].
  - destruct (friction_shrinks _ IM) as [M1 H1].
    destruct (friction_shrinks _ M1) as [_ H2].
    cbn [velocityAfter] in *.
    split; [exact M1|]. split; [exact H2|]. split; [lra|].
    intros H. apply friction_keeps_nonzero; [exact IM | exact (IN H)].
Qed.

Lemma partial_sum_bound (v : Q) (n : nat) :
  Qabs (v * (1 - 0.95 ^ Z.of_nat n) / (1 - 0.95)) <= 20 * Qabs v.
Proof.
  destruct (pow95_range n) as [P0 P1].
  set (p := 0.95 ^ Z.of_nat n) in *.
  assert (E : v * (1 - p) / (1 - 0.95) == (20 * (1 - p)) * v) by field.
  rewrite E, Qabs_Qmult, (Qabs_pos (20 * (1 - p))) by lra.
  pose proof (Qabs_nonneg v) as Hv.
  assert (0 <= (20 * p) * Qabs v) by (apply Qmult_le_0_compat; lra).
  lra.
Qed.

Lemma axis_travel (r0 v0 : float) (n : nat) :
  moderate r0 -> moderate v0 -> (Z.of_nat n <= 2 ^ 52)%Z ->
  Qabs (valueOf (angleAfter r0 v0 n) - valueOf r0)
    <= 20 * Qabs (valueOf v0)
       + inject_Z (Z.of_nat n) * angleTolerance (valueOf r0) (valueOf v0).
Proof.
  intros Mr Mv Hn.
  destruct (angle_decay r0 v0 n Mr Mv Hn) as [_ E].
  pose proof (partial_sum_bound (valueOf v0) n) as P.
  apply Qabs_le_iff in E, P. apply Qabs_le_iff.
  set (s := valueOf v0 * (1 - 0.95 ^ Z.of_nat n) / (1 - 0.95)) in *.
  lra.
Qed.

(** ** Double precision: pointer moves *)

Lemma Qsum_app (l1 l2 : list Q) : Qsum (l1 ++ l2) == Qsum l1 + Qsum l2.
Proof.
  induction l1 as [|a l1 IH]; cbn [Datatypes.app Qsum foldr].
  - unfold Qsum. cbn. ring.
  - unfold Qsum in *. cbn [foldr]. rewrite IH. ring.
Qed.

Lemma last_cons_default {A : Type} (a : A) (l : list A) (d d' : A) :
  List.last (a :: l) d = List.last (a :: l) d'.
Proof.
  revert a. induction l as [|b l IH]; intros a; [reflexivity|].
  change (List.last (b :: l) d = List.last (b :: l) d'). apply IH.
Qed.

Lemma steps_snoc (x : Q) (xs : list Q) (x' : Q) :
  steps x (xs ++ [x']) = steps x xs ++ [x' - List.last xs x].
Proof.
  revert x. induction xs as [|a xs IH]; intros x; [reflexivity|].
  cbn [Datatypes.app steps]. rewrite IH.
  destruct xs as [|b xs]; [reflexivity|].
  now rewrite (last_cons_default b xs a x).
Qed.

Lemma last_map {A B : Type} (f : A -> B) (l : list A) (d : A) :
  List.last (map f l) (f d) = f (List.last l d).
Proof.
  induction l as [|a l IH]; [reflexivity|].
  destruct l as [|b l]; [reflexivity|]. exact IH.
Qed.

Lemma last_Forall {A : Type} (P : A -> Prop) (l : list A) (d : A) :
  P d -> Forall P l -> P (List.last l d).
Proof.
  intros Hd H. induction H as [|a l Ha Hl IH]; [exact Hd|].
  destruct l; [exact Ha | exact IH].
Qed.

Lemma Qsum_abs_nonneg (l : list Q) : 0 <= Qsum (map Qabs l).
Proof.
  induction l as [|a l IH]; unfold Qsum in *; cbn [map foldr]; [lra|].
  pose proof (Qabs_nonneg a). lra.
Qed.

Lemma Qsum_scaled_abs (l : list Q) :
  Qabs (Qsum (map (fun d => d * 0.01) l)) <= 0.01 * Qsum (map Qabs l).
Proof.
  induction l as [|a l IH]; unfold Qsum in *; cbn [map foldr].
  - change (Qabs 0) with 0. lra.
  - apply Qabs_le_iff in IH. destruct (Qabs_bounds a) as (A1 & A2 & A3).
    apply Qabs_le_iff. lra.
Qed.

Lemma steps_abs_bound (b : Q) (x : Q) (xs : list Q) :
  Qabs x <= b -> Forall (fun x => Qabs x <= b) xs ->
  Qsum (map Qabs (steps x xs)) <= inject_Z (Z.of_nat (length xs)) * (2 * b).
Proof.
  intros Hx H. revert x Hx. induction H as [|a l Ha Hl IH]; intros x Hx.
  - unfold Qsum. cbn [steps map foldr length Z.of_nat].
    change (inject_Z (Z.of_nat 0)) with 0. lra.
  - cbn [steps map length]. unfold Qsum in *. cbn [foldr].
    rewrite Nat2Z.inj_succ, <- Z.add_1_r, inject_Z_plus.
    change (inject_Z 1) with 1. specialize (IH a Ha).
    apply Qabs_le_iff in Hx, Ha.
    assert (Qabs (a - x) <= 2 * b) by (apply Qabs_le_iff; lra).
    set (K := inject_Z (Z.of_nat (length l))) in *. 
    assert (E : (K + 1) * (2 * b) == K * (2 * b) + 2 * b) by ring.
    rewrite E. lra.
Qed.

Lemma dragAxis_snoc (y l : float) (xs : list float) (x : float) :
  dragAxis y l (xs ++ [x]) = dragStep (dragAxis y l xs) x.
Proof. unfold dragAxis. now rewrite foldl_app. Qed.

Lemma dragAxis_last (y l : float) (xs : list float) :
  snd (dragAxis y l xs) = List.last xs l.
Proof.
  induction xs as [|x xs IH] using rev_ind; [reflexivity|].
  rewrite dragAxis_snoc. cbn [dragStep snd]. now rewrite List.last_last.
Qed.

Lemma hundredth_value : valueOf 0.01%float == 5764607523034235 # 576460752303423488.
Proof. vm_compute. reflexivity. Qed.

Lemma hundredth_finite : finite 0.01%float = true.
Proof. vm_compute. reflexivity. Qed.

Lemma big_values' : 2 ^ 70 * 2 ^ 500 <= 2 ^ 1022.
Proof. rewrite <- pow2_add. apply pow2_le. lia. Qed.

Lemma drag_axis_tolerance (y0 l0 : float) (xs : list float) :
  moderate y0 -> moderate l0 -> Forall moderate xs ->
  (Z.of_nat (length xs) <= 2 ^ 52)%Z ->
  let ds := steps (valueOf l0) (map valueOf xs) in
  finite (fst (dragAxis y0 l0 xs)) = true /\
  Qabs (valueOf (fst (dragAxis y0 l0 xs))
        - (valueOf y0 + Qsum (map (fun d => d * 0.01) ds)))
    <= inject_Z (Z.of_nat (length xs))
       * dragTolerance (valueOf y0) (Qsum (map Qabs ds)).
Proof.
  intros [Fy By] Hl Hxs Hn. cbv zeta.
  pose proof eta64_pos as He. pose proof eta64_small as Hs.
  destruct big_values as [HB1 HB2]. pose proof big_values' as HB3.
  destruct (Qabs_bounds (valueOf y0)) as (Y1 & Y2 & Y3).
  unfold dragTolerance. rewrite eps64_value.
  set (Ay := Qabs (valueOf y0)) in *.
  set (B := 2 ^ 500) in *. set (W := 2 ^ 1022) in *.
  change (2 ^ 70) with 1180591620717411303424 in HB3.
  induction xs as [|x xs IH] using rev_ind.
  - split; [exact Fy|]. unfold Qsum. cbn [dragAxis foldl fst map steps foldr length].
    change (inject_Z (Z.of_nat 0)) with 0.
    assert (E : valueOf y0 - (valueOf y0 + 0) == 0) by ring.
    rewrite E. change (Qabs 0) with 0. lra.
  - apply Forall_app in Hxs as [Hxs Hx]. apply Forall_cons_1 in Hx as [[Fx Bx] _].
    rewrite length_app, Nat.add_1_r in *.
    destruct (IH Hxs) as [IHf IHe]; [lia|]. clear IH.
    rewrite dragAxis_snoc. unfold dragStep. cbn [fst snd].
    rewrite dragAxis_last.
    rewrite map_app. cbn [map]. rewrite steps_snoc, (last_map valueOf xs l0).
    rewrite !map_app, !Qsum_app. cbn [map]. unfold Qsum at 2 4. cbn [foldr].
    pose proof (steps_abs_bound B (valueOf l0) (map valueOf xs)) as HS.
    rewrite length_map in HS.
    assert (HS' : Qsum (map Qabs (steps (valueOf l0) (map valueOf xs)))
                  <= inject_Z (Z.of_nat (length xs)) * (2 * B)).
    { apply HS; [apply Hl|]. apply Forall_map.
      eapply Forall_impl; [exact Hxs|]. intros a [_ Ha]. exact Ha. }
    clear HS.
    pose proof (Qsum_abs_nonneg (steps (valueOf l0) (map valueOf xs))) as HS0.
    pose proof (Qsum_scaled_abs (steps (valueOf l0) (map valueOf xs))) as HSig.
    apply Qabs_le_iff in HSig.
    set (Sk := Qsum (map Qabs (steps (valueOf l0) (map valueOf xs)))) in *.
    set (Sig := Qsum (map (fun d => d * 0.01) (steps (valueOf l0) (map valueOf xs)))) in *.
    clearbody Sk Sig.
    assert (Hlk : moderate (List.last xs l0)) by (apply last_Forall; assumption).
    destruct Hlk as [Fl Bl].
    set (lk := List.last xs l0) in *. set (yk := fst (dragAxis y0 l0 xs)) in *.
    clearbody lk yk.
    set (K := inject_Z (Z.of_nat (length xs))) in *.
    assert (HK0 : 0 <= K).
    { unfold K. change 0 with (inject_Z 0). rewrite <- Zle_Qle. lia. }
    assert (HK : K <= 4503599627370496).
    { unfold K. change 4503599627370496 with (inject_Z (2 ^ 52)).
      rewrite <- Zle_Qle. lia. }
    assert (EK : inject_Z (Z.of_nat (S (length xs))) == K + 1).
    { rewrite Nat2Z.inj_succ, <- Z.add_1_r, inject_Z_plus. reflexivity. }
    rewrite EK. clearbody K.
    (* the exact delta of this move *)
    set (D := valueOf x - valueOf lk) in *.
    destruct (Qabs_bounds D) as (D1 & D2 & D3).
    apply Qabs_le_iff in Bx, Bl.
    fold B in Bx, Bl.
    assert (HD : Qabs D <= 2 * B) by (apply Qabs_le_iff; unfold D; lra).
    set (AD := Qabs D) in *.
    (* the tolerances before and after this move *)
    set (Tk := 2 * (1 # 9007199254740992) * Ay
               + 16 * (1 # 9007199254740992) * (0.01 * Sk) + 8 * eta64) in *.
    set (T' := 2 * (1 # 9007199254740992) * Ay
               + 16 * (1 # 9007199254740992) * (0.01 * (Sk + (AD + 0))) + 8 * eta64).
    assert (ETk : Tk == 2 * (1 # 9007199254740992) * Ay
                  + 16 * (1 # 9007199254740992) * (0.01 * Sk) + 8 * eta64)
      by reflexivity.
    assert (ET' : T' == 2 * (1 # 9007199254740992) * Ay
                  + 16 * (1 # 9007199254740992) * (0.01 * (Sk + (AD + 0))) + 8 * eta64)
      by reflexivity.
    clearbody Tk T'.
    assert (HTk : 0 <= Tk) by lra.
    assert (HTT : Tk <= T') by lra.
    assert (HF1 : K * Tk <= K * T').
    { assert (0 <= K * (T' - Tk)) by (apply Qmult_le_0_compat; lra). lra. }
    assert (HF2 : K * T' <= 4503599627370496 * T')
      by (apply Qmult_le_compat_r; lra).
    assert (HS2 : K * (2 * B) <= 4503599627370496 * (2 * B))
      by (apply Qmult_le_compat_r; lra).
    assert (EG : (K + 1) * T' == K * T' + T') by ring.
    rewrite EG.
    set (F := K * Tk) in *. set (F' := K * T') in *. set (G := K * (2 * B)) in *.
    clearbody F F' G.
    (* the three roundings *)
    destruct (sub_error x lk Fx Fl) as [Fd Ed].
    { fold D AD W. lra. }
    fold D AD in Ed. rewrite eps64_value in Ed. apply Qabs_le_iff in Ed.
    set (d := valueOf (x - lk)) in *.
    assert (Hd : Qabs d <= 2 * AD + 1) by (apply Qabs_le_iff; lra).
    assert (Hdc : Qabs (d * valueOf 0.01%float) == Qabs d * (5764607523034235 # 576460752303423488)).
    { rewrite hundredth_value, Qabs_Qmult. reflexivity. }
    destruct (mul_error (x - lk) 0.01 Fd hundredth_finite) as [Fw Ew].
    { fold d W. rewrite Hdc. set (A := Qabs d) in *. lra. }
    fold d in Ew. rewrite Hdc, eps64_value, hundredth_value in Ew.
    apply Qabs_le_iff in Ew.
    assert (Hd' : Qabs d <= AD + ((1 # 9007199254740992) * AD + eta64))
      by (apply Qabs_le_iff; lra).
    set (Ad := Qabs d) in *.
    set (w := valueOf ((x - lk) * 0.01)) in *.
    apply Qabs_le_iff in IHe. set (rho := valueOf yk) in *.
    assert (Hsum : Qabs (rho + w)
                   <= Ay + 0.01 * (Sk + AD) + F
                      + (4 * (1 # 9007199254740992) * (0.01 * AD) + 2 * eta64)).
    { apply Qabs_le_iff. clearbody d Ad w rho D AD. lra. }
    destruct (add_error yk ((x - lk) * 0.01) IHf Fw) as [Fy' Ey].
    { fold rho w W. clearbody d Ad w rho D AD. lra. }
    split; [exact Fy'|]. fold rho w in Ey. rewrite eps64_value in Ey.
    apply Qabs_le_iff in Ey. apply Qabs_le_iff.
    set (y' := valueOf (yk + (x - lk) * 0.01)) in *.
    set (Sm := Qabs (rho + w)) in *.
    clearbody d Ad w rho D AD y' Sm. lra.
Qed.

Lemma steps_telescope (x : Q) (xs : list Q) :
  Qsum (map (fun d => d * 0.01) (steps x xs)) == (List.last xs x - x) * 0.01.
Proof.
  revert x. induction xs as [|x' r IH]; intros x.
  - unfold Qsum. cbn [steps map foldr List.last]. ring.
  - cbn [steps map]. unfold Qsum. cbn [foldr]. fold (Qsum (map (fun d => d * 0.01) (steps x' r))).
    rewrite IH, (last_cons_default x' r x x').
    assert (E : List.last (x' :: r) x' = List.last r x') by (destruct r; reflexivity).
    rewrite E. ring.
Qed.

(** ** Double precision: the rotation state *)

Lemma ticks_succ (n : nat) (g : Double.Globals) :
  Double.ticks (S n) g = Double.renderGlobals (Double.ticks n g).
Proof. reflexivity. Qed.

(** While idle, the two axes decay independently of each other. *)
Lemma ticks_axes (n : nat) (g : Double.Globals) :
  Double.dragging g = false ->
  let g' := Double.ticks n g in
  Double.dragging g' = false /\
  Double.rotationX g' = angleAfter (Double.rotationX g) (Double.velocityX g) n /\
  Double.velocityX g' = velocityAfter (Double.velocityX g) n /\
  Double.rotationY g' = angleAfter (Double.rotationY g) (Double.velocityY g) n /\
  Double.velocityY g' = velocityAfter (Double.velocityY g) n.
Proof.
  intros Hd. cbv zeta. induction n as [|n (D & RX & VX & RY & VY)].
  - repeat split. exact Hd.
  - rewrite ticks_succ. unfold Double.renderGlobals. rewrite D.
    cbn [negb Double.dragging Double.rotationX Double.rotationY
         Double.velocityX Double.velocityY angleAfter velocityAfter].
    rewrite RX, VX, RY, VY. repeat split.
Qed.

Lemma double_moves_cons (e : Double.MouseEvent) (es : list Double.MouseEvent)
  (g : Double.Globals) :
  Double.moves (e :: es) g = Double.moves es (Double.onMouseMove e g).
Proof. reflexivity. Qed.

(** While dragging, each axis follows its own coordinate. *)
Lemma moves_axes (es : list Double.MouseEvent) (g : Double.Globals) :
  Double.dragging g = true ->
  let g' := Double.moves es g in
  Double.dragging g' = true /\
  (Double.rotationY g', Double.lastMouseX g')
  = dragAxis (Double.rotationY g) (Double.lastMouseX g) (map Double.clientX es) /\
  (Double.rotationX g', Double.lastMouseY g')
  = dragAxis (Double.rotationX g) (Double.lastMouseY g) (map Double.clientY es).
Proof.
  revert g. induction es as [|e es IH]; intros g Hd; cbv zeta.
  - repeat split. exact Hd.
  - rewrite double_moves_cons.
    assert (Hd' : Double.dragging (Double.onMouseMove e g) = true).
    { unfold Double.onMouseMove. rewrite Hd. reflexivity. }
    destruct (IH _ Hd') as (D & A & B). split; [exact D|].
    rewrite A, B. unfold Double.onMouseMove. rewrite Hd.
    cbn [negb Double.rotationX Double.rotationY Double.lastMouseX Double.lastMouseY map].
    split; reflexivity.
Qed.

(** While the button is down, frame ticks leave the rotation state alone:
    only the moves count. *)
Lemma held_run_moves (evs : list Double.Event) (g : Double.Globals) :
  Double.dragging g = true ->
  forallb Double.whileHeld evs = true ->
  Double.dispatchAll g evs = Double.moves (Double.movesOf evs) g.
Proof.
  unfold Double.dispatchAll, Double.moves. revert g.
  induction evs as [|ev evs IH]; intros g Hd Hh; [reflexivity|].
  cbn [forallb] in Hh. apply andb_true_iff in Hh as [Hev Hh].
  destruct ev as [e| |e|now]; try discriminate Hev; cbn [foldl Double.dispatch Double.movesOf].
  - apply IH; [|exact Hh]. unfold Double.onMouseMove. rewrite Hd. reflexivity.
  - assert (E : Double.renderGlobals g = g)
      by (unfold Double.renderGlobals; now rewrite Hd).
    rewrite E. now apply IH.
Qed.

Lemma moderate_finite (x : float) : moderate x -> finite x = true.
Proof. now intros [H _]. Qed.

Lemma Qabs_triangle_sub (x y z : Q) : Qabs (x - z) <= Qabs (x - y) + Qabs (y - z).
Proof.
  assert (E : x - z == (x - y) + (y - z)) by ring.
  rewrite E. apply Qabs_triangle.
Qed.

(** How far the partial geometric sum is from its limit. *)
Lemma limit_distance (r v : Q) (n : nat) :
  Qabs (r + v * (1 - 0.95 ^ Z.of_nat n) / (1 - 0.95) - (r + v / (1 - 0.95)))
  == Qabs v * 0.95 ^ Z.of_nat n / (1 - 0.95).
Proof.
  pose proof (friction_pow_pos n) as Hp. unfold friction in Hp.
  set (p := 0.95 ^ Z.of_nat n) in *.
  assert (E : r + v * (1 - p) / (1 - 0.95) - (r + v / (1 - 0.95))
              == (-(20 * p)) * v) by field.
  rewrite E, Qabs_Qmult, Qabs_opp, (Qabs_pos (20 * p)) by lra. field.
Qed.

(** C1, in the arithmetic of the script. After pointer-up, from angles and
    velocities far from overflow, [N] idle ticks leave each angular velocity
    within 2^-47 |velocity_0| + 2^-1070 of velocity_0 * 0.95^N and each angle
    within N (2^-52 |angle_0| + 2^-45 |velocity_0| + 2^-1068) of
    angle_0 + velocity_0 * (1 - 0.95^N) / (1 - 0.95); that sum is
    |velocity_0| * 0.95^N / (1 - 0.95) away from
    angle_0 + velocity_0 / (1 - 0.95), a distance that falls under every
    positive bound as N grows, so the computed angle nears that limit up to
    the tolerance; and one idle tick adds the velocity it finds to the angle
    before it scales the velocity by 0.95, each result rounded to a double. *)
Theorem idle_ticks_decay (g : Double.Globals) :
  Double.dragging g = false ->
  moderate (Double.rotationX g) -> moderate (Double.rotationY g) ->
  moderate (Double.velocityX g) -> moderate (Double.velocityY g) ->
  let rx := valueOf (Double.rotationX g) in
  let ry := valueOf (Double.rotationY g) in
  let vx := valueOf (Double.velocityX g) in
  let vy := valueOf (Double.velocityY g) in
  (forall n : nat, (Z.of_nat n <= 2 ^ 52)%Z ->
     let g' := Double.ticks n g in
     finite (Double.velocityX g') = true /\ finite (Double.velocityY g') = true /\
     finite (Double.rotationX g') = true /\ finite (Double.rotationY g') = true /\
     Qabs (valueOf (Double.velocityX g') - vx * 0.95 ^ Z.of_nat n)
       <= velocityTolerance vx /\
     Qabs (valueOf (Double.velocityY g') - vy * 0.95 ^ Z.of_nat n)
       <= velocityTolerance vy /\
     Qabs (valueOf (Double.rotationX g')
           - (rx + vx * (1 - 0.95 ^ Z.of_nat n) / (1 - 0.95)))
       <= inject_Z (Z.of_nat n) * angleTolerance rx vx /\
     Qabs (valueOf (Double.rotationY g')
           - (ry + vy * (1 - 0.95 ^ Z.of_nat n) / (1 - 0.95)))
       <= inject_Z (Z.of_nat n) * angleTolerance ry vy) /\
  (forall n : nat, (Z.of_nat n <= 2 ^ 52)%Z ->
     let g' := Double.ticks n g in
     Qabs (valueOf (Double.rotationX g') - (rx + vx / (1 - 0.95)))
       <= Qabs vx * 0.95 ^ Z.of_nat n / (1 - 0.95)
          + inject_Z (Z.of_nat n) * angleTolerance rx vx /\
     Qabs (valueOf (Double.rotationY g') - (ry + vy / (1 - 0.95)))
       <= Qabs vy * 0.95 ^ Z.of_nat n / (1 - 0.95)
          + inject_Z (Z.of_nat n) * angleTolerance ry vy) /\
  (forall eps : Q, 0 < eps ->
     exists N0 : nat, forall n : nat, (N0 <= n)%nat ->
       Qabs vx * 0.95 ^ Z.of_nat n / (1 - 0.95) <= eps /\
       Qabs vy * 0.95 ^ Z.of_nat n / (1 - 0.95) <= eps) /\
  (Double.rotationX (Double.renderGlobals g)
   = (Double.rotationX g + Double.velocityX g)%float /\
   Double.rotationY (Double.renderGlobals g)
   = (Double.rotationY g + Double.velocityY g)%float /\
   Double.velocityX (Double.renderGlobals g) = (Double.velocityX g * 0.95)%float /\
   Double.velocityY (Double.renderGlobals g) = (Double.velocityY g * 0.95)%float).
Proof.
  intros Hd Mrx Mry Mvx Mvy. cbv zeta.
  assert (Hn : forall n : nat, (Z.of_nat n <= 2 ^ 52)%Z ->
     finite (Double.velocityX (Double.ticks n g)) = true /\
     finite (Double.velocityY (Double.ticks n g)) = true /\
     finite (Double.rotationX (Double.ticks n g)) = true /\
     finite (Double.rotationY (Double.ticks n g)) = true /\
     Qabs (valueOf (Double.velocityX (Double.ticks n g))
           - valueOf (Double.velocityX g) * 0.95 ^ Z.of_nat n)
       <= velocityTolerance (valueOf (Double.velocityX g)) /\
     Qabs (valueOf (Double.velocityY (Double.ticks n g))
           - valueOf (Double.velocityY g) * 0.95 ^ Z.of_nat n)
       <= velocityTolerance (valueOf (Double.velocityY g)) /\
     Qabs (valueOf (Double.rotationX (Double.ticks n g))
           - (valueOf (Double.rotationX g)
              + valueOf (Double.velocityX g) * (1 - 0.95 ^ Z.of_nat n) / (1 - 0.95)))
       <= inject_Z (Z.of_nat n)
          * angleTolerance (valueOf (Double.rotationX g)) (valueOf (Double.velocityX g)) /\
     Qabs (valueOf (Double.rotationY (Double.ticks n g))
           - (valueOf (Double.rotationY g)
              + valueOf (Double.velocityY g) * (1 - 0.95 ^ Z.of_nat n) / (1 - 0.95)))
       <= inject_Z (Z.of_nat n)
          * angleTolerance (valueOf (Double.rotationY g)) (valueOf (Double.velocityY g))).
  { intros n Hle.
    destruct (ticks_axes n g Hd) as (_ & RX & VX & RY & VY).
    rewrite RX, VX, RY, VY.
    destruct (velocity_decay (Double.velocityX g) n Mvx) as [F1 E1].
    destruct (velocity_decay (Double.velocityY g) n Mvy) as [F2 E2].
    destruct (angle_decay _ _ n Mrx Mvx Hle) as [F3 E3].
    destruct (angle_decay _ _ n Mry Mvy Hle) as [F4 E4].
    repeat split; assumption. }
  split; [exact Hn|]. split; [|split].
  - intros n Hle.
    destruct (Hn n Hle) as (_ & _ & _ & _ & _ & _ & E3 & E4).
    split; eapply Qle_trans;
      [apply (Qabs_triangle_sub _ (valueOf (Double.rotationX g)
                + valueOf (Double.velocityX g) * (1 - 0.95 ^ Z.of_nat n) / (1 - 0.95)))
      | rewrite limit_distance; lra
      | apply (Qabs_triangle_sub _ (valueOf (Double.rotationY g)
                + valueOf (Double.velocityY g) * (1 - 0.95 ^ Z.of_nat n) / (1 - 0.95)))
      | rewrite limit_distance; lra ].
  - intros eps Heps.
    destruct (geometric_limit 0 (valueOf (Double.velocityX g)) eps Heps) as [Nx HNx].
    destruct (geometric_limit 0 (valueOf (Double.velocityY g)) eps Heps) as [Ny HNy].
    exists (Nat.max Nx Ny). intros n Hge.
    specialize (HNx n ltac:(lia)). specialize (HNy n ltac:(lia)).
    unfold friction in HNx, HNy. rewrite limit_distance in HNx, HNy.
    split; lra.
  - unfold Double.renderGlobals. rewrite Hd. repeat split.
Qed.

Lemma idle_ticks_decay_witness :
  Double.dragging double_flick = false /\
  moderate (Double.rotationX double_flick) /\
  moderate (Double.velocityX double_flick) /\
  (Z.of_nat 10 <= 2 ^ 52)%Z /\
  Qabs (valueOf (Double.velocityX (Double.ticks 10 double_flick))
        - valueOf 0.1%float * 0.95 ^ Z.of_nat 10)
    <= velocityTolerance (valueOf 0.1%float) /\
  Qabs (valueOf (Double.rotationX (Double.ticks 10 double_flick))
        - (valueOf 0.2%float + valueOf 0.1%float * (1 - 0.95 ^ Z.of_nat 10) / (1 - 0.95)))
    <= inject_Z (Z.of_nat 10) * angleTolerance (valueOf 0.2%float) (valueOf 0.1%float).
Proof.
  assert (M : forall x, finite x = true ->
            Qle_bool (Qabs (valueOf x)) (2 ^ 500) = true -> moderate x).
  { intros x F B. split; [exact F | now apply Qle_bool_imp_le]. }
  assert (Mrx : moderate (Double.rotationX double_flick))
    by (apply M; vm_compute; reflexivity).
  assert (Mry : moderate (Double.rotationY double_flick))
    by (apply M; vm_compute; reflexivity).
  assert (Mvx : moderate (Double.velocityX double_flick))
    by (apply M; vm_compute; reflexivity).
  assert (Mvy : moderate (Double.velocityY double_flick))
    by (apply M; vm_compute; reflexivity).
  assert (Hn : (Z.of_nat 10 <= 2 ^ 52)%Z) by (vm_compute; discriminate).
  split; [reflexivity|]. split; [exact Mrx|]. split; [exact Mvx|].
  split; [exact Hn|].
  destruct (proj1 (idle_ticks_decay double_flick eq_refl Mrx Mry Mvx Mvy) 10%nat Hn)
    as (_ & _ & _ & _ & V & _ & R & _).
  split; [exact V | exact R].
Defined.

(** The claim of C1 fails in the arithmetic of the script. One idle tick from
    pitch 0.2 and pitch velocity 0.1 leaves the angle at
    0.30000000000000004, which is not the sum of the two doubles, and the
    velocity at a double that is not 0.95 times the one before. A velocity of
    4.4e-323 does not decay at all: 0.95 times it rounds back to it, so after
    a thousand ticks it is what it was, and the angle, far past
    angle_0 + velocity_0 / (1 - 0.95) by then, is still moving. *)
Lemma idle_ticks_not_exact :
  let g := double_flick in
  let s := double_stalled in
  ~ valueOf (Double.rotationX (Double.renderGlobals g))
    == valueOf (Double.rotationX g) + valueOf (Double.velocityX g) /\
  Double.rotationX (Double.renderGlobals g) = 0.30000000000000004%float /\
  ~ valueOf (Double.velocityX (Double.renderGlobals g))
    == valueOf (Double.velocityX g) * 0.95 /\
  Double.velocityX (Double.ticks 1000 s) = Double.velocityX s /\
  ~ valueOf (Double.velocityX (Double.ticks 1000 s))
    == valueOf (Double.velocityX s) * 0.95 ^ 1000 /\
  valueOf (Double.rotationX s) + valueOf (Double.velocityX s) / (1 - 0.95)
    < valueOf (Double.rotationX (Double.ticks 1000 s)) /\
  valueOf (Double.rotationX (Double.ticks 1000 s))
    < valueOf (Double.rotationX (Double.ticks 1001 s)).
Proof.
  cbv zeta. repeat split; try (vm_compute; reflexivity);
    intros H; vm_compute in H; discriminate H.
Qed.

(** C2, in the arithmetic of the script. Along any sequence of pointer moves
    while dragging, from angles and coordinates far from overflow, the yaw
    angle ends within N (2^-52 |yaw_0| + 2^-49 * 0.01 * (sum of |dx_i|)
    + 2^-1072) of yaw_0 plus the sum of the horizontal deltas times 0.01, and
    the pitch angle likewise with the vertical deltas, each delta taken from
    the pointer position recorded by the event before; and every single move
    adds its contribution to the angle at once, as the double
    (x - lastX) * 0.01. *)
Theorem drag_accumulates_deltas (es : list Double.MouseEvent) (g : Double.Globals) :
  Double.dragging g = true ->
  moderate (Double.rotationX g) -> moderate (Double.rotationY g) ->
  moderate (Double.lastMouseX g) -> moderate (Double.lastMouseY g) ->
  Forall (fun e => moderate (Double.clientX e) /\ moderate (Double.clientY e)) es ->
  (Z.of_nat (length es) <= 2 ^ 52)%Z ->
  let dxs := steps (valueOf (Double.lastMouseX g))
                   (map (fun e => valueOf (Double.clientX e)) es) in
  let dys := steps (valueOf (Double.lastMouseY g))
                   (map (fun e => valueOf (Double.clientY e)) es) in
  let g' := Double.moves es g in
  finite (Double.rotationY g') = true /\ finite (Double.rotationX g') = true /\
  Qabs (valueOf (Double.rotationY g')
        - (valueOf (Double.rotationY g) + Qsum (map (fun dx => dx * 0.01) dxs)))
    <= inject_Z (Z.of_nat (length es))
       * dragTolerance (valueOf (Double.rotationY g)) (Qsum (map Qabs dxs)) /\
  Qabs (valueOf (Double.rotationX g')
        - (valueOf (Double.rotationX g) + Qsum (map (fun dy => dy * 0.01) dys)))
    <= inject_Z (Z.of_nat (length es))
       * dragTolerance (valueOf (Double.rotationX g)) (Qsum (map Qabs dys)) /\
  (forall e : Double.MouseEvent,
     Double.rotationY (Double.onMouseMove e g)
     = (Double.rotationY g + (Double.clientX e - Double.lastMouseX g) * 0.01)%float /\
     Double.rotationX (Double.onMouseMove e g)
     = (Double.rotationX g + (Double.clientY e - Double.lastMouseY g) * 0.01)%float).
Proof.
  intros Hd Mrx Mry Mlx Mly Hes Hn. cbv zeta.
  destruct (moves_axes es g Hd) as (_ & A & B).
  assert (Ey : Double.rotationY (Double.moves es g)
               = fst (dragAxis (Double.rotationY g) (Double.lastMouseX g)
                               (map Double.clientX es))) by now rewrite <- A.
  assert (Ex : Double.rotationX (Double.moves es g)
               = fst (dragAxis (Double.rotationX g) (Double.lastMouseY g)
                               (map Double.clientY es))) by now rewrite <- B.
  rewrite Ey, Ex.
  destruct (drag_axis_tolerance (Double.rotationY g) (Double.lastMouseX g)
              (map Double.clientX es) Mry Mlx) as [Fy Ty].
  { apply Forall_map. eapply Forall_impl; [exact Hes|]. now intros e [H _]. }
  { now rewrite length_map. }
  destruct (drag_axis_tolerance (Double.rotationX g) (Double.lastMouseY g)
              (map Double.clientY es) Mrx Mly) as [Fx Tx].
  { apply Forall_map. eapply Forall_impl; [exact Hes|]. now intros e [_ H]. }
  { now rewrite length_map. }
  cbv zeta in Ty, Tx. rewrite !map_map, length_map in Ty, Tx.
  split; [exact Fy|]. split; [exact Fx|]. split; [exact Ty|]. split; [exact Tx|].
  intros e. unfold Double.onMouseMove. rewrite Hd. split; reflexivity.
Qed.

Lemma drag_accumulates_deltas_witness :
  let es := [Double.mkMouse 150 120; Double.mkMouse 160 110] in
  Double.dragging double_grabbed = true /\
  moderate (Double.lastMouseX double_grabbed) /\
  Forall (fun e => moderate (Double.clientX e) /\ moderate (Double.clientY e)) es /\
  (Z.of_nat (length es) <= 2 ^ 52)%Z /\
  Qabs (valueOf (Double.rotationY (Double.moves es double_grabbed))
        - (valueOf (Double.rotationY double_grabbed)
           + Qsum (map (fun dx => dx * 0.01)
                       (steps (valueOf (Double.lastMouseX double_grabbed))
                              (map (fun e => valueOf (Double.clientX e)) es)))))
    <= inject_Z (Z.of_nat (length es))
       * dragTolerance (valueOf (Double.rotationY double_grabbed))
           (Qsum (map Qabs (steps (valueOf (Double.lastMouseX double_grabbed))
                                  (map (fun e => valueOf (Double.clientX e)) es)))).
Proof.
  cbv zeta.
  assert (M : forall x, finite x = true ->
            Qle_bool (Qabs (valueOf x)) (2 ^ 500) = true -> moderate x).
  { intros x F B. split; [exact F | now apply Qle_bool_imp_le]. }
  assert (M0 : moderate 0%float) by (apply M; vm_compute; reflexivity).
  assert (M100 : moderate 100%float) by (apply M; vm_compute; reflexivity).
  assert (Hes : Forall (fun e => moderate (Double.clientX e) /\ moderate (Double.clientY e))
                  [Double.mkMouse 150 120; Double.mkMouse 160 110]).
  { repeat constructor; apply M; vm_compute; reflexivity. }
  assert (Hn : (Z.of_nat (length [Double.mkMouse 150 120; Double.mkMouse 160 110])
                <= 2 ^ 52)%Z) by (vm_compute; discriminate).
  split; [reflexivity|]. split; [exact M100|]. split; [exact Hes|]. split; [exact Hn|].
  exact (proj1 (proj2 (proj2 (drag_accumulates_deltas _ double_grabbed
           eq_refl M0 M0 M100 M100 Hes Hn)))).
Defined.

(** The claim of C2 fails in the arithmetic of the script. With the yaw at
    0.7000000000000001, a move of 10 pixels takes it to 0.8: an increase that
    is not 10 * 0.01, and not the double nearest to it either. And the
    increase is not a function of the deltas: from rest, moves of 10 and then
    20 pixels leave the yaw at 0.30000000000000004, one move of 30 pixels
    leaves it at 0.3. *)
Lemma drag_sum_not_exact :
  let g := double_turned in
  let g' := Double.onMouseMove (Double.mkMouse 110 100) g in
  Double.dragging g = true /\
  Double.rotationY g' = 0.8%float /\
  ~ valueOf (Double.rotationY g') - valueOf (Double.rotationY g)
    == (valueOf 110%float - valueOf (Double.lastMouseX g)) * 0.01 /\
  ~ valueOf (Double.rotationY g') - valueOf (Double.rotationY g)
    == valueOf 0.1%float /\
  Double.rotationY (Double.moves [Double.mkMouse 110 100; Double.mkMouse 130 100]
                                 double_grabbed)
  = 0.30000000000000004%float /\
  Double.rotationY (Double.moves [Double.mkMouse 130 100] double_grabbed)
  = 0.3%float /\
  ~ valueOf 0.30000000000000004%float == valueOf 0.3%float.
Proof.
  cbv zeta. repeat split; try (vm_compute; reflexivity);
    intros H; vm_compute in H; discriminate H.
Qed.

(** ** The flick scenario *)




(** ** Examples on concrete states *)

Lemma dragging_tick_no_decay_witness :
  dragging (globals (worldOf grabbed)) = true /\
  globals (render 16 (worldOf grabbed)) = grabbed.
Proof.
  split; [reflexivity|].
  exact (proj1 (dragging_tick_no_decay 16 (worldOf grabbed) eq_refl)).
Defined.


(** ** The power-of-two test *)

Section PowerOfTwo.

Local Open Scope Z_scope.

Lemma land_pred_pow2 (k : Z) : 0 <= k -> Z.land (2 ^ k) (2 ^ k - 1) = 0.
Proof.
  intros Hk. rewrite Z.sub_1_r, <- Z.ones_equiv, Z.land_ones by assumption.
  apply Z.mod_same. lia.
Qed.

(** A positive number that shares no bit with its predecessor has a single
    bit: otherwise both carry the top bit. *)
Lemma land_pred_zero (v : Z) : 0 < v -> Z.land v (v - 1) = 0 -> powerOfTwo v.
Proof.
  intros Hv H0. exists (Z.log2 v). split; [apply Z.log2_nonneg|].
  destruct (Z.log2_spec v Hv) as [Hlo Hhi].
  destruct (Z.eq_dec v (2 ^ Z.log2 v)) as [|Hne]; [assumption|exfalso].
  assert (Hl : Z.log2 (v - 1) = Z.log2 v).
  { apply Z.log2_unique; [apply Z.log2_nonneg | lia]. }
  assert (Hp : 0 < 2 ^ Z.log2 v).
  { apply Z.pow_pos_nonneg; [lia | apply Z.log2_nonneg]. }
  assert (Hb : Z.testbit (Z.land v (v - 1)) (Z.log2 v) = true).
  { rewrite Z.land_spec, Z.bit_log2 by assumption.
    rewrite <- Hl at 1. rewrite Z.bit_log2 by lia. reflexivity. }
  rewrite H0, Z.bits_0 in Hb. discriminate.
Qed.

Lemma toInt32_small (z : Z) : - 2 ^ 31 <= z < 2 ^ 31 -> toInt32 z = z.
Proof. intros H. unfold toInt32. rewrite Z.mod_small; lia. Qed.

Lemma toInt32_big (z : Z) : 2 ^ 31 <= z < 2 ^ 32 -> toInt32 z = z - 2 ^ 32.
Proof.
  intros H. unfold toInt32.
  replace (z + 2 ^ 31) with ((z - 2 ^ 31) + 1 * 2 ^ 32) by lia.
  rewrite Z.mod_add, Z.mod_small; lia.
Qed.

(** On the positive [unsigned long] values, [isPowerOf2] is the
    mathematical notion. *)
Lemma isPowerOf2_spec (v : Z) :
  1 <= v < 2 ^ 32 -> (isPowerOf2 v = true <-> powerOfTwo v).
Proof.
  intros Hv. unfold isPowerOf2. rewrite Z.eqb_eq.
  destruct (Z_lt_le_dec v (2 ^ 31)) as [Hs|Hb].
  - rewrite !toInt32_small by lia. split.
    + apply land_pred_zero. lia.
    + intros (k & Hk & ->). now apply land_pred_pow2.
  - destruct (Z.eq_dec v (2 ^ 31)) as [->|Hne].
    + split; [|reflexivity]. intros _. exists 31. split; [lia|reflexivity].
    + rewrite !toInt32_big by lia. split.
      * intros H0.
        assert (Hn : Z.land (v - 2 ^ 32) (v - 1 - 2 ^ 32) < 0).
        { apply Z.land_neg. lia. }
        lia.
      * intros (k & Hk & E). exfalso.
        assert (31 < k) by (apply (Z.pow_lt_mono_r_iff 2); lia).
        assert (k < 32) by (apply (Z.pow_lt_mono_r_iff 2); lia).
        lia.
Qed.

Lemma zero_not_powerOfTwo : ~ powerOfTwo 0.
Proof. intros (k & Hk & E). pose proof (Z.pow_pos_nonneg 2 k). lia. Qed.

(** The test lets zero through: [0 & -1] is [0]. *)
Lemma isPowerOf2_zero : isPowerOf2 0 = true.
Proof. reflexivity. Qed.

End PowerOfTwo.

(** ** Texture objects *)

Lemma bindTexture_live (g : GL) (t : nat) :
  is_Some (textures g !! t) ->
  bindTexture (Some t) g
  = (Ok tt, setBound (Some t) (emit (BindTexture (Some t)) g)).
Proof.
  intros H. unfold bindTexture. run_m. cbn [textures emit].
  rewrite bool_decide_eq_true_2 by assumption. reflexivity.
Qed.

Lemma onBound_bound (f : Texture -> Texture) (g : GL) (t : nat) :
  boundTexture g = Some t ->
  onBound f g = (Ok tt, setTextures (alter f t (textures g)) g).
Proof.
  intros H. unfold onBound. run_m. rewrite H. reflexivity.
Qed.

(** [image.onload], bound to a live texture. *)
Lemma imageOnload_eq (t : nat) (img : Image) (g : GL) :
  is_Some (textures g !! t) ->
  imageOnload t img g = imageOnloadOutcome t img g.
Proof.
  intros H. unfold imageOnload, imageOnloadOutcome.
  unfold mbind, M_bind, bindM.
  rewrite bindTexture_live by exact H.
  unfold texImage2DImage, generateMipmap, texParameteri, onloadCalls,
    policyCalls, uploadErrors, policy, uploaded, throw.
  destruct (upload img) as [|e|];
    destruct (isPowerOf2 (width img) && isPowerOf2 (height img));
    run_m; rewrite ?onBound_bound with (t := t) by reflexivity;
    gl_eq; rewrite ?alter_alter_eq; reflexivity.
Qed.

(** What [loadTexture] has done when it returns. *)
Lemma loadTexture_result (url : string) (g : GL) :
  let t := nextId g in
  let g' := snd (loadTexture url g) in
  fst (loadTexture url g) = Ok t /\
  log g' = log g ++ [CreateTexture t; BindTexture (Some t);
                     TexImage2DPixels 1 1 [0; 0; 255; 255]%Z; ImageSetSrc url] /\
  errors g' = errors g /\
  textures g' !! t
  = Some (withImage (mkTexImage 1 1 [0; 0; 255; 255]%Z) defaultTexture).
Proof.
  cbv zeta.
  assert (E : loadTexture url g
    = (Ok (nextId g),
       emit (ImageSetSrc url)
         (setTextures
            (alter (withImage (mkTexImage 1 1 pixel)) (nextId g)
                   (<[nextId g := defaultTexture]> (textures g)))
            (emit (TexImage2DPixels 1 1 pixel)
               (setBound (Some (nextId g))
                  (emit (BindTexture (Some (nextId g)))
                     (emit (CreateTexture (nextId g))
                        (setTextures (<[nextId g := defaultTexture]> (textures g))
                           (bumpId g))))))))).
  { unfold loadTexture, createTexture, freshId, texImage2DPixels. run_m.
    rewrite bindTexture_live
      by (cbn [textures emit setTextures bumpId]; rewrite lookup_insert_eq; eauto).
    rewrite onBound_bound with (t := nextId g) by reflexivity.
    reflexivity. }
  rewrite E.
  cbn [fst snd errors log textures setTextures emit setBound bumpId].
  rewrite lookup_alter_eq, lookup_insert_eq. cbn. rewrite <- !app_assoc.
  auto.
Qed.

Lemma textureReady_emit (t : nat) (c : Call) (g : GL) :
  textureReady t (emit c g) <-> textureReady t g.
Proof. reflexivity. Qed.

Lemma policy_texImage (img : Image) (tex : Texture) :
  texImage (policy img tex) = texImage tex.
Proof.
  unfold policy. now destruct (isPowerOf2 (width img) && isPowerOf2 (height img)).
Qed.

Lemma imageOnload_ready (t : nat) (img : Image) (g : GL) :
  textureReady t g -> textureReady t (snd (imageOnload t img g)).
Proof.
  intros (tex & i & Ht & Hi).
  rewrite imageOnload_eq by (rewrite Ht; eauto).
  unfold imageOnloadOutcome, textureReady. cbn [snd textures].
  destruct (upload img) as [|e|] eqn:Eu; [| |eauto];
    rewrite lookup_alter_eq, Ht; cbn [fmap option_fmap option_map];
    eexists _, _; (split; [reflexivity|]);
    rewrite policy_texImage; unfold uploaded; rewrite Eu; eauto.
Qed.

Lemma app_dispatch (w : World) (ev : Event) : app (dispatch w ev) = app w.
Proof. destruct ev; reflexivity. Qed.

Lemma app_dispatchAll (evs : list Event) (w : World) :
  app (dispatchAll w evs) = app w.
Proof.
  unfold dispatchAll. revert w.
  induction evs as [|ev evs IH]; intros w; [reflexivity|].
  cbn [foldl]. now rewrite IH, app_dispatch.
Qed.

Lemma dispatch_ready (w : World) (ev : Event) :
  textureReady (texture (app w)) (gl w) ->
  textureReady (texture (app w)) (gl (dispatch w ev)).
Proof.
  intros H. destruct ev; try exact H.
  apply imageOnload_ready, H.
Qed.

Lemma dispatchAll_ready (evs : list Event) (w : World) :
  textureReady (texture (app w)) (gl w) ->
  textureReady (texture (app w)) (gl (dispatchAll w evs)).
Proof.
  unfold dispatchAll. revert w.
  induction evs as [|ev evs IH]; intros w H; [exact H|].
  cbn [foldl]. rewrite <- (app_dispatch w ev).
  apply IH. rewrite app_dispatch. now apply dispatch_ready.
Qed.

Lemma bindTexture_ready (t : nat) (g : GL) :
  textureReady t g ->
  fst (bindTexture (Some t) g) = Ok tt /\
  errors (snd (bindTexture (Some t) g)) = errors g /\
  boundTexture (snd (bindTexture (Some t) g)) = Some t.
Proof.
  intros (tex & i & Ht & _).
  rewrite bindTexture_live by (rewrite Ht; eauto). auto.
Qed.

(** When [main] returns normally past line 12, its texture is the one
    [loadTexture] has just filled. *)
Lemma main_texture_ready (h : Host) (a : App) (g : GL) :
  main h emptyGL = (Ok (Some a), g) -> textureReady (texture a) g.
Proof.
  unfold main. destruct (hasWebGL h); cbn [negb].
  2:{ run_m. intros [=]. }
  unfold mbind, M_bind, bindM.
  destruct (initShaderProgram h vsSource fsSource emptyGL) as [[sp|e] g1];
    [|intros [=]].
  destruct (resolveProgramInfo h sp g1) as [[info|e] g2]; [|intros [=]].
  unfold call at 1, act at 1.
  destruct (loadTexture_result "images/cubetexture.png" (emit InitBuffers g2))
    as (Hr & _ & _ & Ht).
  destruct (loadTexture "images/cubetexture.png" (emit InitBuffers g2))
    as [r g3].
  cbn [fst snd] in Hr, Ht. subst r. run_m.
  intros [= <- <-]. cbn [texture]. unfold textureReady.
  cbn [textures emit nextId] in Ht |- *. rewrite Ht. eauto.
Qed.

(** C9. [loadTexture] uploads one opaque 1x1 pixel before it returns, so the
    texture it hands back has a pixel store from the start: with no frame yet
    and after any events, whether or not the image ever arrives, the object
    is live with pixel data and binding it raises no error. The same holds for
    the texture of the running page. *)
Theorem placeholder_always_bindable (url : string) (g : GL) :
  let t := nextId g in
  let g' := snd (loadTexture url g) in
  fst (loadTexture url g) = Ok t /\
  log g' = log g ++ [CreateTexture t; BindTexture (Some t);
                     TexImage2DPixels 1 1 [0; 0; 255; 255]%Z; ImageSetSrc url] /\
  errors g' = errors g /\
  textures g' !! t
  = Some (withImage (mkTexImage 1 1 [0; 0; 255; 255]%Z) defaultTexture) /\
  (forall (gs : Globals) (th : Q) (info : ProgramInfo) (evs : list Event),
     let w := dispatchAll (mkWorld gs th (mkApp info t) g') evs in
     textureReady t (gl w) /\
     fst (bindTexture (Some t) (gl w)) = Ok tt /\
     errors (snd (bindTexture (Some t) (gl w))) = errors (gl w) /\
     boundTexture (snd (bindTexture (Some t) (gl w))) = Some t) /\
  (forall (h : Host) (evs : list Event) (a : App) (gf : GL),
     run h evs = (Ok (Some a), gf) ->
     textureReady (texture a) gf /\
     fst (bindTexture (Some (texture a)) gf) = Ok tt /\
     errors (snd (bindTexture (Some (texture a)) gf)) = errors gf).
Proof.
  cbv zeta.
  destruct (loadTexture_result url g) as (Hr & Hl & He & Ht).
  repeat split; try assumption.
  - apply (dispatchAll_ready evs (mkWorld gs th (mkApp info (nextId g)) _)).
    cbn [app texture gl]. unfold textureReady. rewrite Ht. eauto.
  - apply bindTexture_ready.
    apply (dispatchAll_ready evs (mkWorld gs th (mkApp info (nextId g)) _)).
    cbn [app texture gl]. unfold textureReady. rewrite Ht. eauto.
  - apply bindTexture_ready.
    apply (dispatchAll_ready evs (mkWorld gs th (mkApp info (nextId g)) _)).
    cbn [app texture gl]. unfold textureReady. rewrite Ht. eauto.
  - apply bindTexture_ready.
    apply (dispatchAll_ready evs (mkWorld gs th (mkApp info (nextId g)) _)).
    cbn [app texture gl]. unfold textureReady. rewrite Ht. eauto.
  - revert H. unfold run.
    destruct (main h emptyGL) as [[[a'|]|e] g0] eqn:Em; intros [= <- <-].
    apply (dispatchAll_ready evs (mkWorld initialGlobals 0 a' g0)).
    now apply main_texture_ready with (h := h).
  - revert H. unfold run.
    destruct (main h emptyGL) as [[[a'|]|e] g0] eqn:Em; intros [= <- <-].
    apply bindTexture_ready.
    apply (dispatchAll_ready evs (mkWorld initialGlobals 0 a' g0)).
    now apply main_texture_ready with (h := h).
  - revert H. unfold run.
    destruct (main h emptyGL) as [[[a'|]|e] g0] eqn:Em; intros [= <- <-].
    apply bindTexture_ready.
    apply (dispatchAll_ready evs (mkWorld initialGlobals 0 a' g0)).
    now apply main_texture_ready with (h := h).
Qed.

Lemma placeholder_always_bindable_witness :
  exists (a : App) (gf : GL),
    run workingHost [Frame 16; ImageLoaded (mkImage 300 200 [] Taken)]
    = (Ok (Some a), gf) /\
    textureReady (texture a) gf.
Proof.
  eexists _, _. split.
  - vm_compute. reflexivity.
  - refine (proj1 (proj2 (proj2 (proj2 (proj2 (proj2
             (placeholder_always_bindable "" emptyGL)))))
             workingHost [Frame 16; ImageLoaded (mkImage 300 200 [] Taken)] _ _ _)).
    vm_compute. reflexivity.
Defined.

(** C6. When the image arrives for the texture [loadTexture] set up, with at
    least one pixel in each dimension, and the upload of line 148 does not
    throw: both dimensions being powers of two gets mipmaps generated and
    leaves the wrap mode at REPEAT; any other size sets CLAMP_TO_EDGE on both
    axes and the LINEAR min-filter, and generates no mipmaps. *)
Theorem onload_power_of_two_policy (t : nat) (img : Image) (g : GL) (tex : Texture) :
  textures g !! t = Some tex ->
  wrapS tex = REPEAT -> wrapT tex = REPEAT -> mipmapped tex = false ->
  (1 <= width img < 2 ^ 32)%Z ->
  (1 <= height img < 2 ^ 32)%Z ->
  upload img <> Tainted ->
  let g' := snd (imageOnload t img g) in
  fst (imageOnload t img g) = Ok tt /\
  (powerOfTwo (width img) /\ powerOfTwo (height img) ->
     log g' = log g ++ [BindTexture (Some t); TexImage2DImage img; GenerateMipmap] /\
     exists tex', textures g' !! t = Some tex' /\
       mipmapped tex' = true /\ wrapS tex' = REPEAT /\ wrapT tex' = REPEAT /\
       minFilter tex' = minFilter tex) /\
  (~ (powerOfTwo (width img) /\ powerOfTwo (height img)) ->
     log g' = log g ++ [BindTexture (Some t); TexImage2DImage img;
                        TexParameteri (TEXTURE_WRAP_S CLAMP_TO_EDGE);
                        TexParameteri (TEXTURE_WRAP_T CLAMP_TO_EDGE);
                        TexParameteri (TEXTURE_MIN_FILTER LINEAR)] /\
     exists tex', textures g' !! t = Some tex' /\
       mipmapped tex' = false /\
       wrapS tex' = CLAMP_TO_EDGE /\ wrapT tex' = CLAMP_TO_EDGE /\
       minFilter tex' = LINEAR).
Proof.
  intros Ht Hs Hw Hm Hwd Hhd Hup g'. unfold g'. clear g'.
  rewrite imageOnload_eq by (rewrite Ht; eauto).
  assert (Hb : isPowerOf2 (width img) && isPowerOf2 (height img) = true
               <-> powerOfTwo (width img) /\ powerOfTwo (height img)).
  { rewrite andb_true_iff, !isPowerOf2_spec by assumption. reflexivity. }
  assert (Hu : forall x, mipmapped (uploaded img x) = mipmapped x /\
                         wrapS (uploaded img x) = wrapS x /\
                         wrapT (uploaded img x) = wrapT x /\
                         minFilter (uploaded img x) = minFilter x).
  { intros x. unfold uploaded. destruct (upload img); auto. }
  destruct (Hu tex) as (U1 & U2 & U3 & U4).
  unfold imageOnloadOutcome, onloadCalls, policyCalls, policy.
  cbn [fst snd log textures].
  destruct (upload img) as [|e|] eqn:Eu; [| |contradiction];
    (split; [reflexivity|]);
    rewrite lookup_alter_eq, Ht; cbn [fmap option_fmap option_map];
    destruct (isPowerOf2 (width img) && isPowerOf2 (height img)); split;
    try (intros Hp; apply Hb in Hp; discriminate Hp);
    try (intros Hn; exfalso; apply Hn, Hb; reflexivity);
    intros _; (split; [reflexivity|]); eexists; (split; [reflexivity|]);
    cbn [withMipmaps withParam mipmapped wrapS wrapT minFilter];
    rewrite ?U1, ?U2, ?U3, ?U4; auto.
Qed.

Lemma onload_power_of_two_policy_witness :
  let g := snd (loadTexture "images/cubetexture.png" emptyGL) in
  let img := mkImage 256 256 [] Taken in
  let img' := mkImage 300 200 [] Taken in
  textures g !! 0%nat = Some placeholder /\
  (1 <= width img < 2 ^ 32)%Z /\ (1 <= width img' < 2 ^ 32)%Z /\
  (1 <= height img' < 2 ^ 32)%Z /\ upload img <> Tainted /\
  fst (imageOnload 0 img g) = Ok tt /\
  log (snd (imageOnload 0 img g))
  = log g ++ [BindTexture (Some 0%nat); TexImage2DImage img; GenerateMipmap] /\
  log (snd (imageOnload 0 img' g))
  = log g ++ [BindTexture (Some 0%nat); TexImage2DImage img';
              TexParameteri (TEXTURE_WRAP_S CLAMP_TO_EDGE);
              TexParameteri (TEXTURE_WRAP_T CLAMP_TO_EDGE);
              TexParameteri (TEXTURE_MIN_FILTER LINEAR)].
Proof.
  cbv zeta.
  assert (Ht : textures (snd (loadTexture "images/cubetexture.png" emptyGL)) !! 0%nat
               = Some placeholder) by (vm_compute; reflexivity).
  assert (Hd : (1 <= 256 < 2 ^ 32)%Z) by lia.
  assert (Hw : (1 <= 300 < 2 ^ 32)%Z) by lia.
  assert (Hh : (1 <= 200 < 2 ^ 32)%Z) by lia.
  assert (Hu : Taken <> Tainted) by discriminate.
  assert (Hp : powerOfTwo 256 /\ powerOfTwo 256)
    by (split; exists 8%Z; (split; [lia | reflexivity])).
  assert (Hq : ~ (powerOfTwo 300 /\ powerOfTwo 200)).
  { intros [H _]. apply isPowerOf2_spec in H; [|exact Hw].
    vm_compute in H. discriminate H. }
  split; [exact Ht|]. split; [exact Hd|]. split; [exact Hw|].
  split; [exact Hh|]. split; [exact Hu|].
  destruct (onload_power_of_two_policy 0 (mkImage 256 256 [] Taken)
              _ placeholder Ht eq_refl eq_refl eq_refl Hd Hd Hu) as (R & P & _).
  destruct (onload_power_of_two_policy 0 (mkImage 300 200 [] Taken)
              _ placeholder Ht eq_refl eq_refl eq_refl Hw Hh Hu) as (_ & _ & Q).
  split; [exact R|]. split; [exact (proj1 (P Hp)) | exact (proj1 (Q Hq))].
Defined.

(** ** Shader set-up *)

Lemma loadShader_eq (h : Host) (ty : ShaderType) (src : string) (g : GL) :
  loadShader h ty src g =
  (Ok (loadShaderResult h ty src (nextId g)),
   {| shaders := loadShaderObjects h ty src (nextId g) (shaders g);
      programs := programs g; textures := textures g;
      boundTexture := boundTexture g; nextId := S (nextId g);
      errors := errors g;
      log := log g ++ loadShaderCalls h ty src (nextId g) |}).
Proof.
  unfold loadShader, createShader, freshId, shaderSource, compileShader,
    getShaderParameter, getShaderInfoLog, deleteShader.
  run_m. gl_simpl.
  rewrite !alter_insert_eq, !lookup_insert_eq.
  cbn [shaderType shaderSrc compiled].
  unfold loadShaderResult, loadShaderObjects, loadShaderCalls, compileMessage.
  destruct (compileStatus h ty src); cbn [negb].
  - gl_eq.
  - run_m. gl_simpl. rewrite !lookup_insert_eq. cbn [shaderType shaderSrc].
    gl_eq. apply delete_insert_eq.
Qed.

Lemma initShaderProgram_eq (h : Host) (vs fs : string) (g : GL) :
  initShaderProgram h vs fs g = initShaderProgramOutcome h vs fs g.
Proof.
  unfold initShaderProgram, initShaderProgramOutcome.
  unfold bindM at 1. rewrite loadShader_eq.
  unfold bindM at 1. rewrite loadShader_eq.
  unfold createProgram, freshId, attachShader, linkProgram,
    getProgramParameter, getProgramInfoLog, nullArgument, throw.
  gl_simpl.
  unfold loadShaderResult, rejects.
  destruct (compileStatus h VERTEX_SHADER vs) eqn:Ev;
    destruct (compileStatus h FRAGMENT_SHADER fs) eqn:Ef;
    destruct (nullThrows h) eqn:En;
    run_m; gl_simpl;
    rewrite ?alter_insert_eq, ?lookup_insert_eq;
    cbn [attached linked attachedOf nullErrors];
    rewrite ?app_nil_l, ?app_nil_r;
    try (gl_eq; fail).
  all: match goal with
       | |- context [negb ?b] => destruct b eqn:El
       end.
  all: cbn [negb]; run_m; gl_eq; rewrite ?app_nil_l, ?El; reflexivity.
Qed.

Lemma resolveProgramInfo_eq (h : Host) (sp : option nat) (g : GL) :
  resolveProgramInfo h sp g = resolveOutcome h sp g.
Proof.
  unfold resolveProgramInfo, resolveOutcome, getAttribLocation,
    getUniformLocation, nullArgument, throw.
  destruct sp as [p|].
  - run_m. unfold isLinked in *.
    destruct (match programs g !! p with Some o => linked o | None => false end)
      eqn:El.
    + repeat (cbn beta iota; rewrite ?El). reflexivity.
    + repeat (cbn beta iota; gl_simpl; rewrite ?El). reflexivity.
  - destruct (nullThrows h); run_m; reflexivity.
Qed.

Lemma loadTexture_eq (url : string) (g : GL) :
  loadTexture url g =
  (Ok (nextId g),
   {| shaders := shaders g; programs := programs g;
      textures := <[nextId g := placeholder]> (textures g);
      boundTexture := Some (nextId g); nextId := S (nextId g);
      errors := errors g;
      log := log g ++ [CreateTexture (nextId g); BindTexture (Some (nextId g));
                       TexImage2DPixels 1 1 pixel; ImageSetSrc url] |}).
Proof.
  unfold loadTexture, createTexture, freshId, texImage2DPixels. run_m.
  rewrite bindTexture_live
    by (cbn [textures emit setTextures bumpId]; rewrite lookup_insert_eq; eauto).
  rewrite onBound_bound with (t := nextId g) by reflexivity.
  gl_eq. apply alter_insert_eq.
Qed.

Lemma main_eq (h : Host) :
  hasWebGL h = true -> main h emptyGL = mainOutcome h.
Proof.
  intros Hw. unfold main, mainOutcome. rewrite Hw. cbn [negb].
  unfold bindM at 1. rewrite initShaderProgram_eq.
  destruct (initShaderProgramOutcome h vsSource fsSource emptyGL)
    as [[sp|e] g1]; [|reflexivity].
  unfold bindM at 1. rewrite resolveProgramInfo_eq.
  destruct (resolveOutcome h sp g1) as [[info|e] g2]; [|reflexivity].
  unfold mbind, M_bind. unfold bindM at 1, call at 1, act at 1.
  unfold bindM at 1. rewrite loadTexture_eq.
  run_m. unfold pageSetup. gl_eq.
Qed.

(** ** The event loop leaves shaders and programs alone *)

Lemma imageOnload_frame (t : nat) (img : Image) (g : GL) :
  let g' := snd (imageOnload t img g) in
  shaders g' = shaders g /\ programs g' = programs g /\
  log g' = log g ++ onloadCalls t img.
Proof.
  cbv zeta.
  unfold imageOnload, bindTexture, texImage2DImage, generateMipmap,
    texParameteri, onBound, onloadCalls, policyCalls, throw.
  run_m. gl_simpl.
  destruct (bool_decide (is_Some (textures g !! t)));
    destruct (upload img) as [|e|];
    destruct (isPowerOf2 (width img) && isPowerOf2 (height img));
    gl_simpl; destruct (boundTexture g) eqn:Eb;
    repeat (cbn beta iota; gl_simpl; rewrite ?Eb);
    rewrite <- ?app_assoc, ?app_nil_r; auto.
Qed.

Lemma dispatch_frame (w : World) (ev : Event) :
  shaders (gl (dispatch w ev)) = shaders (gl w) /\
  programs (gl (dispatch w ev)) = programs (gl w) /\
  log (gl (dispatch w ev)) = log (gl w) ++ eventCalls w ev.
Proof.
  destruct ev; cbn [dispatch onGlobals gl eventCalls];
    rewrite ?app_nil_r; auto.
  - unfold render, drawScene. cbn [gl]. gl_simpl. rewrite <- !app_assoc. auto.
  - apply imageOnload_frame.
Qed.

Lemma eventCalls_kind (w : World) (ev : Event) (c : Call) :
  In c (eventCalls w ev) -> isEventCall c = true.
Proof.
  destruct ev; cbn [eventCalls]; try contradiction.
  - cbn [In]. intros [<-|[<-|[<-|[]]]]; reflexivity.
  - unfold onloadCalls, policyCalls.
    destruct (upload image) as [|e|];
      destruct (isPowerOf2 (width image) && isPowerOf2 (height image));
      cbn [Datatypes.app In]; intuition (subst; reflexivity).
Qed.

(** After any events the shader and program objects are those [main] left,
    and every call logged since is one only the callbacks make. *)
Lemma dispatchAll_frame (evs : list Event) (w : World) :
  shaders (gl (dispatchAll w evs)) = shaders (gl w) /\
  programs (gl (dispatchAll w evs)) = programs (gl w) /\
  exists l, log (gl (dispatchAll w evs)) = log (gl w) ++ l /\
            forall c, In c l -> isEventCall c = true.
Proof.
  unfold dispatchAll. revert w.
  induction evs as [|ev evs IH]; intros w.
  - cbn [foldl]. repeat split. exists []. rewrite app_nil_r.
    split; [reflexivity | contradiction].
  - cbn [foldl].
    destruct (IH (dispatch w ev)) as (Hs & Hp & l & Hl & Hk).
    destruct (dispatch_frame w ev) as (Hs' & Hp' & Hl').
    rewrite Hs, Hp, Hl, Hs', Hp', Hl'. repeat split.
    exists (eventCalls w ev ++ l). rewrite <- app_assoc. split; [reflexivity|].
    intros c [Hc|Hc]%in_app_or; [now apply eventCalls_kind in Hc | now apply Hk].
Qed.

Lemma dispatchAll_snoc (evs : list Event) (ev : Event) (w : World) :
  dispatchAll w (evs ++ [ev]) = dispatch (dispatchAll w evs) ev.
Proof. unfold dispatchAll. now rewrite foldl_app. Qed.

(** When [main] throws, no callback is registered and nothing runs later. *)
Lemma run_throw (h : Host) (e : string) (g : GL) (evs : list Event) :
  main h emptyGL = (Throw e, g) -> run h evs = (Throw e, g).
Proof. intros Hm. unfold run. now rewrite Hm. Qed.

(** ** What [main] and the callbacks add to the set-up of the program *)

Lemma raise_iter_frame (n : nat) (e : GLError) (g : GL) :
  shaders (Nat.iter n (glRaise e) g) = shaders g /\
  programs (Nat.iter n (glRaise e) g) = programs g /\
  textures (Nat.iter n (glRaise e) g) = textures g /\
  nextId (Nat.iter n (glRaise e) g) = nextId g /\
  log (Nat.iter n (glRaise e) g) = log g.
Proof.
  induction n as [|n IH]; [repeat split|].
  rewrite Nat.iter_succ. gl_simpl. exact IH.
Qed.

Lemma resolveOutcome_frame (h : Host) (sp : option nat) (g : GL) :
  let g' := snd (resolveOutcome h sp g) in
  shaders g' = shaders g /\ programs g' = programs g /\
  textures g' = textures g /\ nextId g' = nextId g /\ log g' = log g.
Proof.
  cbv zeta. unfold resolveOutcome.
  destruct sp as [p|]; [destruct (isLinked p g) | destruct (nullThrows h)];
    cbn [snd]; try (repeat split; fail); apply raise_iter_frame.
Qed.

Lemma pageSetup_frame (g : GL) :
  shaders (pageSetup g) = shaders g /\ programs (pageSetup g) = programs g /\
  exists l, log (pageSetup g) = log g ++ l /\
            forall c, In c l -> isSetupCall c = true.
Proof.
  repeat split. eexists. split; [reflexivity|].
  cbn [In]. intros c H. repeat (destruct H as [<-|H]; [reflexivity|]). contradiction.
Qed.

Lemma mainOutcome_frame (h : Host) :
  let i := snd (initShaderProgramOutcome h vsSource fsSource emptyGL) in
  let m := snd (mainOutcome h) in
  shaders m = shaders i /\ programs m = programs i /\
  exists l, log m = log i ++ l /\ forall c, In c l -> isSetupCall c = true.
Proof.
  cbv zeta. unfold mainOutcome.
  destruct (initShaderProgramOutcome h vsSource fsSource emptyGL) as [[sp|e] g1];
    cbn [snd].
  2:{ repeat split. exists []. rewrite app_nil_r. split; [reflexivity|contradiction]. }
  destruct (resolveOutcome_frame h sp g1) as (Hs & Hp & _ & _ & Hl).
  destruct (resolveOutcome h sp g1) as [[info|e] g2]; cbn [snd] in *.
  - destruct (pageSetup_frame g2) as (Hs' & Hp' & l & Hl' & Hk).
    rewrite Hs', Hp', Hl', Hs, Hp, Hl. repeat split. eauto.
  - rewrite Hs, Hp, Hl. repeat split. exists []. rewrite app_nil_r.
    split; [reflexivity|contradiction].
Qed.

Lemma run_frame (h : Host) (evs : list Event) :
  hasWebGL h = true ->
  let i := snd (initShaderProgramOutcome h vsSource fsSource emptyGL) in
  let g := snd (run h evs) in
  shaders g = shaders i /\ programs g = programs i /\
  exists l, log g = log i ++ l /\
            forall c, In c l -> isSetupCall c = true \/ isEventCall c = true.
Proof.
  intros Hw. cbv zeta. unfold run. rewrite (main_eq h Hw).
  destruct (mainOutcome_frame h) as (Hs & Hp & l & Hl & Hk).
  destruct (mainOutcome h) as [[[a|]|e] g0]; cbn [snd] in *.
  2,3: rewrite Hs, Hp, Hl; repeat split; exists l; split; [reflexivity|auto].
  destruct (dispatchAll_frame evs (mkWorld initialGlobals 0 a g0))
    as (Hs' & Hp' & l' & Hl' & Hk').
  cbn [gl] in *. rewrite Hs', Hp', Hl', Hs, Hp, Hl. repeat split.
  exists (l ++ l'). rewrite <- app_assoc. split; [reflexivity|].
  intros c [Hc|Hc]%in_app_or; auto.
Qed.

Lemma countCalls_app (p : Call -> bool) (l1 l2 : list Call) :
  countCalls p (l1 ++ l2) = (countCalls p l1 + countCalls p l2)%nat.
Proof. induction l1 as [|c l1 IH]; cbn; [reflexivity|]. rewrite IH. lia. Qed.

Lemma countCalls_none (p : Call -> bool) (l : list Call) :
  (forall c, In c l -> p c = false) -> countCalls p l = 0%nat.
Proof.
  induction l as [|c l IH]; intros H; [reflexivity|].
  cbn. rewrite (H c) by now left. rewrite IH; [reflexivity|].
  intros c' Hc. apply H. now right.
Qed.

Lemma eventCalls_counts (w : World) (ev : Event) :
  countCalls isDraw (eventCalls w ev) = (if isFrame ev then 1 else 0)%nat /\
  countCalls isFrameRequest (eventCalls w ev) = (if isFrame ev then 1 else 0)%nat.
Proof.
  destruct ev; cbn [eventCalls isFrame]; try (split; reflexivity).
  unfold onloadCalls, policyCalls.
  destruct (upload image) as [|e|];
    destruct (isPowerOf2 (width image) && isPowerOf2 (height image));
    split; reflexivity.
Qed.

Lemma dispatchAll_counts (evs : list Event) (w : World) :
  countCalls isDraw (log (gl (dispatchAll w evs)))
  = (countCalls isDraw (log (gl w)) + countFrames evs)%nat /\
  countCalls isFrameRequest (log (gl (dispatchAll w evs)))
  = (countCalls isFrameRequest (log (gl w)) + countFrames evs)%nat.
Proof.
  unfold dispatchAll. revert w.
  induction evs as [|ev evs IH]; intros w; cbn [foldl countFrames].
  - split; lia.
  - destruct (IH (dispatch w ev)) as [A B]. rewrite A, B.
    destruct (dispatch_frame w ev) as (_ & _ & El). rewrite El.
    rewrite !countCalls_app.
    destruct (eventCalls_counts w ev) as [C D]. rewrite C, D. split; lia.
Qed.

(** Every call of the shader set-up, on any host, is a shader call. *)
Lemma initOutcome_calls (h : Host) (c : Call) :
  In c (log (snd (initShaderProgramOutcome h vsSource fsSource emptyGL))) ->
  isShaderCall c = true.
Proof.
  unfold initShaderProgramOutcome, loadShaderResult, loadShaderObjects,
    loadShaderCalls.
  destruct (compileStatus h VERTEX_SHADER vsSource);
    destruct (compileStatus h FRAGMENT_SHADER fsSource);
    cbn [rejects attachedOf nullErrors nextId emptyGL];
    destruct (nullThrows h);
    try match goal with
      | |- context [linkStatus h ?l] => destruct (linkStatus h l)
      end;
    cbn [fst snd log]; revert c; each_member.
Qed.

Lemma shader_call_kinds (c : Call) :
  isShaderCall c = true ->
  isDraw c = false /\ isFrameRequest c = false /\ isSetupCall c = false.
Proof. destruct c; cbn; intros H; try discriminate H; auto. Qed.

(** The log of [main] when it returns an [App]: shader calls, then the
    eleven calls of lines 70-106. *)
Lemma main_completed_log (h : Host) (a : App) (g : GL) :
  main h emptyGL = (Ok (Some a), g) ->
  texture a = 3%nat /\ nextId g = 4%nat /\
  exists l, (forall c, In c l -> isShaderCall c = true) /\
    log g = l ++ [InitBuffers; CreateTexture 3; BindTexture (Some 3%nat);
                  TexImage2DPixels 1 1 pixel;
                  ImageSetSrc "images/cubetexture.png"; PixelStorei;
                  AddEventListener "mousedown"; AddEventListener "mouseup";
                  AddEventListener "mousemove";
                  AddEventListener "contextmenu"; RequestAnimationFrame].
Proof.
  destruct (hasWebGL h) eqn:Hw.
  2:{ unfold main. rewrite Hw. cbn [negb]. run_m. intros [=]. }
  rewrite (main_eq h Hw). unfold mainOutcome.
  pose proof (initOutcome_calls h) as Hk.
  assert (Hn : nextId (snd (initShaderProgramOutcome h vsSource fsSource emptyGL)) = 3%nat).
  { unfold initShaderProgramOutcome.
    repeat match goal with |- context [if ?b then _ else _] => destruct b end;
      reflexivity. }
  destruct (initShaderProgramOutcome h vsSource fsSource emptyGL) as [[sp|e] g1];
    [|intros [=]]. cbn [snd] in Hk, Hn.
  destruct (resolveOutcome_frame h sp g1) as (_ & _ & _ & Hn' & Hl').
  destruct (resolveOutcome h sp g1) as [[info|e] g2]; [|intros [=]].
  cbn [snd] in Hn', Hl'. intros [= <- <-]. cbn [texture].
  unfold pageSetup. cbn [nextId log]. rewrite Hn', Hn, Hl'.
  repeat split. exists (log g1). split; [exact Hk | reflexivity].
Qed.

(** Every [drawScene] call an event makes carries the program and the texture
    the callbacks closed over. *)
Lemma eventCalls_draws (w : World) (ev : Event) (c : Call) :
  In c (eventCalls w ev) -> isDraw c = true ->
  exists rx ry,
    c = DrawScene (program (programInfo (app w))) (texture (app w)) rx ry.
Proof.
  destruct ev; cbn [eventCalls]; try contradiction.
  - cbn [In]. intros [<-|[<-|[<-|[]]]]; try discriminate. eauto.
  - unfold onloadCalls, policyCalls.
    destruct (upload image) as [|e|];
      destruct (isPowerOf2 (width image) && isPowerOf2 (height image));
      cbn [Datatypes.app In]; intuition (subst; discriminate).
Qed.

Lemma dispatchAll_draws (evs : list Event) (w : World) (c : Call) :
  In c (log (gl (dispatchAll w evs))) -> isDraw c = true ->
  In c (log (gl w)) \/
  exists rx ry,
    c = DrawScene (program (programInfo (app w))) (texture (app w)) rx ry.
Proof.
  unfold dispatchAll. revert w.
  induction evs as [|ev evs IH]; intros w Hc Hd; [now left|].
  cbn [foldl] in Hc. destruct (IH _ Hc Hd) as [Hin|Hdraw].
  - destruct (dispatch_frame w ev) as (_ & _ & El). rewrite El in Hin.
    apply in_app_or in Hin as [Hin|Hin]; [now left | right].
    now apply (eventCalls_draws w ev).
  - right. now rewrite app_dispatch in Hdraw.
Qed.

(** On a page whose set-up completed: one [drawScene] call per frame event,
    each with the program and the texture of the set-up, and one frame
    request more than frames. *)
Lemma run_draws (h : Host) (a : App) (g : GL) (evs : list Event) :
  main h emptyGL = (Ok (Some a), g) ->
  countCalls isDraw (log (snd (run h evs))) = countFrames evs /\
  countCalls isFrameRequest (log (snd (run h evs))) = S (countFrames evs) /\
  forall c, In c (log (snd (run h evs))) -> isDraw c = true ->
    exists rx ry, c = DrawScene (program (programInfo a)) (texture a) rx ry.
Proof.
  intros Em. unfold run. rewrite Em. cbn [snd].
  destruct (main_completed_log h a g Em) as (_ & _ & l & Hk & El).
  destruct (dispatchAll_counts evs (mkWorld initialGlobals 0 a g)) as [A B].
  cbn [gl] in A, B. rewrite A, B, El, !countCalls_app.
  rewrite !(countCalls_none _ l)
    by (intros c Hc; now apply shader_call_kinds, Hk).
  split; [reflexivity|]. split; [reflexivity|].
  intros c Hc Hd.
  destruct (dispatchAll_draws evs (mkWorld initialGlobals 0 a g) c Hc Hd)
    as [Hin|Hdraw]; [exfalso | exact Hdraw].
  cbn [gl] in Hin. rewrite El in Hin. apply in_app_or in Hin as [Hin|Hin].
  - apply Hk, shader_call_kinds in Hin. destruct Hin as [Hin _]. congruence.
  - cbn [In] in Hin.
    repeat (destruct Hin as [<-|Hin]; [discriminate Hd|]). contradiction.
Qed.

Lemma initOutcome_compile_failure (h : Host) (ty : ShaderType) :
  compileStatus h ty (sourceOf ty) = false ->
  let i := initShaderProgramOutcome h vsSource fsSource emptyGL in
  (exists id,
     In (CreateShader ty id) (log (snd i)) /\
     In (Alert (compileMessage h ty (sourceOf ty))) (log (snd i)) /\
     In (DeleteShader id) (log (snd i)) /\
     shaders (snd i) !! id = None) /\
  In (CreateProgram 2) (log (snd i)) /\
  In (AttachShader 2 None) (log (snd i)) /\
  (nullThrows h = true ->
     fst i = Throw "TypeError" /\
     forall c, In c (log (snd i)) -> isLink c = false /\ isDraw c = false) /\
  (nullThrows h = false ->
     In (LinkProgram 2) (log (snd i)) /\ exists sp, fst i = Ok sp).
Proof.
  intros Hc. cbv zeta.
  unfold initShaderProgramOutcome, loadShaderResult, loadShaderObjects,
    loadShaderCalls.
  destruct ty; cbn [sourceOf] in Hc |- *; rewrite Hc;
    [ destruct (compileStatus h FRAGMENT_SHADER fsSource)
    | destruct (compileStatus h VERTEX_SHADER vsSource) ];
    cbn [rejects attachedOf nullErrors nextId emptyGL];
    destruct (nullThrows h);
    try match goal with
      | |- context [linkStatus h ?l] => destruct (linkStatus h l)
      end;
    cbn [fst snd log shaders].
  all: split;
    [ first [ exists 0%nat; (split; [mem|]); (split; [mem|]); (split; [mem|]);
              simplify_map_eq; reflexivity
            | exists 1%nat; (split; [mem|]); (split; [mem|]); (split; [mem|]);
              simplify_map_eq; reflexivity ] |].
  all: split; [mem|].
  all: split; [mem|].
  all: split; intros Hn; try discriminate Hn.
  all: try (split; [reflexivity | each_member]).
  all: try (split; [mem | eexists; reflexivity]).
Qed.

Lemma setup_or_event_call (c : Call) :
  isSetupCall c = true \/ isEventCall c = true ->
  isLink c = false /\ isDeleteProgram c = false /\ isAlert c = false.
Proof. destruct c; cbn; intros [H|H]; try discriminate H; auto. Qed.

(** C3, as the script behaves. When a stage fails to compile, [loadShader]
    reports the compiler log in an alert, deletes the shader and returns null;
    nothing tests for that null: [initShaderProgram] still creates the program
    and hands the null to [attachShader]. On a host whose binding throws for
    it, that TypeError ends [main] before [linkProgram] and before any
    callback is registered, so nothing is linked or drawn, ever. On a host
    that records INVALID_VALUE instead, the program is linked all the same,
    [main] runs to its end, and from then on the log holds one [drawScene]
    call for every frame tick delivered, each with the program and the
    texture [main] ended up with. *)
Theorem compile_failure_not_checked (h : Host) (ty : ShaderType) :
  hasWebGL h = true ->
  compileStatus h ty (sourceOf ty) = false ->
  let i := initShaderProgram h vsSource fsSource emptyGL in
  (exists id,
     In (CreateShader ty id) (log (snd i)) /\
     In (Alert (compileMessage h ty (sourceOf ty))) (log (snd i)) /\
     In (DeleteShader id) (log (snd i)) /\
     shaders (snd i) !! id = None) /\
  In (CreateProgram 2) (log (snd i)) /\
  In (AttachShader 2 None) (log (snd i)) /\
  (nullThrows h = true ->
     fst i = Throw "TypeError" /\
     forall evs,
       run h evs = (Throw "TypeError", snd i) /\
       forall c, In c (log (snd (run h evs))) -> isLink c = false /\ isDraw c = false) /\
  (nullThrows h = false ->
     In (LinkProgram 2) (log (snd i)) /\
     exists a, fst (main h emptyGL) = Ok (Some a) /\
       forall evs,
         fst (run h evs) = Ok (Some a) /\
         In (LinkProgram 2) (log (snd (run h evs))) /\
         countCalls isDraw (log (snd (run h evs))) = countFrames evs /\
         forall c, In c (log (snd (run h evs))) -> isDraw c = true ->
           exists rx ry,
             c = DrawScene (program (programInfo a)) (texture a) rx ry).
Proof.
  intros Hw Hc. cbv zeta. rewrite initShaderProgram_eq.
  destruct (initOutcome_compile_failure h ty Hc) as (Hrep & Hcp & Hat & Hstrict & Hlen).
  repeat (split; [assumption|]). split.
  - intros Hn. destruct (Hstrict Hn) as [Hr Hk]. split; [exact Hr|].
    intros evs.
    assert (E : run h evs
                = (Throw "TypeError",
                   snd (initShaderProgramOutcome h vsSource fsSource emptyGL))).
    { apply run_throw. rewrite (main_eq h Hw). unfold mainOutcome.
      destruct (initShaderProgramOutcome h vsSource fsSource emptyGL) as [r g1].
      cbn [fst snd] in *. now subst r. }
    rewrite E. split; [reflexivity | exact Hk].
  - intros Hn. destruct (Hlen Hn) as [Hl [sp Hr]]. split; [exact Hl|].
    assert (Hm : exists a g, main h emptyGL = (Ok (Some a), g)).
    { rewrite (main_eq h Hw). unfold mainOutcome.
      destruct (initShaderProgramOutcome h vsSource fsSource emptyGL) as [r g1].
      cbn [fst] in Hr. subst r. unfold resolveOutcome.
      destruct sp as [p|]; [destruct (isLinked p g1)|rewrite Hn]; eauto. }
    destruct Hm as (a & g & Hm). exists a. rewrite Hm. split; [reflexivity|].
    intros evs. split; [|split].
    + unfold run. now rewrite Hm.
    + destruct (run_frame h evs Hw) as (_ & _ & l & El & _).
      rewrite El. apply in_or_app. now left.
    + destruct (run_draws h a g evs Hm) as (A & _ & B). split; [exact A | exact B].
Qed.

(** ** Link failure and missing names *)

Lemma initOutcome_compiled (h : Host) :
  compileStatus h VERTEX_SHADER vsSource = true ->
  compileStatus h FRAGMENT_SHADER fsSource = true ->
  let ok := linkStatus h compiledStages in
  initShaderProgramOutcome h vsSource fsSource emptyGL =
  (Ok (if ok then Some 2%nat else None),
   {| shaders := <[1%nat := mkShader FRAGMENT_SHADER fsSource true]>
                   (<[0%nat := mkShader VERTEX_SHADER vsSource true]> ∅);
      programs := <[2%nat := mkProgram [0%nat; 1%nat] ok]> ∅;
      textures := ∅; boundTexture := None; nextId := 3; errors := [];
      log := compiledCalls ++ (if ok then [] else [Alert (linkMessage h)]) |}).
Proof.
  intros Hv Hf. cbv zeta.
  unfold initShaderProgramOutcome, loadShaderResult, loadShaderObjects,
    loadShaderCalls.
  rewrite Hv, Hf.
  cbn [rejects attachedOf nullErrors nextId emptyGL shaders programs textures
       boundTexture errors log Datatypes.app omap].
  simplify_map_eq. reflexivity.
Qed.

(** C5. When the link fails, [initShaderProgram] reports the link log in an
    alert and returns null, and that is all: the program object it created
    for the attempt is still live when it returns and after any events, and
    [deleteProgram] is never called. ([loadShader] does release its shader
    when compilation fails.) *)
Theorem link_failure_keeps_program (h : Host) :
  hasWebGL h = true ->
  compileStatus h VERTEX_SHADER vsSource = true ->
  compileStatus h FRAGMENT_SHADER fsSource = true ->
  linkStatus h compiledStages = false ->
  let i := initShaderProgram h vsSource fsSource emptyGL in
  fst i = Ok None /\
  log (snd i) = compiledCalls ++ [Alert (linkMessage h)] /\
  programs (snd i) !! 2%nat = Some (mkProgram [0%nat; 1%nat] false) /\
  forall evs,
    programs (snd (run h evs)) !! 2%nat = Some (mkProgram [0%nat; 1%nat] false) /\
    forall c, In c (log (snd (run h evs))) -> isDeleteProgram c = false.
Proof.
  intros Hw Hv Hf Hl. cbv zeta.
  rewrite initShaderProgram_eq.
  pose proof (initOutcome_compiled h Hv Hf) as E. cbv zeta in E.
  rewrite Hl in E.
  split; [now rewrite E|]. split; [now rewrite E|].
  assert (Hp : programs (snd (initShaderProgramOutcome h vsSource fsSource emptyGL))
               !! 2%nat = Some (mkProgram [0%nat; 1%nat] false)).
  { rewrite E. cbn [snd programs]. apply lookup_insert_eq. }
  split; [exact Hp|].
  intros evs.
  destruct (run_frame h evs Hw) as (_ & Hpr & l & El & Hk).
  rewrite Hpr. split; [exact Hp|].
  rewrite El, E. cbn [snd log].
  intros c [Hc|Hc]%in_app_or.
  - revert c Hc. unfold compiledCalls. each_member.
  - now apply setup_or_event_call, Hk.
Qed.

Lemma link_failure_keeps_program_witness :
  let h := noLinkHost false in
  hasWebGL h = true /\
  compileStatus h VERTEX_SHADER vsSource = true /\
  compileStatus h FRAGMENT_SHADER fsSource = true /\
  linkStatus h compiledStages = false /\
  fst (initShaderProgram h vsSource fsSource emptyGL) = Ok None.
Proof.
  cbv zeta. repeat (split; [reflexivity|]).
  exact (proj1 (link_failure_keeps_program (noLinkHost false)
                  eq_refl eq_refl eq_refl eq_refl)).
Defined.

(** C4, as the script behaves. After a successful link the seven locations
    are stored in [programInfo] exactly as the host returns them, -1 or null
    for a name the program lacks included: nothing is checked, [main] returns
    normally with no GL error recorded, and no alert is ever shown. *)
Theorem locations_stored_as_returned (h : Host) :
  hasWebGL h = true ->
  compileStatus h VERTEX_SHADER vsSource = true ->
  compileStatus h FRAGMENT_SHADER fsSource = true ->
  linkStatus h compiledStages = true ->
  let a := mkApp (hostLocations h (Some 2%nat)) 3 in
  fst (main h emptyGL) = Ok (Some a) /\
  errors (snd (main h emptyGL)) = [] /\
  forall evs,
    fst (run h evs) = Ok (Some a) /\
    forall c, In c (log (snd (run h evs))) -> isAlert c = false.
Proof.
  intros Hw Hv Hf Hl. cbv zeta.
  pose proof (initOutcome_compiled h Hv Hf) as E. cbv zeta in E.
  rewrite Hl in E.
  assert (Em : mainOutcome h
             = (Ok (Some (mkApp (hostLocations h (Some 2%nat)) 3)),
                pageSetup (snd (initShaderProgramOutcome h vsSource fsSource emptyGL)))).
  { unfold mainOutcome. rewrite E. unfold resolveOutcome, isLinked.
    cbn [programs snd]. rewrite lookup_insert_eq. reflexivity. }
  rewrite (main_eq h Hw), Em. split; [reflexivity|].
  split; [rewrite E; reflexivity|].
  intros evs. split.
  - unfold run. now rewrite (main_eq h Hw), Em.
  - destruct (run_frame h evs Hw) as (_ & _ & l & El & Hk).
    rewrite El, E. cbn [snd log]. rewrite app_nil_r.
    intros c [Hc|Hc]%in_app_or.
    + revert c Hc. unfold compiledCalls. each_member.
    + now apply setup_or_event_call, Hk.
Qed.

Lemma locations_stored_as_returned_witness :
  let h := workingHost in
  hasWebGL h = true /\
  compileStatus h VERTEX_SHADER vsSource = true /\
  compileStatus h FRAGMENT_SHADER fsSource = true /\
  linkStatus h compiledStages = true /\
  fst (main h emptyGL) = Ok (Some (mkApp (hostLocations h (Some 2%nat)) 3)).
Proof.
  cbv zeta. repeat (split; [reflexivity|]).
  exact (proj1 (locations_stored_as_returned workingHost
                  eq_refl eq_refl eq_refl eq_refl)).
Defined.

(** C4, as it is worded, fails on a host whose linked program lacks
    [aVertexNormal] and [uSampler]: the -1 and the null are stored, nothing is
    raised or reported, and the frame is drawn with them. *)
Lemma missing_names_not_reported :
  let h := missingNamesHost in
  let r := run h [Frame 16] in
  attribLocation h "aVertexNormal" = (-1)%Z /\
  uniformLocation h "uSampler" = None /\
  (exists a, fst r = Ok (Some a) /\
     vertexNormal (attribLocations (programInfo a)) = (-1)%Z /\
     uSampler (uniformLocations (programInfo a)) = None) /\
  errors (snd r) = [] /\
  existsb isAlert (log (snd r)) = false /\
  In (DrawScene (Some 2%nat) 3 0 0) (log (snd r)).
Proof.
  cbv zeta. split; [reflexivity|]. split; [reflexivity|].
  split; [eexists; vm_compute; auto|].
  split; [vm_compute; reflexivity|].
  split; [vm_compute; reflexivity|].
  vm_compute; repeat first [left; reflexivity | right].
Qed.

Lemma compile_failure_not_checked_witness :
  let h := noFragmentHost false in
  hasWebGL h = true /\
  compileStatus h FRAGMENT_SHADER (sourceOf FRAGMENT_SHADER) = false /\
  nullThrows h = false /\
  In (LinkProgram 2) (log (snd (initShaderProgram h vsSource fsSource emptyGL))) /\
  (exists a, fst (main h emptyGL) = Ok (Some a) /\
     countCalls isDraw (log (snd (run h session))) = countFrames session) /\
  fst (initShaderProgram (noFragmentHost true) vsSource fsSource emptyGL)
  = Throw "TypeError".
Proof.
  cbv zeta. do 3 (split; [reflexivity|]).
  destruct (compile_failure_not_checked (noFragmentHost false) FRAGMENT_SHADER
              eq_refl eq_refl) as (_ & _ & _ & _ & Hlen).
  destruct (Hlen eq_refl) as (Hl & a & Ha & Hall).
  split; [exact Hl|]. split.
  - exists a. split; [exact Ha|]. exact (proj1 (proj2 (proj2 (Hall session)))).
  - exact (proj1 (proj1 (proj2 (proj2 (proj2
             (compile_failure_not_checked (noFragmentHost true) FRAGMENT_SHADER
                eq_refl eq_refl)))) eq_refl)).
Defined.

(** The claim of C3 fails on a host whose binding records INVALID_VALUE for a
    null shader: the fragment stage does not compile, yet the program is
    linked, [main] returns normally and both frames of the run are drawn. *)
Lemma compile_failure_still_links_and_draws :
  let h := noFragmentHost false in
  let r := run h [Frame 16; Frame 33] in
  compileStatus h FRAGMENT_SHADER fsSource = false /\
  (exists a, fst r = Ok (Some a)) /\
  In (LinkProgram 2) (log (snd r)) /\
  In (DrawScene None 3 0 0) (log (snd r)) /\
  countCalls isDraw (log (snd r)) = 2%nat.
Proof.
  cbv zeta. split; [reflexivity|]. split; [eexists; vm_compute; reflexivity|].
  split; [|split]; vm_compute; repeat first [reflexivity | left; reflexivity | right].
Qed.

(** * Further properties of the script *)

Lemma globals_dispatch_held (w : World) (ev : Event) :
  dragging (globals w) = true -> heldEvent ev = true ->
  globals (dispatch w ev)
  = match ev with MouseMove e => onMouseMove e (globals w) | _ => globals w end.
Proof.
  intros Hd Hh. destruct ev; try discriminate Hh; try reflexivity.
  cbn [dispatch]. rewrite globals_render. unfold renderGlobals. now rewrite Hd.
Qed.

Lemma quiet_while_held (evs : list Event) (w : World) :
  dragging (globals w) = true ->
  forallb quietEvent evs = true ->
  globals (dispatchAll w evs) = globals w.
Proof.
  unfold dispatchAll. revert w.
  induction evs as [|ev evs IH]; intros w Hd Hq; [reflexivity|].
  cbn [forallb] in Hq. apply andb_true_iff in Hq as [Hev Hq]. cbn [foldl].
  assert (Eg : globals (dispatch w ev) = globals w).
  { rewrite globals_dispatch_held; [|exact Hd|now destruct ev].
    now destruct ev. }
  rewrite IH; [exact Eg | now rewrite Eg | exact Hq].
Qed.

(** X1. A whole drag in double precision: the button goes down at [e0],
    moves and frame ticks arrive in any order, the button goes up. The drag
    is over, the recorded position is the last one reported, and the yaw and
    the pitch have changed by (x_last - x_0) * 0.01 and (y_last - y_0) * 0.01
    up to the rounding of the moves made: where the pointer went in between
    and the frames rendered meanwhile show only in the tolerance. *)
Theorem drag_follows_pointer (e0 : Double.MouseEvent) (evs : list Double.Event)
  (g : Double.Globals) :
  moderate (Double.rotationX g) -> moderate (Double.rotationY g) ->
  moderate (Double.clientX e0) -> moderate (Double.clientY e0) ->
  forallb Double.whileHeld evs = true ->
  Forall (fun e => moderate (Double.clientX e) /\ moderate (Double.clientY e))
         (Double.movesOf evs) ->
  (Z.of_nat (length (Double.movesOf evs)) <= 2 ^ 52)%Z ->
  let g' := Double.dispatchAll g (Double.MouseDown e0 :: evs ++ [Double.MouseUp]) in
  let e1 := List.last (Double.movesOf evs) e0 in
  let travelX := Qsum (map Qabs (steps (valueOf (Double.clientX e0))
                   (map (fun e => valueOf (Double.clientX e)) (Double.movesOf evs)))) in
  let travelY := Qsum (map Qabs (steps (valueOf (Double.clientY e0))
                   (map (fun e => valueOf (Double.clientY e)) (Double.movesOf evs)))) in
  Double.dragging g' = false /\
  Double.lastMouseX g' = Double.clientX e1 /\
  Double.lastMouseY g' = Double.clientY e1 /\
  Qabs (valueOf (Double.rotationY g')
        - (valueOf (Double.rotationY g)
           + (valueOf (Double.clientX e1) - valueOf (Double.clientX e0)) * 0.01))
    <= inject_Z (Z.of_nat (length (Double.movesOf evs)))
       * dragTolerance (valueOf (Double.rotationY g)) travelX /\
  Qabs (valueOf (Double.rotationX g')
        - (valueOf (Double.rotationX g)
           + (valueOf (Double.clientY e1) - valueOf (Double.clientY e0)) * 0.01))
    <= inject_Z (Z.of_nat (length (Double.movesOf evs)))
       * dragTolerance (valueOf (Double.rotationX g)) travelY.
Proof.
  intros Mrx Mry Mx0 My0 Hh Hes Hn. cbv zeta.
  set (es := Double.movesOf evs) in *.
  set (g0 := Double.onMouseDown e0 g).
  assert (Hd : Double.dragging g0 = true) by reflexivity.
  assert (Eg : Double.dispatchAll g (Double.MouseDown e0 :: evs ++ [Double.MouseUp])
               = Double.onMouseUp (Double.moves es g0)).
  { unfold Double.dispatchAll. cbn [foldl Double.dispatch]. fold g0.
    rewrite foldl_app. cbn [foldl Double.dispatch].
    fold (Double.dispatchAll g0 evs). now rewrite held_run_moves. }
  rewrite Eg. clear Eg.
  destruct (moves_axes es g0 Hd) as (_ & A & B). cbv zeta in A, B.
  change (Double.rotationY g0) with (Double.rotationY g) in A.
  change (Double.rotationX g0) with (Double.rotationX g) in B.
  change (Double.lastMouseX g0) with (Double.clientX e0) in A.
  change (Double.lastMouseY g0) with (Double.clientY e0) in B.
  cbn [Double.onMouseUp Double.dragging Double.lastMouseX Double.lastMouseY
       Double.rotationX Double.rotationY].
  assert (Ey : Double.rotationY (Double.moves es g0)
               = fst (dragAxis (Double.rotationY g) (Double.clientX e0)
                               (map Double.clientX es))) by now rewrite <- A.
  assert (Ex : Double.rotationX (Double.moves es g0)
               = fst (dragAxis (Double.rotationX g) (Double.clientY e0)
                               (map Double.clientY es))) by now rewrite <- B.
  assert (Elx : Double.lastMouseX (Double.moves es g0)
                = snd (dragAxis (Double.rotationY g) (Double.clientX e0)
                                (map Double.clientX es))) by now rewrite <- A.
  assert (Ely : Double.lastMouseY (Double.moves es g0)
                = snd (dragAxis (Double.rotationX g) (Double.clientY e0)
                                (map Double.clientY es))) by now rewrite <- B.
  rewrite Ey, Ex, Elx, Ely, !dragAxis_last.
  rewrite <- (last_map Double.clientX es e0), <- (last_map Double.clientY es e0).
  split; [reflexivity|]. split; [reflexivity|]. split; [reflexivity|].
  destruct (drag_axis_tolerance (Double.rotationY g) (Double.clientX e0)
              (map Double.clientX es) Mry Mx0) as [_ Ty].
  { apply Forall_map. eapply Forall_impl; [exact Hes|]. now intros e [H _]. }
  { now rewrite length_map. }
  destruct (drag_axis_tolerance (Double.rotationX g) (Double.clientY e0)
              (map Double.clientY es) Mrx My0) as [_ Tx].
  { apply Forall_map. eapply Forall_impl; [exact Hes|]. now intros e [_ H]. }
  { now rewrite length_map. }
  cbv zeta in Ty, Tx. rewrite steps_telescope, length_map in Ty, Tx.
  rewrite !last_map in Ty, Tx. rewrite !map_map in Ty, Tx.
  rewrite <- !last_map. rewrite !last_map.
  split; [exact Ty | exact Tx].
Qed.

(** X2. Pressing and releasing without a move in between, however many
    frames are rendered meanwhile, leaves both angles and both velocities as
    they were: the decay is suspended while the button is held and resumes
    with the velocity it had. *)
Theorem hold_suspends_decay (w : World) (p0 : MouseEvent) (evs : list Event) :
  forallb quietEvent evs = true ->
  let g := globals w in
  let g' := globals (dispatchAll w (MouseDown p0 :: evs ++ [MouseUp])) in
  dragging g' = false /\
  rotationX g' = rotationX g /\ rotationY g' = rotationY g /\
  velocityX g' = velocityX g /\ velocityY g' = velocityY g.
Proof.
  intros Hq. cbv zeta.
  change (MouseDown p0 :: evs ++ [MouseUp]) with ((MouseDown p0 :: evs) ++ [MouseUp]).
  rewrite dispatchAll_snoc.
  change (dispatchAll w (MouseDown p0 :: evs))
    with (dispatchAll (dispatch w (MouseDown p0)) evs).
  cbn [dispatch onGlobals globals onMouseUp dragging rotationX rotationY
       velocityX velocityY].
  rewrite (quiet_while_held evs (onGlobals (onMouseDown p0) w) eq_refl Hq).
  cbn. auto.
Qed.

Lemma hold_suspends_decay_witness :
  forallb quietEvent [Frame 16; Frame 33; Frame 50] = true /\
  velocityX (globals (dispatchAll (worldOf flick)
     (MouseDown (mkMouse 10 10) :: [Frame 16; Frame 33; Frame 50] ++ [MouseUp])))
  = 0.1.
Proof.
  split; [reflexivity|].
  exact (proj1 (proj2 (proj2 (proj2 (hold_suspends_decay (worldOf flick) (mkMouse 10 10)
     [Frame 16; Frame 33; Frame 50] eq_refl))))).
Defined.

(** X3. While the button is up, pointer moves (and a stray release) change
    nothing: neither the module-level state nor the host. *)
Theorem idle_moves_ignored (w : World) (es : list MouseEvent) :
  dragging (globals w) = false ->
  globals (dispatchAll w (map MouseMove es ++ [MouseUp])) = globals w /\
  gl (dispatchAll w (map MouseMove es ++ [MouseUp])) = gl w.
Proof.
  intros Hd. rewrite dispatchAll_snoc. unfold dispatchAll.
  assert (H : forall w0, dragging (globals w0) = false ->
            globals (foldl dispatch w0 (map MouseMove es)) = globals w0 /\
            gl (foldl dispatch w0 (map MouseMove es)) = gl w0).
  { induction es as [|e es IH]; intros w0 H0; [auto|].
    cbn [map foldl].
    assert (Eg : globals (dispatch w0 (MouseMove e)) = globals w0).
    { cbn [dispatch onGlobals globals]. unfold onMouseMove. now rewrite H0. }
    destruct (IH (dispatch w0 (MouseMove e))) as [A B]; [now rewrite Eg|].
    rewrite A, B. auto. }
  destruct (H w Hd) as [A B].
  cbn [dispatch onGlobals globals gl]. rewrite A, B. split; [|reflexivity].
  destruct (globals w) as [d lx ly rx ry vx vy]. cbn in Hd. subst d. reflexivity.
Qed.

Lemma idle_moves_ignored_witness :
  dragging (globals (worldOf flick)) = false /\
  globals (dispatchAll (worldOf flick)
             (map MouseMove [mkMouse 1 2; mkMouse 30 40] ++ [MouseUp])) = flick.
Proof.
  split; [reflexivity|].
  exact (proj1 (idle_moves_ignored (worldOf flick) [mkMouse 1 2; mkMouse 30 40] eq_refl)).
Defined.

(** X4. The rotation state after a run of frames depends on how many frames
    there were, not on their timestamps: [deltaTime] is computed and never
    used. *)
Theorem frames_ignore_timestamps (w : World) (nows nows' : list Q) :
  length nows = length nows' ->
  globals (frames nows w) = globals (frames nows' w).
Proof. intros H. now rewrite !globals_frames, H. Qed.

Lemma frames_ignore_timestamps_witness :
  length [16; 33] = length [1000; 5000] /\
  globals (frames [16; 33] (worldOf flick)) = globals (frames [1000; 5000] (worldOf flick)).
Proof.
  split; [reflexivity|].
  exact (frames_ignore_timestamps (worldOf flick) [16; 33] [1000; 5000] eq_refl).
Defined.

(** X5. After release, in double precision: friction never makes a velocity
    larger in magnitude, not even by rounding, so no velocity ever exceeds
    its value at release; a velocity that is not zero at release is never
    scaled to zero; and after [n] idle ticks each angle has moved by at most
    20 = 1 / (1 - 0.95) times the magnitude of its velocity at release, plus
    the tolerance of [n] additions. *)
Theorem idle_travel_bounded (g : Double.Globals) (n : nat) :
  Double.dragging g = false ->
  moderate (Double.rotationX g) -> moderate (Double.rotationY g) ->
  moderate (Double.velocityX g) -> moderate (Double.velocityY g) ->
  (Z.of_nat n <= 2 ^ 52)%Z ->
  let g' := Double.ticks n g in
  Qabs (valueOf (Double.velocityX (Double.renderGlobals g')))
    <= Qabs (valueOf (Double.velocityX g')) /\
  Qabs (valueOf (Double.velocityY (Double.renderGlobals g')))
    <= Qabs (valueOf (Double.velocityY g')) /\
  Qabs (valueOf (Double.velocityX g')) <= Qabs (valueOf (Double.velocityX g)) /\
  Qabs (valueOf (Double.velocityY g')) <= Qabs (valueOf (Double.velocityY g)) /\
  (~ valueOf (Double.velocityX g) == 0 -> ~ valueOf (Double.velocityX g') == 0) /\
  (~ valueOf (Double.velocityY g) == 0 -> ~ valueOf (Double.velocityY g') == 0) /\
  Qabs (valueOf (Double.rotationX g') - valueOf (Double.rotationX g))
    <= 20 * Qabs (valueOf (Double.velocityX g))
       + inject_Z (Z.of_nat n)
         * angleTolerance (valueOf (Double.rotationX g)) (valueOf (Double.velocityX g)) /\
  Qabs (valueOf (Double.rotationY g') - valueOf (Double.rotationY g))
    <= 20 * Qabs (valueOf (Double.velocityY g))
       + inject_Z (Z.of_nat n)
         * angleTolerance (valueOf (Double.rotationY g)) (valueOf (Double.velocityY g)).
Proof.
  intros Hd Mrx Mry Mvx Mvy Hn. cbv zeta.
  destruct (ticks_axes (S n) g Hd) as (_ & _ & VX' & _ & VY').
  destruct (ticks_axes n g Hd) as (_ & RX & VX & RY & VY).
  rewrite <- ticks_succ, VX', VY', RX, VX, RY, VY.
  destruct (velocity_never_grows (Double.velocityX g) n Mvx) as (_ & X1 & X2 & X3).
  destruct (velocity_never_grows (Double.velocityY g) n Mvy) as (_ & Y1 & Y2 & Y3).
  repeat (split; [assumption|]).
  split; apply axis_travel; assumption.
Qed.

(** X6. On a page whose set-up completed, the log holds exactly one
    [drawScene] call per frame event, whatever other events are delivered,
    and one more frame request than frames: each tick re-arms the loop
    once. *)
Theorem one_draw_per_frame (h : Host) (evs : list Event) (a : App) (g : GL) :
  run h evs = (Ok (Some a), g) ->
  countCalls isDraw (log g) = countFrames evs /\
  countCalls isFrameRequest (log g) = S (countFrames evs).
Proof.
  intros Hr.
  assert (Em : exists g0, main h emptyGL = (Ok (Some a), g0)).
  { revert Hr. unfold run.
    destruct (main h emptyGL) as [[[a0|]|e] g0]; intros [= <- <-]. eauto. }
  destruct Em as [g0 Em].
  destruct (run_draws h a g0 evs Em) as (A & B & _).
  rewrite Hr in A, B. split; [exact A | exact B].
Qed.

(** X7. [loadShader], from any host state with a fresh handle: when the source
    compiles it returns the new shader, live and compiled, after three calls
    and no alert; when it does not, it alerts the compiler log, deletes the
    shader and returns null, and the live shaders are exactly those there
    were before. Programs, textures and errors are untouched either way. *)
Theorem loadShader_all_or_nothing (h : Host) (ty : ShaderType) (src : string) (g : GL) :
  shaders g !! nextId g = None ->
  let id := nextId g in
  let r := loadShader h ty src g in
  nextId (snd r) = S id /\ programs (snd r) = programs g /\
  textures (snd r) = textures g /\ errors (snd r) = errors g /\
  (compileStatus h ty src = true ->
     fst r = Ok (Some id) /\
     shaders (snd r) = <[id := mkShader ty src true]> (shaders g) /\
     log (snd r) = log g ++ [CreateShader ty id; ShaderSource id src;
                             CompileShader id]) /\
  (compileStatus h ty src = false ->
     fst r = Ok None /\
     shaders (snd r) = shaders g /\
     log (snd r) = log g ++ [CreateShader ty id; ShaderSource id src;
                             CompileShader id;
                             Alert (compileMessage h ty src); DeleteShader id]).
Proof.
  intros Hfresh. cbv zeta. rewrite loadShader_eq. cbn [fst snd nextId programs
    textures errors shaders log].
  unfold loadShaderResult, loadShaderObjects, loadShaderCalls.
  repeat (split; [reflexivity|]).
  split; intros Hc; rewrite Hc; repeat split.
  now apply delete_id.
Qed.

Lemma loadShader_all_or_nothing_witness :
  shaders emptyGL !! nextId emptyGL = None /\
  fst (loadShader (noFragmentHost true) FRAGMENT_SHADER fsSource emptyGL) = Ok None /\
  shaders (snd (loadShader (noFragmentHost true) FRAGMENT_SHADER fsSource emptyGL))
  = shaders emptyGL.
Proof.
  split; [reflexivity|].
  destruct (loadShader_all_or_nothing (noFragmentHost true) FRAGMENT_SHADER
              fsSource emptyGL eq_refl) as (_ & _ & _ & _ & _ & H).
  destruct (H eq_refl) as (A & B & _). split; [exact A | exact B].
Defined.

(** X8. What each result of [initShaderProgram] means, from any host state.
    A program handle is returned only for the program just created, linked,
    with [linkProgram] as the last call; null is returned only after the link
    failed, with the link alert as the last call and the program still
    there; and it throws only a TypeError, on a host that throws for null,
    when a stage failed to compile, with the null [attachShader] as the last
    call. *)
Theorem initShaderProgram_by_result (h : Host) (vs fs : string) (g : GL) :
  let p := S (S (nextId g)) in
  let r := initShaderProgram h vs fs g in
  (forall q, fst r = Ok (Some q) ->
     q = p /\ isLinked p (snd r) = true /\
     last (log (snd r)) = Some (LinkProgram p)) /\
  (fst r = Ok None ->
     isLinked p (snd r) = false /\ is_Some (programs (snd r) !! p) /\
     last (log (snd r)) = Some (Alert (linkMessage h))) /\
  (forall e, fst r = Throw e ->
     e = "TypeError" /\ nullThrows h = true /\
     (compileStatus h VERTEX_SHADER vs = false \/
      compileStatus h FRAGMENT_SHADER fs = false) /\
     last (log (snd r)) = Some (AttachShader p None)).
Proof.
  cbv zeta. rewrite initShaderProgram_eq.
  unfold initShaderProgramOutcome, loadShaderResult, isLinked.
  destruct (compileStatus h VERTEX_SHADER vs);
    destruct (compileStatus h FRAGMENT_SHADER fs);
    cbn [rejects]; destruct (nullThrows h);
    try match goal with
      | |- context [linkStatus h ?l] => destruct (linkStatus h l)
      end;
    cbn [fst snd programs log]; rewrite ?lookup_insert_eq; cbn [linked];
    (split; [intros q [=]; subst; repeat split | split; [intros [=]; repeat split; eauto | intros e [=]; subst; repeat split; auto]]);
    rewrite ?app_nil_r, ?app_assoc; rewrite last_app; reflexivity.
Qed.

(** X9. [image.onload] binds its own texture first, so whatever is bound when
    the image arrives only that texture can change: every other texture is as
    it was and no object is created. If the host takes the upload, the pixel
    store of the texture is the image and no error is recorded; if the host
    turns it down with a GL error, the error is recorded and the pixel store
    stays; if [texImage2D] throws a SecurityError the callback ends there,
    with the binding as its only effect. *)
Theorem onload_touches_own_texture (t : nat) (img : Image) (g : GL) (tex : Texture) :
  textures g !! t = Some tex ->
  let r := imageOnload t img g in
  boundTexture (snd r) = Some t /\
  (forall t', t' <> t -> textures (snd r) !! t' = textures g !! t') /\
  dom (textures (snd r)) = dom (textures g) /\
  nextId (snd r) = nextId g /\
  shaders (snd r) = shaders g /\ programs (snd r) = programs g /\
  (upload img = Taken ->
     fst r = Ok tt /\ errors (snd r) = errors g /\
     (texImage <$> textures (snd r) !! t)
     = Some (Some (mkTexImage (width img) (height img) (rgba img)))) /\
  (forall e, upload img = Refused e ->
     fst r = Ok tt /\ errors (snd r) = errors g ++ [e] /\
     (texImage <$> textures (snd r) !! t) = Some (texImage tex)) /\
  (upload img = Tainted ->
     fst r = Throw "SecurityError" /\ errors (snd r) = errors g /\
     textures (snd r) = textures g /\
     log (snd r) = log g ++ [BindTexture (Some t); TexImage2DImage img]).
Proof.
  intros Ht. cbv zeta. rewrite imageOnload_eq by (rewrite Ht; eauto).
  unfold imageOnloadOutcome, uploadErrors, onloadCalls, uploaded.
  cbn [fst snd boundTexture textures nextId shaders programs errors log].
  destruct (upload img) as [|e|];
    (split; [reflexivity|]);
    (split; [intros t' Hne; try reflexivity; now apply lookup_alter_ne|]);
    (split; [try reflexivity; apply dom_alter_L|]);
    do 3 (split; [reflexivity|]);
    (split; [|split]); try (intros; discriminate).
  - intros _. rewrite app_nil_r, lookup_alter_eq, Ht.
    cbn [fmap option_fmap option_map]. now rewrite policy_texImage.
  - intros e' [= <-]. rewrite lookup_alter_eq, Ht.
    cbn [fmap option_fmap option_map]. now rewrite policy_texImage.
  - intros _. now rewrite !app_nil_r.
Qed.

(** X10. Once [main] has completed, whatever events arrive, the script adds
    to the log only calls of the kinds its callbacks make: clear, drawScene,
    requestAnimationFrame, bindTexture, the image upload, generateMipmap and
    texParameteri. No callback creates, deletes, compiles, attaches or links
    anything, and none shows an alert. *)
Theorem callbacks_create_nothing (h : Host) (a : App) (g : GL) (evs : list Event) :
  main h emptyGL = (Ok (Some a), g) ->
  exists l : list Call,
    log (snd (run h evs)) = log g ++ l /\
    forall c : Call, In c l -> isEventCall c = true.
Proof.
  intros Em. unfold run. rewrite Em. cbn [snd].
  destruct (dispatchAll_frame evs (mkWorld initialGlobals 0 a g)) as (_ & _ & l & Hl & Hk).
  exists l. split; [exact Hl | exact Hk].
Qed.

(** X11. Without a WebGL context [main] shows one alert and returns: no GL
    object is created, no callback is registered, and no event has any
    effect afterwards. *)
Theorem no_webgl_only_alerts (h : Host) (evs : list Event) :
  hasWebGL h = false ->
  fst (run h evs) = Ok None /\
  log (snd (run h evs)) = [Alert "Unable to initialize WebGL."] /\
  shaders (snd (run h evs)) = ∅ /\ programs (snd (run h evs)) = ∅ /\
  textures (snd (run h evs)) = ∅.
Proof.
  intros Hw. unfold run, main. rewrite Hw. cbn [negb]. run_m.
  cbn. repeat split.
Qed.

(** X12. The set-up is all or nothing, on every host. Either [main] returns
    normally past line 12 and its log ends with the eleven calls of lines
    70-106 (buffers, placeholder texture, four listeners, first frame
    request) after shader calls only; or it does not, and then none of these
    calls was made and no event has any effect afterwards. *)
Theorem setup_all_or_nothing (h : Host) :
  let m := main h emptyGL in
  (exists a, fst m = Ok (Some a) /\
     exists l, (forall c, In c l -> isShaderCall c = true) /\
       log (snd m)
       = l ++ [InitBuffers; CreateTexture 3; BindTexture (Some 3%nat);
               TexImage2DPixels 1 1 pixel;
               ImageSetSrc "images/cubetexture.png"; PixelStorei;
               AddEventListener "mousedown"; AddEventListener "mouseup";
               AddEventListener "mousemove";
               AddEventListener "contextmenu"; RequestAnimationFrame]) \/
  ((forall a, fst m <> Ok (Some a)) /\
   (forall c, In c (log (snd m)) -> isSetupCall c = false) /\
   forall evs, run h evs = m).
Proof.
  cbv zeta. destruct (main h emptyGL) as [[[a|]|e] g] eqn:Em; cbn [fst snd].
  - left. exists a. split; [reflexivity|].
    now destruct (main_completed_log h a g Em) as (_ & _ & H).
  - right. split; [intros a [=]|]. split.
    + destruct (hasWebGL h) eqn:Hw.
      * exfalso. revert Em. rewrite (main_eq h Hw). unfold mainOutcome.
        destruct (initShaderProgramOutcome h vsSource fsSource emptyGL)
          as [[sp|e] g1]; [|intros [=]].
        destruct (resolveOutcome h sp g1) as [[info|e] g2]; intros [=].
      * revert Em. unfold main. rewrite Hw. cbn [negb]. run_m.
        intros [= <-]. each_member.
    + intros evs. unfold run. now rewrite Em.
  - right. split; [intros a [=]|]. split.
    + destruct (hasWebGL h) eqn:Hw.
      * revert Em. rewrite (main_eq h Hw). unfold mainOutcome.
        pose proof (initOutcome_calls h) as Hk.
        destruct (initShaderProgramOutcome h vsSource fsSource emptyGL)
          as [[sp|e0] g1]; cbn [snd] in Hk.
        -- destruct (resolveOutcome_frame h sp g1) as (_ & _ & _ & _ & Hl).
           destruct (resolveOutcome h sp g1) as [[info|e1] g2]; intros [=].
           subst. cbn [snd] in Hl. rewrite Hl.
           intros c Hc. now apply shader_call_kinds, Hk.
        -- intros [= <- <-]. intros c Hc. now apply shader_call_kinds, Hk.
      * revert Em. unfold main. rewrite Hw. cbn [negb]. run_m. intros [=].
    + intros evs. unfold run. now rewrite Em.
Qed.

(** X13. What a link failure does to the page. [main] does not test the null
    program: on a host that throws for null the first [getAttribLocation]
    ends [main] with a TypeError right after the link alert, and nothing
    runs afterwards; on a host that records INVALID_VALUE the seven look-ups
    record seven errors, every location is -1 or null, and from then on the
    log holds one [drawScene] call for every frame tick delivered, each of
    them with a null program. *)
Theorem link_failure_page (h : Host) :
  hasWebGL h = true ->
  compileStatus h VERTEX_SHADER vsSource = true ->
  compileStatus h FRAGMENT_SHADER fsSource = true ->
  linkStatus h compiledStages = false ->
  (nullThrows h = true ->
     forall evs,
       fst (run h evs) = Throw "TypeError" /\
       log (snd (run h evs)) = compiledCalls ++ [Alert (linkMessage h)]) /\
  (nullThrows h = false ->
     fst (main h emptyGL) = Ok (Some (mkApp (noLocations None) 3)) /\
     errors (snd (main h emptyGL))
     = [INVALID_VALUE; INVALID_VALUE; INVALID_VALUE; INVALID_VALUE;
        INVALID_VALUE; INVALID_VALUE; INVALID_VALUE] /\
     forall evs,
       countCalls isDraw (log (snd (run h evs))) = countFrames evs /\
       forall c, In c (log (snd (run h evs))) -> isDraw c = true ->
         exists rx ry, c = DrawScene None 3 rx ry).
Proof.
  intros Hw Hv Hf Hl.
  pose proof (initOutcome_compiled h Hv Hf) as E. cbv zeta in E.
  rewrite Hl in E.
  split; intros Hn.
  - intros evs.
    assert (Em : main h emptyGL
                 = (Throw "TypeError",
                    snd (initShaderProgramOutcome h vsSource fsSource emptyGL))).
    { rewrite (main_eq h Hw). unfold mainOutcome. rewrite E.
      unfold resolveOutcome. now rewrite Hn. }
    rewrite (run_throw h _ _ evs Em), E. split; reflexivity.
  - assert (Em : main h emptyGL
                 = (Ok (Some (mkApp (noLocations None) 3)),
                    pageSetup (Nat.iter 7 (glRaise INVALID_VALUE)
                      (snd (initShaderProgramOutcome h vsSource fsSource emptyGL))))).
    { rewrite (main_eq h Hw). unfold mainOutcome. rewrite E.
      unfold resolveOutcome. rewrite Hn. reflexivity. }
    rewrite Em. split; [reflexivity|]. split; [rewrite E; reflexivity|].
    intros evs. destruct (run_draws h _ _ evs Em) as (A & _ & B).
    split; [exact A | exact B].
Qed.

Section PowerOfTwoRange.

Local Open Scope Z_scope.

(** X14. On the [unsigned long] range of an image dimension, [isPowerOf2]
    holds exactly of 0 and of the powers of two up to 2^31. *)
Theorem isPowerOf2_unsigned_long (v : Z) :
  0 <= v < 2 ^ 32 ->
  (isPowerOf2 v = true <-> v = 0 \/ powerOfTwo v).
Proof.
  intros Hv. destruct (Z.eq_dec v 0) as [->|Hne].
  - split; [now left | reflexivity].
  - rewrite isPowerOf2_spec by lia. split; [now right|].
    intros [H|H]; [contradiction | exact H].
Qed.

End PowerOfTwoRange.

(** ** Examples for the further properties *)

Lemma one_draw_per_frame_witness :
  exists (a : App) (g : GL),
    run workingHost session = (Ok (Some a), g) /\
    countCalls isDraw (log g) = 3%nat.
Proof.
  eexists _, _. split.
  - vm_compute. reflexivity.
  - refine (proj1 (one_draw_per_frame workingHost session _ _ _)).
    vm_compute. reflexivity.
Defined.

Lemma onload_touches_own_texture_witness :
  let g := snd (loadTexture "images/cubetexture.png" emptyGL) in
  let taken := mkImage 300 200 [] Taken in
  let refused := mkImage 300 200 [] (Refused INVALID_VALUE) in
  let tainted := mkImage 300 200 [] Tainted in
  textures g !! 0%nat = Some placeholder /\
  (fst (imageOnload 0 taken g) = Ok tt /\
   errors (snd (imageOnload 0 taken g)) = errors g /\
   (texImage <$> textures (snd (imageOnload 0 taken g)) !! 0%nat)
   = Some (Some (mkTexImage 300 200 []))) /\
  (fst (imageOnload 0 refused g) = Ok tt /\
   errors (snd (imageOnload 0 refused g)) = errors g ++ [INVALID_VALUE] /\
   (texImage <$> textures (snd (imageOnload 0 refused g)) !! 0%nat)
   = Some (texImage placeholder)) /\
  (fst (imageOnload 0 tainted g) = Throw "SecurityError" /\
   textures (snd (imageOnload 0 tainted g)) = textures g).
Proof.
  cbv zeta.
  assert (Ht : textures (snd (loadTexture "images/cubetexture.png" emptyGL)) !! 0%nat
               = Some placeholder) by (vm_compute; reflexivity).
  split; [exact Ht|].
  destruct (onload_touches_own_texture 0 (mkImage 300 200 [] Taken) _ placeholder Ht)
    as (_ & _ & _ & _ & _ & _ & T & _).
  destruct (onload_touches_own_texture 0 (mkImage 300 200 [] (Refused INVALID_VALUE))
              _ placeholder Ht)
    as (_ & _ & _ & _ & _ & _ & _ & R & _).
  destruct (onload_touches_own_texture 0 (mkImage 300 200 [] Tainted) _ placeholder Ht)
    as (_ & _ & _ & _ & _ & _ & _ & _ & H).
  split; [exact (T eq_refl)|]. split; [exact (R _ eq_refl)|].
  destruct (H eq_refl) as (A & _ & B & _). split; [exact A | exact B].
Defined.

Lemma no_webgl_only_alerts_witness :
  hasWebGL noContextHost = false /\
  log (snd (run noContextHost session)) = [Alert "Unable to initialize WebGL."].
Proof.
  split; [reflexivity|].
  exact (proj1 (proj2 (no_webgl_only_alerts noContextHost session eq_refl))).
Defined.

Lemma link_failure_page_witness :
  hasWebGL (noLinkHost false) = true /\
  compileStatus (noLinkHost false) VERTEX_SHADER vsSource = true /\
  compileStatus (noLinkHost false) FRAGMENT_SHADER fsSource = true /\
  linkStatus (noLinkHost false) compiledStages = false /\
  nullThrows (noLinkHost false) = false /\
  countCalls isDraw (log (snd (run (noLinkHost false) session))) = countFrames session /\
  nullThrows (noLinkHost true) = true /\
  fst (run (noLinkHost true) session) = Throw "TypeError".
Proof.
  do 5 (split; [reflexivity|]). split; [|split; [reflexivity|]].
  - destruct (proj2 (link_failure_page (noLinkHost false)
                eq_refl eq_refl eq_refl eq_refl) eq_refl) as (_ & _ & H).
    exact (proj1 (H session)).
  - exact (proj1 (proj1 (link_failure_page (noLinkHost true)
                    eq_refl eq_refl eq_refl eq_refl) eq_refl session)).
Defined.

Lemma isPowerOf2_unsigned_long_witness :
  (0 <= 256 < 2 ^ 32)%Z /\ (isPowerOf2 256 = true <-> 256%Z = 0%Z \/ powerOfTwo 256).
Proof.
  assert (H : (0 <= 256 < 2 ^ 32)%Z) by lia.
  split; [exact H|]. exact (isPowerOf2_unsigned_long 256 H).
Defined.

Lemma drag_follows_pointer_witness :
  let e0 := Double.mkMouse 100 100 in
  let g := Double.initialGlobals in
  let g' := Double.dispatchAll g (Double.MouseDown e0 :: double_drag ++ [Double.MouseUp]) in
  forallb Double.whileHeld double_drag = true /\
  (Z.of_nat (length (Double.movesOf double_drag)) <= 2 ^ 52)%Z /\
  Double.dragging g' = false /\
  Double.lastMouseX g' = 130%float /\
  Qabs (valueOf (Double.rotationY g')
        - (valueOf 0%float + (valueOf 130%float - valueOf 100%float) * 0.01))
    <= inject_Z 2 * dragTolerance (valueOf 0%float) (valueOf 30%float).
Proof.
  cbv zeta.
  assert (M : forall x, finite x = true ->
            Qle_bool (Qabs (valueOf x)) (2 ^ 500) = true -> moderate x).
  { intros x F B. split; [exact F | now apply Qle_bool_imp_le]. }
  assert (M0 : moderate 0%float) by (apply M; vm_compute; reflexivity).
  assert (M100 : moderate 100%float) by (apply M; vm_compute; reflexivity).
  assert (Hh : forallb Double.whileHeld double_drag = true) by reflexivity.
  assert (Hes : Forall (fun e => moderate (Double.clientX e) /\ moderate (Double.clientY e))
                  (Double.movesOf double_drag)).
  { repeat constructor; apply M; vm_compute; reflexivity. }
  assert (Hn : (Z.of_nat (length (Double.movesOf double_drag)) <= 2 ^ 52)%Z)
    by (vm_compute; discriminate).
  split; [exact Hh|]. split; [exact Hn|].
  destruct (drag_follows_pointer (Double.mkMouse 100 100) double_drag
              Double.initialGlobals M0 M0 M100 M100 Hh Hes Hn)
    as (D & LX & _ & Y & _).
  split; [exact D|]. split; [exact LX|]. exact Y.
Defined.

Lemma idle_travel_bounded_witness :
  Double.dragging double_flick = false /\
  moderate (Double.velocityX double_flick) /\
  (Z.of_nat 10 <= 2 ^ 52)%Z /\
  Qabs (valueOf (Double.velocityX (Double.ticks 10 double_flick)))
    <= Qabs (valueOf (Double.velocityX double_flick)) /\
  Qabs (valueOf (Double.rotationX (Double.ticks 10 double_flick))
        - valueOf (Double.rotationX double_flick))
    <= 20 * Qabs (valueOf (Double.velocityX double_flick))
       + inject_Z (Z.of_nat 10)
         * angleTolerance (valueOf (Double.rotationX double_flick))
                          (valueOf (Double.velocityX double_flick)).
Proof.
  assert (M : forall x, finite x = true ->
            Qle_bool (Qabs (valueOf x)) (2 ^ 500) = true -> moderate x).
  { intros x F B. split; [exact F | now apply Qle_bool_imp_le]. }
  assert (Mrx : moderate (Double.rotationX double_flick))
    by (apply M; vm_compute; reflexivity).
  assert (Mry : moderate (Double.rotationY double_flick))
    by (apply M; vm_compute; reflexivity).
  assert (Mvx : moderate (Double.velocityX double_flick))
    by (apply M; vm_compute; reflexivity).
  assert (Mvy : moderate (Double.velocityY double_flick))
    by (apply M; vm_compute; reflexivity).
  assert (Hn : (Z.of_nat 10 <= 2 ^ 52)%Z) by (vm_compute; discriminate).
  split; [reflexivity|]. split; [exact Mvx|]. split; [exact Hn|].
  destruct (idle_travel_bounded double_flick 10 eq_refl Mrx Mry Mvx Mvy Hn)
    as (_ & _ & V & _ & _ & _ & R & _).
  split; [exact V | exact R].
Defined.

Lemma callbacks_create_nothing_witness :
  exists (a : App) (g : GL),
    main workingHost emptyGL = (Ok (Some a), g) /\
    exists l : list Call,
      log (snd (run workingHost session)) = log g ++ l /\
      forall c : Call, In c l -> isEventCall c = true.
Proof.
  eexists _, _. split.
  - vm_compute. reflexivity.
  - refine (callbacks_create_nothing workingHost _ _ session _).
    vm_compute. reflexivity.
Defined.
